(** * errx: structured errors and their protocol adapters

    A shallow embedding of the Go packages [errx] (error chain, codes,
    details, locale), [herr] (HTTP / RFC 9457), [gerr] (gRPC) and [cerr]
    (Connect), together with the properties stated about them.

    Conventions.
    - A Go [error] interface value is an [option error]: [None] is the nil
      interface.  A pointer result such as [*errx.Error] is an [option] as
      well, [None] being the nil pointer.
    - Go slices are modelled by their contents in the value-level model
      (a nil slice and an empty slice are both [[]]); module [Mem] models
      the node structs, slice headers and backing arrays in a store, for the
      statements about sharing and mutation.
    - Lookup tables ([map[K]V]) are [gmap]s. *)

From Stdlib Require Import ZArith String List Bool Lia.
From Stdlib Require Import Floats.SpecFloat.
From stdpp Require Import base option gmap strings list fin_maps.

Set Warnings "-register-all".

(* ===================================================================== *)
(** ** Package errx: codes (code.go)                                      *)
(* ===================================================================== *)

(** [type Code string] *)
Definition Code : Type := string.

Definition Canceled           : Code := "canceled".
Definition Unknown            : Code := "unknown".
Definition InvalidArgument    : Code := "invalid_argument".
Definition DeadlineExceeded   : Code := "deadline_exceeded".
Definition NotFound           : Code := "not_found".
Definition AlreadyExists      : Code := "already_exists".
Definition PermissionDenied   : Code := "permission_denied".
Definition ResourceExhausted  : Code := "resource_exhausted".
Definition FailedPrecondition : Code := "failed_precondition".
Definition Aborted            : Code := "aborted".
Definition OutOfRange         : Code := "out_of_range".
Definition Unimplemented      : Code := "unimplemented".
Definition Internal           : Code := "internal".
Definition Unavailable        : Code := "unavailable".
Definition DataLoss           : Code := "data_loss".
Definition Unauthenticated    : Code := "unauthenticated".

(** The sixteen built-in codes, in the order of the [const] block. *)
Definition well_known_codes : list Code :=
  [ Canceled; Unknown; InvalidArgument; DeadlineExceeded; NotFound;
    AlreadyExists; PermissionDenied; ResourceExhausted; FailedPrecondition;
    Aborted; OutOfRange; Unimplemented; Internal; Unavailable; DataLoss;
    Unauthenticated ].

(* ===================================================================== *)
(** ** Go values of type [any]                                            *)
(* ===================================================================== *)

(** [slog.Attr]: a key and a value. *)
Record AttrOf (V : Type) : Type := mkAttr { Key : string; Value : V }.
Arguments mkAttr {V}.
Arguments Key {V}.
Arguments Value {V}.

(** details.go *)
Record BadRequestFieldViolation : Type :=
  mkFieldViolation { fv_Field : string; fv_Description : string }.

Record PreconditionViolation : Type :=
  mkPreconditionViolation
    { pv_Type : string; pv_Subject : string; pv_Description : string }.

Record ResourceInfoDetail : Type :=
  mkResourceInfo
    { ri_ResourceType : string; ri_ResourceName : string;
      ri_Owner : string; ri_Description : string }.

Record ErrorInfoDetail : Type :=
  mkErrorInfo
    { ei_Reason : string; ei_Domain : string; ei_Metadata : gmap string string }.

(** The messages of [google.golang.org/genproto/googleapis/rpc/errdetails]
    the adapters build, and any other protobuf message (opaque). *)
Inductive ProtoMessage : Type :=
| pb_BadRequest (FieldViolations : list (string * string))
| pb_PreconditionFailure (Violations : list (string * string * string))
| pb_ResourceInfo (ResourceType ResourceName Owner Description : string)
| pb_ErrorInfo (Reason Domain : string) (Metadata : gmap string string)
| pb_LocalizedMessage (Locale Message : string)
| pb_other (full_name : string) (payload : string).

(** The dynamic types the code distinguishes in a value of type [any]. *)
Inductive any : Type :=
| any_string (s : string)
| any_int (n : Z)
| any_Attr (a : AttrOf any)                              (* slog.Attr *)
| any_BadRequestDetail (Violations : list BadRequestFieldViolation)
| any_PreconditionFailureDetail (Violations : list PreconditionViolation)
| any_ResourceInfoDetail (d : ResourceInfoDetail)
| any_ErrorInfoDetail (d : ErrorInfoDetail)
| any_proto (m : ProtoMessage)                           (* a proto.Message *)
| any_error (msg : string)                               (* an error value *)
| any_other (tag : nat).                                 (* anything else *)

Definition Attr : Type := AttrOf any.

Definition slog_Any (k : string) (v : any) : Attr := mkAttr k v.
Definition slog_String (k v : string) : Attr := mkAttr k (any_string v).

(** details.go constructors *)
Definition FieldViolation (field description : string) : any :=
  any_BadRequestDetail [mkFieldViolation field description].
Definition BadRequest (violations : list BadRequestFieldViolation) : any :=
  any_BadRequestDetail violations.
Definition PreconditionFailure (violations : list PreconditionViolation) : any :=
  any_PreconditionFailureDetail violations.
Definition ResourceInfo (resourceType resourceName owner description : string) : any :=
  any_ResourceInfoDetail (mkResourceInfo resourceType resourceName owner description).
Definition ErrorInfo (reason domain : string) (metadata : gmap string string) : any :=
  any_ErrorInfoDetail (mkErrorInfo reason domain metadata).

(* ===================================================================== *)
(** ** Package errx: the error chain (errx.go, sentinel.go, stack.go)     *)
(* ===================================================================== *)

Record Frame : Type := mkFrame { Function : string; File : string; Line : Z }.
Record Stack : Type := mkStack { frames : list Frame }.

Record SentinelError : Type := mkSentinel { s_msg : string; s_code : Code }.

(** [type Error struct { msg; cause; code; fields; stack; details }],
    parametrised by the type of the cause so that it can be nested in
    [error] below. *)
Record ErrorOf (E : Type) : Type :=
  mkError
    { msg : string;
      cause : option E;
      code : Code;
      fields : list Attr;
      stack : option Stack;
      details : list any }.
Arguments mkError {E}.
Arguments msg {E}.
Arguments cause {E}.
Arguments code {E}.
Arguments fields {E}.
Arguments stack {E}.
Arguments details {E}.

(** The dynamic types of a non-nil [error] value:
    - [*errx.Error];
    - [*errx.SentinelError];
    - an error of another package.  Of such an error the code observes its
      [Error()] string, whether it implements [Coder] (and then its
      [Code()]), and what [Unwrap()] returns ([fmt.Errorf] with the verb
      for wrapping builds such an error).
    Errors that unwrap to several errors ([errors.Join]) or that customise
    [errors.As] with a method of their own are not represented, nor are
    nil pointers stored in a non-nil interface. *)
Inductive error : Type :=
| err_Error (e : ErrorOf error)
| err_Sentinel (s : SentinelError)
| err_foreign (f_msg : string) (f_code : option Code) (f_unwrap : option error).

Definition Error : Type := ErrorOf error.

(** Number of nodes on the chain, following [cause] and [Unwrap]. *)
Fixpoint depth (err : error) : nat :=
  match err with
  | err_Error e => S (match cause e with Some c => depth c | None => 0 end)
  | err_Sentinel _ => 1
  | err_foreign _ _ u => S (match u with Some c => depth c | None => 0 end)
  end.

Definition depth_opt (err : option error) : nat :=
  match err with Some e => depth e | None => 0 end.

(** [argsToAttrs]: slog-style arguments to attributes. *)
Fixpoint argsToAttrs (args : list any) : list Attr :=
  match args with
  | [] => []
  | any_Attr v :: rest => v :: argsToAttrs rest
  | any_string v :: x :: rest => slog_Any v x :: argsToAttrs rest
  | any_string v :: [] => [slog_String "!BADKEY" v]
  | v :: rest => slog_Any "!BADKEY" v :: argsToAttrs rest
  end.

Definition New (m : string) (args : list any) : Error :=
  {| msg := m; cause := None; code := ""; fields := argsToAttrs args;
     stack := None; details := [] |}.

Definition Wrap (err : option error) (args : list any) : option Error :=
  match err with
  | None => None
  | Some c =>
      Some {| msg := ""; cause := Some c; code := ""; fields := argsToAttrs args;
              stack := None; details := [] |}
  end.

Section Formatting.
(** [fmt.Sprintf], of the Go standard library. *)
Variable fmt_Sprintf : string -> list any -> string.

Definition Wrapf (err : option error) (format : string) (fmtArgs : list any)
  : option Error :=
  match err with
  | None => None
  | Some c =>
      Some {| msg := fmt_Sprintf format fmtArgs; cause := Some c; code := "";
              fields := []; stack := None; details := [] |}
  end.
End Formatting.

(** The mutators: [cp := *e; cp.x = ...; return &cp]. *)
Definition With (e : Error) (args : list any) : Error :=
  {| msg := msg e; cause := cause e; code := code e;
     fields := ([] ++ fields e) ++ argsToAttrs args;
     stack := stack e; details := details e |}.

Definition WithCode (e : Error) (c : Code) : Error :=
  {| msg := msg e; cause := cause e; code := c; fields := fields e;
     stack := stack e; details := details e |}.

Definition WithDetails (e : Error) (ds : list any) : Error :=
  {| msg := msg e; cause := cause e; code := code e; fields := fields e;
     stack := stack e; details := ([] ++ details e) ++ ds |}.

Definition WithFieldViolation (e : Error) (field description : string) : Error :=
  WithDetails e [FieldViolation field description].

(** [WithStack]; the frames are what [captureStack(2)] reads from the
    runtime at the call. *)
Definition WithStack (captured : list Frame) (e : Error) : Error :=
  {| msg := msg e; cause := cause e; code := code e; fields := fields e;
     stack := Some (mkStack captured); details := details e |}.

Definition NewSentinel (m : string) (c : Code) : SentinelError :=
  {| s_msg := m; s_code := c |}.

(** [Error()] of each dynamic type; for [*Error]:
<<
  if e.msg == "" && e.cause != nil { return e.cause.Error() }
  if e.cause == nil { return e.msg }
  return e.msg + ": " + e.cause.Error()
>> *)
Fixpoint error_Error (err : error) : string :=
  match err with
  | err_Error e =>
      match cause e with
      | Some c =>
          if decide (msg e = "") then error_Error c
          else msg e +:+ ": " +:+ error_Error c
      | None => msg e
      end
  | err_Sentinel s => s_msg s
  | err_foreign m _ _ => m
  end.

Definition Error_Error (e : Error) : string := error_Error (err_Error e).

Definition Unwrap (e : Error) : option error := cause e.

(** [errors.As(err, &c)] with [c] of interface type [Coder], followed by
    [c.Code()].  [*Error] and [*SentinelError] implement [Coder]; a foreign
    error that does not is unwrapped.  For [*Error], [Code()] is
<<
  if e.code != "" { return e.code }
  return CodeOf(e.cause)
>> *)
Fixpoint CodeOf_error (err : error) : Code :=
  match err with
  | err_Error e =>
      if decide (code e = "") then
        match cause e with Some c => CodeOf_error c | None => "" end
      else code e
  | err_Sentinel s => s_code s
  | err_foreign _ (Some c) _ => c
  | err_foreign _ None (Some u) => CodeOf_error u
  | err_foreign _ None None => ""
  end.

Definition CodeOf (err : option error) : Code :=
  match err with Some e => CodeOf_error e | None => "" end.

Definition Error_Code (e : Error) : Code :=
  if decide (code e = "") then CodeOf (cause e) else code e.

Definition IsCode (err : option error) (c : Code) : bool :=
  bool_decide (CodeOf err = c).

(** [errors.As(err, &ex)] with [ex] of type [*Error]: the first [*Error] on
    the chain of [Unwrap]s. *)
Fixpoint errors_As_Error (err : error) : option Error :=
  match err with
  | err_Error e => Some e
  | err_Sentinel _ => None
  | err_foreign _ _ (Some u) => errors_As_Error u
  | err_foreign _ _ None => None
  end.

(** The loop shared by [Fields], [DetailsOf] (and [StackOf]):
<<
  for err != nil {
      var ex *Error
      if errors.As(err, &ex) { acc = append(acc, ex.X...); err = ex.cause }
      else { break }
  }
  return acc
>>
    [None] when the fuel runs out before the loop ends. *)
Fixpoint collect_loop {A : Type} (proj : Error -> list A)
    (fuel : nat) (err : option error) (acc : list A) : option (list A) :=
  match err with
  | None => Some acc
  | Some er =>
      match fuel with
      | O => None
      | S fuel' =>
          match errors_As_Error er with
          | Some ex => collect_loop proj fuel' (cause ex) (acc ++ proj ex)
          | None => Some acc
          end
      end
  end.

Definition Fields (err : option error) : list Attr :=
  default [] (collect_loop fields (depth_opt err) err []).

Definition DetailsOf (err : option error) : list any :=
  default [] (collect_loop details (depth_opt err) err []).

(* ===================================================================== *)
(** ** Package errx: locale.go                                            *)
(* ===================================================================== *)

Module locale.
Section ParseAcceptLanguage.
(** The collaborators of [golang.org/x/text/language]: the tag type, its
  [String] method and [language.ParseAcceptLanguage], which returns the
  tags, their quality weights ([float32]) and an error. *)
Variable Tag : Type.
Variable Tag_String : Tag -> string.
Variable language_ParseAcceptLanguage :
string -> list Tag * list spec_float * option string.

(** Go's [a > b] on floating-point numbers: false when either is NaN. *)
Definition float_gt (a b : spec_float) : bool := SFltb b a.

Definition is_NaN (f : spec_float) : bool :=
match f with S754_nan => true | _ => false end.


(** The body of [for i := 1; i < len(tags); i++], from index [i] on and
  for [n] more iterations; [None] is the panic of an index out of
  range in [qs]. *)
Fixpoint best_loop (qs : list spec_float) (n i best : nat) : option nat :=
match n with
| O => Some best
| S n' =>
    match qs !! i, qs !! best with
    | Some qi, Some qb =>
        if float_gt qi qb then best_loop qs n' (S i) i
        else best_loop qs n' (S i) best
    | _, _ => None
    end
end.

(** [ParseAcceptLanguage]; [None] is a run-time panic. *)
Definition ParseAcceptLanguage (s : string) : option string :=
let '(tags, qs, err) := language_ParseAcceptLanguage s in
if bool_decide (err ≠ None) || bool_decide (length tags = 0) then Some ""
else
  match best_loop qs (length tags - 1) 1 0 with
  | Some best =>
      match tags !! best with
      | Some t => Some (Tag_String t)
      | None => None
      end
  | None => None
  end.
End ParseAcceptLanguage.
End locale.

(* ===================================================================== *)
(** ** Package herr: HTTP status mapping and RFC 9457 problem details     *)
(* ===================================================================== *)

Module herr.

(** The two package-level tables, which [RegisterCode] updates. *)
Record tables : Type :=
  mkTables { errxToHTTP : gmap Code Z; httpToErrx : gmap Z Code }.

Definition StatusBadRequest          : Z := 400.
Definition StatusUnauthorized        : Z := 401.
Definition StatusForbidden           : Z := 403.
Definition StatusNotFound            : Z := 404.
Definition StatusConflict            : Z := 409.
Definition StatusPreconditionFailed  : Z := 412.
Definition StatusTooManyRequests     : Z := 429.
Definition StatusInternalServerError : Z := 500.
Definition StatusNotImplemented      : Z := 501.
Definition StatusServiceUnavailable  : Z := 503.
Definition StatusGatewayTimeout      : Z := 504.

(** The tables as the package declares them, entry by entry. *)
Definition init : tables :=
  {| errxToHTTP := list_to_map
       [ (InvalidArgument,    StatusBadRequest);
         (OutOfRange,         StatusBadRequest);
         (Unauthenticated,    StatusUnauthorized);
         (PermissionDenied,   StatusForbidden);
         (NotFound,           StatusNotFound);
         (AlreadyExists,      StatusConflict);
         (Aborted,            StatusConflict);
         (FailedPrecondition, StatusPreconditionFailed);
         (ResourceExhausted,  StatusTooManyRequests);
         (Canceled,           499%Z);
         (Internal,           StatusInternalServerError);
         (Unknown,            StatusInternalServerError);
         (DataLoss,           StatusInternalServerError);
         (Unimplemented,      StatusNotImplemented);
         (Unavailable,        StatusServiceUnavailable);
         (DeadlineExceeded,   StatusGatewayTimeout) ];
     httpToErrx := list_to_map
       [ (StatusBadRequest,          InvalidArgument);
         (StatusUnauthorized,        Unauthenticated);
         (StatusForbidden,           PermissionDenied);
         (StatusNotFound,            NotFound);
         (StatusConflict,            AlreadyExists);
         (StatusPreconditionFailed,  FailedPrecondition);
         (StatusTooManyRequests,     ResourceExhausted);
         (499%Z,                     Canceled);
         (StatusInternalServerError, Internal);
         (StatusNotImplemented,      Unimplemented);
         (StatusServiceUnavailable,  Unavailable);
         (StatusGatewayTimeout,      DeadlineExceeded) ] |}.

Definition RegisterCode (c : Code) (status : Z) (tb : tables) : tables :=
  {| errxToHTTP := <[c := status]> (errxToHTTP tb);
     httpToErrx := <[status := c]> (httpToErrx tb) |}.

Definition ToHTTPStatus (tb : tables) (c : Code) : Z :=
  match errxToHTTP tb !! c with
  | Some s => s
  | None => StatusInternalServerError
  end.

Definition ToErrxCode (tb : tables) (status : Z) : Code :=
  match httpToErrx tb !! status with
  | Some c => c
  | None => Unknown
  end.

(** [http.StatusText] of the Go standard library: the reason phrase of
    a status code, empty when the code is unknown. *)
Definition http_StatusText (code : Z) : string :=
  match code with
  | 100 => "Continue"
  | 101 => "Switching Protocols"
  | 102 => "Processing"
  | 103 => "Early Hints"
  | 200 => "OK"
  | 201 => "Created"
  | 202 => "Accepted"
  | 203 => "Non-Authoritative Information"
  | 204 => "No Content"
  | 205 => "Reset Content"
  | 206 => "Partial Content"
  | 207 => "Multi-Status"
  | 208 => "Already Reported"
  | 226 => "IM Used"
  | 300 => "Multiple Choices"
  | 301 => "Moved Permanently"
  | 302 => "Found"
  | 303 => "See Other"
  | 304 => "Not Modified"
  | 305 => "Use Proxy"
  | 307 => "Temporary Redirect"
  | 308 => "Permanent Redirect"
  | 400 => "Bad Request"
  | 401 => "Unauthorized"
  | 402 => "Payment Required"
  | 403 => "Forbidden"
  | 404 => "Not Found"
  | 405 => "Method Not Allowed"
  | 406 => "Not Acceptable"
  | 407 => "Proxy Authentication Required"
  | 408 => "Request Timeout"
  | 409 => "Conflict"
  | 410 => "Gone"
  | 411 => "Length Required"
  | 412 => "Precondition Failed"
  | 413 => "Request Entity Too Large"
  | 414 => "Request URI Too Long"
  | 415 => "Unsupported Media Type"
  | 416 => "Requested Range Not Satisfiable"
  | 417 => "Expectation Failed"
  | 418 => "I'm a teapot"
  | 421 => "Misdirected Request"
  | 422 => "Unprocessable Entity"
  | 423 => "Locked"
  | 424 => "Failed Dependency"
  | 425 => "Too Early"
  | 426 => "Upgrade Required"
  | 428 => "Precondition Required"
  | 429 => "Too Many Requests"
  | 431 => "Request Header Fields Too Large"
  | 451 => "Unavailable For Legal Reasons"
  | 500 => "Internal Server Error"
  | 501 => "Not Implemented"
  | 502 => "Bad Gateway"
  | 503 => "Service Unavailable"
  | 504 => "Gateway Timeout"
  | 505 => "HTTP Version Not Supported"
  | 506 => "Variant Also Negotiates"
  | 507 => "Insufficient Storage"
  | 508 => "Loop Detected"
  | 510 => "Not Extended"
  | 511 => "Network Authentication Required"
  | _ => ""
  end%Z.

(** The Go values stored in a [map[string]any] by [toDetailJSON]. *)
Inductive jsonval : Type :=
| j_string (s : string)
| j_objects (l : list (gmap string jsonval))   (* []map[string]any *)
| j_string_map (m : gmap string string).       (* map[string]string *)

Record LocalizedMsg : Type :=
  mkLocalizedMsg { lm_Locale : string; lm_Message : string }.

Record ProblemDetail : Type :=
  mkProblemDetail
    { pd_Type : string;
      pd_Title : string;
      pd_Status : Z;
      pd_Detail : string;
      pd_Instance : string;
      pd_Code : string;
      pd_Errors : list (gmap string jsonval);
      pd_LocalizedMessage : option LocalizedMsg }.

(** [ProblemDetailOption], a function on a pointer to the problem
    detail: an update of the problem detail under construction. *)
Definition ProblemDetailOption : Type := ProblemDetail -> ProblemDetail.

Definition WithInstance (instance : string) : ProblemDetailOption :=
  fun p =>
    {| pd_Type := pd_Type p; pd_Title := pd_Title p; pd_Status := pd_Status p;
       pd_Detail := pd_Detail p; pd_Instance := instance; pd_Code := pd_Code p;
       pd_Errors := pd_Errors p; pd_LocalizedMessage := pd_LocalizedMessage p |}.

Definition WithType (typeURI : string) : ProblemDetailOption :=
  fun p =>
    {| pd_Type := typeURI; pd_Title := pd_Title p; pd_Status := pd_Status p;
       pd_Detail := pd_Detail p; pd_Instance := pd_Instance p; pd_Code := pd_Code p;
       pd_Errors := pd_Errors p; pd_LocalizedMessage := pd_LocalizedMessage p |}.

(** [toDetailJSON]; [None] is the nil map of the [default] case. *)
Definition toDetailJSON (d : any) : option (gmap string jsonval) :=
  match d with
  | any_BadRequestDetail vs =>
      let violations :=
        map (fun fv : BadRequestFieldViolation =>
               list_to_map [ ("field"%string, j_string (fv_Field fv));
                             ("description"%string, j_string (fv_Description fv)) ])
            vs in
      Some (list_to_map [ ("type"%string, j_string "BadRequest");
                          ("violations"%string, j_objects violations) ])
  | any_PreconditionFailureDetail vs =>
      let violations :=
        map (fun pv : PreconditionViolation =>
               list_to_map [ ("type"%string, j_string (pv_Type pv));
                             ("subject"%string, j_string (pv_Subject pv));
                             ("description"%string, j_string (pv_Description pv)) ])
            vs in
      Some (list_to_map [ ("type"%string, j_string "PreconditionFailure");
                          ("violations"%string, j_objects violations) ])
  | any_ResourceInfoDetail v =>
      Some (list_to_map [ ("type"%string, j_string "ResourceInfo");
                          ("resource_type"%string, j_string (ri_ResourceType v));
                          ("resource_name"%string, j_string (ri_ResourceName v));
                          ("owner"%string, j_string (ri_Owner v));
                          ("description"%string, j_string (ri_Description v)) ])
  | any_ErrorInfoDetail v =>
      Some (list_to_map [ ("type"%string, j_string "ErrorInfo");
                          ("reason"%string, j_string (ei_Reason v));
                          ("domain"%string, j_string (ei_Domain v));
                          ("metadata"%string, j_string_map (ei_Metadata v)) ])
  | _ => None
  end.

Definition ToProblemDetail (tb : tables) (err : option error)
    (opts : list ProblemDetailOption) : option ProblemDetail :=
  match err with
  | None => None
  | Some er =>
      let c := CodeOf err in
      let status := ToHTTPStatus tb c in
      let code := if decide (c = "") then Unknown else c in
      let title := http_StatusText status in
      let title := if decide (title = "") then code else title in
      let p := {| pd_Type := "about:blank"; pd_Title := title;
                  pd_Status := status; pd_Detail := error_Error er;
                  pd_Instance := ""; pd_Code := code;
                  pd_Errors := []; pd_LocalizedMessage := None |} in
      let p := {| pd_Type := pd_Type p; pd_Title := pd_Title p;
                  pd_Status := pd_Status p; pd_Detail := pd_Detail p;
                  pd_Instance := pd_Instance p; pd_Code := pd_Code p;
                  pd_Errors := omap toDetailJSON (DetailsOf err);
                  pd_LocalizedMessage := pd_LocalizedMessage p |} in
      Some (fold_left (fun p (o : ProblemDetailOption) => o p) opts p)
  end.

Definition FromProblemDetail (tb : tables) (p : option ProblemDetail)
  : option Error :=
  match p with
  | None => None
  | Some p =>
      let code : Code := pd_Code p in
      let code := if decide (code = "") then ToErrxCode tb (pd_Status p) else code in
      Some (WithCode (New (pd_Detail p) []) code)
  end.

(** An [http.ResponseWriter] that records what it is given: the header
    map, the status passed to the first [WriteHeader] and the bytes
    written. *)
Record ResponseWriter : Type :=
  mkResponseWriter
    { rw_Header : gmap string (list string);
      rw_Status : option Z;
      rw_Body : string }.

Definition Header_Set (k v : string) (w : ResponseWriter) : ResponseWriter :=
  {| rw_Header := <[k := [v]]> (rw_Header w);
     rw_Status := rw_Status w; rw_Body := rw_Body w |}.

Definition WriteHeader (status : Z) (w : ResponseWriter) : ResponseWriter :=
  {| rw_Header := rw_Header w;
     rw_Status := match rw_Status w with Some s => Some s | None => Some status end;
     rw_Body := rw_Body w |}.

Definition Write (b : string) (w : ResponseWriter) : ResponseWriter :=
  {| rw_Header := rw_Header w;
     rw_Status := match rw_Status w with Some s => Some s | None => Some 200%Z end;
     rw_Body := rw_Body w +:+ b |}.

Definition newline : string := String (Ascii.ascii_of_nat 10) EmptyString.
Definition dquote : string := String (Ascii.ascii_of_nat 34) EmptyString.

(** The fixed body written when marshalling fails: the JSON object with
    type about:blank, title Internal Server Error and status 500. *)
Definition fallback_body : string :=
  "{" +:+ dquote +:+ "type" +:+ dquote +:+ ":" +:+ dquote +:+ "about:blank" +:+ dquote
      +:+ "," +:+ dquote +:+ "title" +:+ dquote +:+ ":" +:+ dquote
      +:+ "Internal Server Error" +:+ dquote
      +:+ "," +:+ dquote +:+ "status" +:+ dquote +:+ ":500}".

Section Writing.
(** [json.Marshal] on a [*ProblemDetail]; [None] is a marshalling
    error. *)
Variable json_Marshal : option ProblemDetail -> option string.

Definition writeProblemDetail (p : option ProblemDetail) (w : ResponseWriter)
  : option ResponseWriter :=
  match json_Marshal p with
  | None =>
      let w := Header_Set "Content-Type" "application/problem+json" w in
      let w := WriteHeader StatusInternalServerError w in
      Some (Write (fallback_body +:+ newline) w)
  | Some b =>
      let w := Header_Set "Content-Type" "application/problem+json" w in
      match p with
      | None => None                    (* p.Status on a nil pointer *)
      | Some pd =>
          let w := WriteHeader (pd_Status pd) w in
          let w := Write b w in
          Some (Write newline w)
      end
  end.

(** [WriteError]; [None] is a run-time panic. *)
Definition WriteError (tb : tables) (err : option error)
    (opts : list ProblemDetailOption) (w : ResponseWriter)
  : option ResponseWriter :=
  match err with
  | None => Some w
  | Some _ => writeProblemDetail (ToProblemDetail tb err opts) w
  end.
End Writing.

End herr.

(* ===================================================================== *)
(** ** Protobuf [Any] and its codec                                       *)
(* ===================================================================== *)

(** [anypb.Any]: a type URL and the serialised message. *)
Record Any : Type := mkAny { type_url : string; any_value : string }.

(** The protobuf runtime, as the adapters use it: [anypb.New] packs a
    message ([None] when marshalling fails) and [UnmarshalNew] unpacks one
    (the error text when the type is not registered or the bytes do not
    parse). *)
Class AnyCodec : Type :=
  { anypb_New : ProtoMessage -> option Any;
    Any_UnmarshalNew : Any -> ProtoMessage + string }.

(* ===================================================================== *)
(** ** Package gerr: gRPC status                                          *)
(* ===================================================================== *)

Module gerr.

(** [codes.Code], a [uint32]. *)
Definition codes_Code : Type := N.

Definition OK                       : codes_Code := 0%N.
Definition codes_Canceled           : codes_Code := 1%N.
Definition codes_Unknown            : codes_Code := 2%N.
Definition codes_InvalidArgument    : codes_Code := 3%N.
Definition codes_DeadlineExceeded   : codes_Code := 4%N.
Definition codes_NotFound           : codes_Code := 5%N.
Definition codes_AlreadyExists      : codes_Code := 6%N.
Definition codes_PermissionDenied   : codes_Code := 7%N.
Definition codes_ResourceExhausted  : codes_Code := 8%N.
Definition codes_FailedPrecondition : codes_Code := 9%N.
Definition codes_Aborted            : codes_Code := 10%N.
Definition codes_OutOfRange         : codes_Code := 11%N.
Definition codes_Unimplemented      : codes_Code := 12%N.
Definition codes_Internal           : codes_Code := 13%N.
Definition codes_Unavailable        : codes_Code := 14%N.
Definition codes_DataLoss           : codes_Code := 15%N.
Definition codes_Unauthenticated    : codes_Code := 16%N.

Definition errxToGRPC : gmap Code codes_Code :=
  list_to_map
    [ (Canceled,           codes_Canceled);
      (Unknown,            codes_Unknown);
      (InvalidArgument,    codes_InvalidArgument);
      (DeadlineExceeded,   codes_DeadlineExceeded);
      (NotFound,           codes_NotFound);
      (AlreadyExists,      codes_AlreadyExists);
      (PermissionDenied,   codes_PermissionDenied);
      (ResourceExhausted,  codes_ResourceExhausted);
      (FailedPrecondition, codes_FailedPrecondition);
      (Aborted,            codes_Aborted);
      (OutOfRange,         codes_OutOfRange);
      (Unimplemented,      codes_Unimplemented);
      (Internal,           codes_Internal);
      (Unavailable,        codes_Unavailable);
      (DataLoss,           codes_DataLoss);
      (Unauthenticated,    codes_Unauthenticated) ].

Definition grpcToErrx : gmap codes_Code Code :=
  list_to_map
    [ (OK,                       ""%string);
      (codes_Canceled,           Canceled);
      (codes_Unknown,            Unknown);
      (codes_InvalidArgument,    InvalidArgument);
      (codes_DeadlineExceeded,   DeadlineExceeded);
      (codes_NotFound,           NotFound);
      (codes_AlreadyExists,      AlreadyExists);
      (codes_PermissionDenied,   PermissionDenied);
      (codes_ResourceExhausted,  ResourceExhausted);
      (codes_FailedPrecondition, FailedPrecondition);
      (codes_Aborted,            Aborted);
      (codes_OutOfRange,         OutOfRange);
      (codes_Unimplemented,      Unimplemented);
      (codes_Internal,           Internal);
      (codes_Unavailable,        Unavailable);
      (codes_DataLoss,           DataLoss);
      (codes_Unauthenticated,    Unauthenticated) ].

Definition ToGRPCCode (c : Code) : codes_Code :=
  match errxToGRPC !! c with
  | Some gc => gc
  | None => codes_Unknown
  end.

Definition ToErrxCode (c : codes_Code) : Code :=
  match grpcToErrx !! c with
  | Some ec => ec
  | None => Unknown
  end.

(** [toProtoDetail]; [None] is the nil of the unrecognised case.  The
    last case of the source tests [protoadapt.MessageV1]: here [any_proto]
    is a message that implements it. *)
Definition toProtoDetail (d : any) : option ProtoMessage :=
  match d with
  | any_BadRequestDetail vs =>
      Some (pb_BadRequest
              (map (fun fv => (fv_Field fv, fv_Description fv)) vs))
  | any_PreconditionFailureDetail vs =>
      Some (pb_PreconditionFailure
              (map (fun pv => (pv_Type pv, pv_Subject pv, pv_Description pv)) vs))
  | any_ResourceInfoDetail v =>
      Some (pb_ResourceInfo (ri_ResourceType v) (ri_ResourceName v)
              (ri_Owner v) (ri_Description v))
  | any_ErrorInfoDetail v =>
      Some (pb_ErrorInfo (ei_Reason v) (ei_Domain v) (ei_Metadata v))
  | any_proto pm => Some pm
  | _ => None
  end.

(** [status.Status] of grpc-go: the code, the message and the packed
    details of the underlying status proto. *)
Record Status : Type :=
  mkStatus { st_code : codes_Code; st_message : string; st_details : list Any }.

Definition status_New (c : codes_Code) (m : string) : Status :=
  {| st_code := c; st_message := m; st_details := [] |}.

(** [Code] and [Message] of a status pointer accept a nil receiver. *)
Definition Status_Code (st : option Status) : codes_Code :=
  match st with Some s => st_code s | None => OK end.

Definition Status_Message (st : option Status) : string :=
  match st with Some s => st_message s | None => "" end.

Section Codec.
Context `{AnyCodec}.

(** [WithDetails] of a status: an error for an OK status or when a
    detail cannot be packed. *)
Definition Status_WithDetails (s : Status) (ds : list ProtoMessage)
  : option Status :=
  if decide (st_code s = OK) then None
  else
    match mapM anypb_New ds with
    | Some packed =>
        Some {| st_code := st_code s; st_message := st_message s;
                st_details := st_details s ++ packed |}
    | None => None
    end.

(** [Details] of a status: each detail unpacked, or the unpacking error
    in its place. *)
Definition Status_Details (st : option Status) : list any :=
  match st with
  | None => []
  | Some s =>
      map (fun a => match Any_UnmarshalNew a with
                    | inl m => any_proto m
                    | inr e => any_error e
                    end)
          (st_details s)
  end.

Definition ToStatus (err : option error) : Status :=
  match err with
  | None => status_New OK ""
  | Some er =>
      let c := CodeOf err in
      let st := status_New (ToGRPCCode c) (error_Error er) in
      let protoDetails := omap toProtoDetail (DetailsOf err) in
      if decide (0 < length protoDetails) then
        match Status_WithDetails st protoDetails with
        | Some withDetails => withDetails
        | None => st
        end
      else st
  end.

Definition FromStatus (st : option Status) : option Error :=
  if decide (Status_Code st = OK) then None
  else
    let err := WithCode (New (Status_Message st) []) (ToErrxCode (Status_Code st)) in
    let details := Status_Details st in
    if decide (0 < length details) then Some (WithDetails err details)
    else Some err.
End Codec.

End gerr.

(* ===================================================================== *)
(** ** Package cerr: Connect errors                                       *)
(* ===================================================================== *)

Module cerr.

(** [connect.Code], a [uint32]; zero is not a defined code. *)
Definition connect_Code : Type := N.

Definition CodeCanceled           : connect_Code := 1%N.
Definition CodeUnknown            : connect_Code := 2%N.
Definition CodeInvalidArgument    : connect_Code := 3%N.
Definition CodeDeadlineExceeded   : connect_Code := 4%N.
Definition CodeNotFound           : connect_Code := 5%N.
Definition CodeAlreadyExists      : connect_Code := 6%N.
Definition CodePermissionDenied   : connect_Code := 7%N.
Definition CodeResourceExhausted  : connect_Code := 8%N.
Definition CodeFailedPrecondition : connect_Code := 9%N.
Definition CodeAborted            : connect_Code := 10%N.
Definition CodeOutOfRange         : connect_Code := 11%N.
Definition CodeUnimplemented      : connect_Code := 12%N.
Definition CodeInternal           : connect_Code := 13%N.
Definition CodeUnavailable        : connect_Code := 14%N.
Definition CodeDataLoss           : connect_Code := 15%N.
Definition CodeUnauthenticated    : connect_Code := 16%N.

Definition errxToConnect : gmap Code connect_Code :=
  list_to_map
    [ (Canceled,           CodeCanceled);
      (Unknown,            CodeUnknown);
      (InvalidArgument,    CodeInvalidArgument);
      (DeadlineExceeded,   CodeDeadlineExceeded);
      (NotFound,           CodeNotFound);
      (AlreadyExists,      CodeAlreadyExists);
      (PermissionDenied,   CodePermissionDenied);
      (ResourceExhausted,  CodeResourceExhausted);
      (FailedPrecondition, CodeFailedPrecondition);
      (Aborted,            CodeAborted);
      (OutOfRange,         CodeOutOfRange);
      (Unimplemented,      CodeUnimplemented);
      (Internal,           CodeInternal);
      (Unavailable,        CodeUnavailable);
      (DataLoss,           CodeDataLoss);
      (Unauthenticated,    CodeUnauthenticated) ].

Definition connectToErrx : gmap connect_Code Code :=
  list_to_map
    [ (0%N,                   ""%string);
      (CodeCanceled,           Canceled);
      (CodeUnknown,            Unknown);
      (CodeInvalidArgument,    InvalidArgument);
      (CodeDeadlineExceeded,   DeadlineExceeded);
      (CodeNotFound,           NotFound);
      (CodeAlreadyExists,      AlreadyExists);
      (CodePermissionDenied,   PermissionDenied);
      (CodeResourceExhausted,  ResourceExhausted);
      (CodeFailedPrecondition, FailedPrecondition);
      (CodeAborted,            Aborted);
      (CodeOutOfRange,         OutOfRange);
      (CodeUnimplemented,      Unimplemented);
      (CodeInternal,           Internal);
      (CodeUnavailable,        Unavailable);
      (CodeDataLoss,           DataLoss);
      (CodeUnauthenticated,    Unauthenticated) ].

Definition ToConnectCode (c : Code) : connect_Code :=
  match errxToConnect !! c with
  | Some cc => cc
  | None => CodeUnknown
  end.

Definition ToErrxCode (c : connect_Code) : Code :=
  match connectToErrx !! c with
  | Some ec => ec
  | None => Unknown
  end.

(** [toProtoDetail] of this package.  The last case of the source tests
    [proto.Message]: here [any_proto] is a message that implements it.  A
    message that implements only one of [proto.Message] and
    [protoadapt.MessageV1] is not told apart by [any_proto], so the two
    packages are not compared on it. *)
Definition toProtoDetail (d : any) : option ProtoMessage :=
  match d with
  | any_BadRequestDetail vs =>
      Some (pb_BadRequest
              (map (fun fv => (fv_Field fv, fv_Description fv)) vs))
  | any_PreconditionFailureDetail vs =>
      Some (pb_PreconditionFailure
              (map (fun pv => (pv_Type pv, pv_Subject pv, pv_Description pv)) vs))
  | any_ResourceInfoDetail v =>
      Some (pb_ResourceInfo (ri_ResourceType v) (ri_ResourceName v)
              (ri_Owner v) (ri_Description v))
  | any_ErrorInfoDetail v =>
      Some (pb_ErrorInfo (ei_Reason v) (ei_Domain v) (ei_Metadata v))
  | any_proto pm => Some pm
  | _ => None
  end.

(** [connect.ErrorDetail] wraps a packed message; [connect.Error] holds
    the code, the underlying error and the details. *)
Record ErrorDetail : Type := mkErrorDetail { pbAny : Any }.

Record ConnectError : Type :=
  mkConnectError
    { ce_code : connect_Code; ce_err : option error; ce_details : list ErrorDetail }.

Definition connect_NewError (c : connect_Code) (underlying : option error)
  : ConnectError :=
  {| ce_code := c; ce_err := underlying; ce_details := [] |}.

Definition AddDetail (d : ErrorDetail) (e : ConnectError) : ConnectError :=
  {| ce_code := ce_code e; ce_err := ce_err e; ce_details := ce_details e ++ [d] |}.

(** [Message] of a Connect error: the message of the underlying error. *)
Definition Message (e : ConnectError) : string :=
  match ce_err e with Some er => error_Error er | None => "" end.

Section Codec.
Context `{AnyCodec}.

Definition connect_NewErrorDetail (pm : ProtoMessage) : option ErrorDetail :=
  mkErrorDetail <$> anypb_New pm.

(** [Value] of an error detail. *)
Definition ErrorDetail_Value (d : ErrorDetail) : option ProtoMessage :=
  match Any_UnmarshalNew (pbAny d) with
  | inl m => Some m
  | inr _ => None
  end.

Definition ToConnectError (err : option error) : option ConnectError :=
  match err with
  | None => None
  | Some _ =>
      let c := CodeOf err in
      let ce := connect_NewError (ToConnectCode c) err in
      Some (fold_left
              (fun ce d =>
                 match toProtoDetail d with
                 | None => ce
                 | Some pm =>
                     match connect_NewErrorDetail pm with
                     | None => ce
                     | Some detail => AddDetail detail ce
                     end
                 end)
              (DetailsOf err) ce)
  end.

Definition FromConnectError (err : option ConnectError) : option Error :=
  match err with
  | None => None
  | Some ce =>
      let ex := WithCode (New (Message ce) []) (ToErrxCode (ce_code ce)) in
      let details :=
        fold_left
          (fun details d =>
             match ErrorDetail_Value d with
             | None => details
             | Some v => details ++ [any_proto v]
             end)
          (ce_details ce) [] in
      if decide (0 < length details) then Some (WithDetails ex details)
      else Some ex
  end.
End Codec.

End cerr.

(* ===================================================================== *)
(** ** The error chain in memory: nodes, slices and backing arrays        *)
(* ===================================================================== *)

(** The mutators of [*Error] copy the struct ([cp := *e]), change one
    field and return the address of the copy.  Module [Mem] models that
    with a store of node structs, slice headers that point into backing
    arrays, and Go's [append], which writes in place when the capacity
    allows and allocates otherwise. *)
Module Mem.

Definition loc : Type := nat.

(** A slice header: data pointer (nil when [None]), length, capacity.
    Slices of this program are never re-sliced, so they start at index 0
    of their backing array. *)
Record slice : Type := mkSlice { s_ptr : option loc; s_len : nat; s_cap : nat }.

Definition nil_slice : slice := {| s_ptr := None; s_len := 0; s_cap := 0 |}.

(** An [error] interface value: nil, a [*Error] at an address, or a
    value of another dynamic type. *)
Inductive iface : Type :=
| i_nil
| i_Error (p : loc)
| i_other (id : nat).

(** The [Error] struct. *)
Record node : Type :=
  mkNode
    { n_msg : string;
      n_cause : iface;
      n_code : Code;
      n_fields : slice;
      n_stack : option loc;
      n_details : slice }.

(** The store: node structs, the backing arrays of [[]slog.Attr] and
    [[]any] slices (the elements written so far), and [Stack] structs. *)
Record store : Type :=
  mkStore
    { nodes : gmap loc node;
      attr_arrays : gmap loc (list Attr);
      any_arrays : gmap loc (list any);
      stacks : gmap loc Stack }.

(** The elements of a slice; [None] when the header does not describe
    allocated memory. *)
Definition view {A : Type} (arrs : gmap loc (list A)) (s : slice)
  : option (list A) :=
  match s_ptr s with
  | None => if decide (s_len s = 0) then Some [] else None
  | Some p =>
      match arrs !! p with
      | Some arr =>
          if decide (s_len s <= length arr) then Some (take (s_len s) arr)
          else None
      | None => None
      end
  end.

(** Writing [xs] into an array from index [off] on. *)
Definition write_at {A : Type} (off : nat) (xs arr : list A) : list A :=
  take off arr ++ xs ++ drop (off + length xs) arr.

Section Growth.
(** The capacity the runtime picks when a slice of capacity [old] has
    to hold [needed] elements; never less than [needed]. *)
Variable growcap : nat -> nat -> nat.

Definition newcap (old needed : nat) : nat := max needed (growcap old needed).

(** [append(s, xs...)]: the new header and the arrays afterwards. *)
Definition append {A : Type} (arrs : gmap loc (list A)) (s : slice)
    (xs : list A) : option (slice * gmap loc (list A)) :=
  match xs with
  | [] => Some (s, arrs)
  | _ :: _ =>
      let newLen := s_len s + length xs in
      if decide (newLen <= s_cap s) then
        match s_ptr s with
        | Some p =>
            match arrs !! p with
            | Some arr =>
                Some ({| s_ptr := Some p; s_len := newLen; s_cap := s_cap s |},
                      <[p := write_at (s_len s) xs arr]> arrs)
            | None => None
            end
        | None => None
        end
      else
        match view arrs s with
        | Some old =>
            let p := fresh (dom arrs) in
            Some ({| s_ptr := Some p; s_len := newLen;
                     s_cap := newcap (s_cap s) newLen |},
                  <[p := old ++ xs]> arrs)
        | None => None
        end
  end.

(** [cp := *e; ...; return &cp]: the copy is stored at a new address. *)
Definition publish (cp : node) (σ : store) (attrs : gmap loc (list Attr))
    (anys : gmap loc (list any)) (stks : gmap loc Stack) : loc * store :=
  let p := fresh (dom (nodes σ)) in
  (p, {| nodes := <[p := cp]> (nodes σ); attr_arrays := attrs;
         any_arrays := anys; stacks := stks |}).

(** [With]:
    [cp.fields = append(append([]slog.Attr(nil), e.fields...), argsToAttrs(args)...)].
    [None] is a run-time panic (nil or dangling receiver). *)
Definition With (args : list any) (e : loc) (σ : store) : option (loc * store) :=
  n ← nodes σ !! e;
  own ← view (attr_arrays σ) (n_fields n);
  '(s1, arrs1) ← append (attr_arrays σ) nil_slice own;
  '(s2, arrs2) ← append arrs1 s1 (argsToAttrs args);
  let cp := {| n_msg := n_msg n; n_cause := n_cause n; n_code := n_code n;
               n_fields := s2; n_stack := n_stack n; n_details := n_details n |} in
  Some (publish cp σ arrs2 (any_arrays σ) (stacks σ)).

Definition WithCode (c : Code) (e : loc) (σ : store) : option (loc * store) :=
  n ← nodes σ !! e;
  let cp := {| n_msg := n_msg n; n_cause := n_cause n; n_code := c;
               n_fields := n_fields n; n_stack := n_stack n;
               n_details := n_details n |} in
  Some (publish cp σ (attr_arrays σ) (any_arrays σ) (stacks σ)).

(** [WithDetails]:
    [cp.details = append(append([]any(nil), e.details...), details...)]. *)
Definition WithDetails (ds : list any) (e : loc) (σ : store)
  : option (loc * store) :=
  n ← nodes σ !! e;
  own ← view (any_arrays σ) (n_details n);
  '(s1, arrs1) ← append (any_arrays σ) nil_slice own;
  '(s2, arrs2) ← append arrs1 s1 ds;
  let cp := {| n_msg := n_msg n; n_cause := n_cause n; n_code := n_code n;
               n_fields := n_fields n; n_stack := n_stack n; n_details := s2 |} in
  Some (publish cp σ (attr_arrays σ) arrs2 (stacks σ)).

(** [WithStack]: [cp.stack = captureStack(2)], a newly allocated
    [Stack] holding the frames read from the runtime. *)
Definition WithStack (captured : list Frame) (e : loc) (σ : store)
  : option (loc * store) :=
  n ← nodes σ !! e;
  let sp := fresh (dom (stacks σ)) in
  let cp := {| n_msg := n_msg n; n_cause := n_cause n; n_code := n_code n;
               n_fields := n_fields n; n_stack := Some sp;
               n_details := n_details n |} in
  Some (publish cp σ (attr_arrays σ) (any_arrays σ)
          (<[sp := mkStack captured]> (stacks σ))).
End Growth.

(** What can be observed of the node at an address: its message, cause
    reference, code, and the contents of its fields, details and stack. *)
Record snapshot : Type :=
  mkSnapshot
    { o_msg : string;
      o_cause : iface;
      o_code : Code;
      o_fields : list Attr;
      o_details : list any;
      o_stack : option Stack }.

Definition observe (σ : store) (e : loc) : option snapshot :=
  n ← nodes σ !! e;
  fs ← view (attr_arrays σ) (n_fields n);
  ds ← view (any_arrays σ) (n_details n);
  stk ← match n_stack n with
        | None => Some None
        | Some sp => Some <$> stacks σ !! sp
        end;
  Some {| o_msg := n_msg n; o_cause := n_cause n; o_code := n_code n;
          o_fields := fs; o_details := ds; o_stack := stk |}.

(** The four mutators under one name. *)
Inductive mutator : Type :=
| m_With (args : list any)
| m_WithCode (c : Code)
| m_WithDetails (ds : list any)
| m_WithStack (captured : list Frame).

Definition apply (growcap : nat -> nat -> nat) (m : mutator) (e : loc) (σ : store)
  : option (loc * store) :=
  match m with
  | m_With args => With growcap args e σ
  | m_WithCode c => WithCode c e σ
  | m_WithDetails ds => WithDetails growcap ds e σ
  | m_WithStack captured => WithStack captured e σ
  end.

(** What a mutator changes in a snapshot. *)
Definition effect (m : mutator) (s : snapshot) : snapshot :=
  match m with
  | m_With args =>
      {| o_msg := o_msg s; o_cause := o_cause s; o_code := o_code s;
         o_fields := o_fields s ++ argsToAttrs args;
         o_details := o_details s; o_stack := o_stack s |}
  | m_WithCode c =>
      {| o_msg := o_msg s; o_cause := o_cause s; o_code := c;
         o_fields := o_fields s; o_details := o_details s; o_stack := o_stack s |}
  | m_WithDetails ds =>
      {| o_msg := o_msg s; o_cause := o_cause s; o_code := o_code s;
         o_fields := o_fields s; o_details := o_details s ++ ds;
         o_stack := o_stack s |}
  | m_WithStack captured =>
      {| o_msg := o_msg s; o_cause := o_cause s; o_code := o_code s;
         o_fields := o_fields s; o_details := o_details s;
         o_stack := Some (mkStack captured) |}
  end.

(** The snapshot of a value-level node whose cause is the reference [c]. *)
Definition snapshot_of (c : iface) (e : Error) : snapshot :=
  {| o_msg := msg e; o_cause := c; o_code := code e; o_fields := fields e;
     o_details := details e; o_stack := stack e |}.

(** A store with the node of [New("fail").WithDetails("a")] at address 0,
    its one detail in a backing array of capacity 4. *)
Definition sample_store : store :=
  {| nodes := {[ 0 := {| n_msg := "fail"; n_cause := i_nil; n_code := "";
                         n_fields := nil_slice; n_stack := None;
                         n_details := {| s_ptr := Some 0; s_len := 1; s_cap := 4 |} |} ]};
     attr_arrays := ∅;
     any_arrays := {[ 0 := [any_string "a"] ]};
     stacks := ∅ |}.

Definition sample_snapshot : snapshot :=
  {| o_msg := "fail"; o_cause := i_nil; o_code := ""; o_fields := [];
     o_details := [any_string "a"]; o_stack := None |}.

Definition double_capacity (old needed : nat) : nat := 2 * needed.

End Mem.

(* ===================================================================== *)
(** ** Vocabulary of the statements                                       *)
(* ===================================================================== *)

(** [errors.As(err, &c)] with [c] of interface type [Coder]: the first
    error on the chain that implements it. *)
Fixpoint errors_As_Coder (err : error) : option error :=
  match err with
  | err_Error _ => Some err
  | err_Sentinel _ => Some err
  | err_foreign _ (Some _) _ => Some err
  | err_foreign _ None (Some u) => errors_As_Coder u
  | err_foreign _ None None => None
  end.

(** [c.Code()] by dynamic type, for an error that implements [Coder]. *)
Definition Coder_Code (c : error) : Code :=
  match c with
  | err_Error e => Error_Code e
  | err_Sentinel s => s_code s
  | err_foreign _ (Some k) _ => k
  | err_foreign _ None _ => ""
  end.







(** The walk as the code performs it: every [*Error] met contributes its
    own items, a foreign error is looked through by [errors.As], and the
    walk ends where no [*Error] can be reached any more. *)
Fixpoint walk {A : Type} (proj : Error -> list A) (err : error) : list A :=
  match err with
  | err_Error e =>
      proj e ++ match cause e with Some c => walk proj c | None => [] end
  | err_Sentinel _ => []
  | err_foreign _ _ (Some u) => walk proj u
  | err_foreign _ _ None => []
  end.

Definition walk_opt {A : Type} (proj : Error -> list A) (err : option error)
  : list A :=
  match err with Some e => walk proj e | None => [] end.

(** The walk as the specification words it: it stops at the first error
    that is not a [*Error]. *)
Fixpoint walk_until_foreign {A : Type} (proj : Error -> list A) (err : error)
  : list A :=
  match err with
  | err_Error e =>
      proj e
      ++ match cause e with Some c => walk_until_foreign proj c | None => [] end
  | err_Sentinel _ => []
  | err_foreign _ _ _ => []
  end.

(** No foreign error of the chain stands in front of a [*Error]. *)
Fixpoint foreign_last (err : error) : Prop :=
  match err with
  | err_Error e => match cause e with Some c => foreign_last c | None => True end
  | err_Sentinel _ => True
  | err_foreign _ _ u =>
      match u with Some c => errors_As_Error c = None | None => True end
  end.

(** The codes whose HTTP status maps back to them. *)
Definition http_canonical_codes : list Code :=
  [ InvalidArgument; Unauthenticated; PermissionDenied; NotFound;
    AlreadyExists; FailedPrecondition; ResourceExhausted; Canceled;
    Internal; Unimplemented; Unavailable; DeadlineExceeded ].

(** Sample values used in the examples. *)
Definition k1 : Attr := slog_Any "key1" (any_string "val1").
Definition k2 : Attr := slog_Any "key2" (any_string "val2").

Definition inner_node : Error :=
  WithDetails (New "inner" [any_Attr k2]) [any_string "inner_detail"].

Definition behind_foreign : Error :=
  WithDetails
    {| msg := "outer"; cause := Some (err_foreign "wrapped: inner" None
                                        (Some (err_Error inner_node)));
       code := ""; fields := [k1]; stack := None; details := [] |}
    [any_string "outer_detail"].

Definition user_not_found : Error := WithCode (New "user not found" []) NotFound.

Definition bad_email : Error :=
  WithDetails (WithCode (New "bad request" []) InvalidArgument)
    [FieldViolation "email" "invalid"].

(** A codec for the examples: it packs and unpacks the opaque messages
    and the localized message, and fails on the others. *)
Definition sample_codec : AnyCodec :=
  {| anypb_New := fun m =>
       match m with
       | pb_other n payload => Some (mkAny n payload)
       | pb_LocalizedMessage l t =>
           Some (mkAny "google.rpc.LocalizedMessage" (l +:+ ":" +:+ t))
       | _ => None
       end;
     Any_UnmarshalNew := fun a =>
       if decide (type_url a = "") then inr "empty type URL"%string
       else inl (pb_other (type_url a) (any_value a)) |}.

(** A problem detail that carries one BadRequest entry. *)
Definition bad_email_problem : herr.ProblemDetail :=
  {| herr.pd_Type := "about:blank"; herr.pd_Title := "Bad Request";
     herr.pd_Status := 400; herr.pd_Detail := "bad request";
     herr.pd_Instance := ""; herr.pd_Code := "invalid_argument";
     herr.pd_Errors :=
       [ list_to_map
           [ ("type"%string, herr.j_string "BadRequest");
             ("violations"%string,
              herr.j_objects
                [ list_to_map
                    [ ("field"%string, herr.j_string "email");
                      ("description"%string, herr.j_string "invalid") ] ]) ] ];
     herr.pd_LocalizedMessage := None |}.

(** The [float32] values 1.0, 0.9 and 0.8. *)
Definition f32_1_0 : spec_float := S754_finite false 8388608 (-23).
Definition f32_0_9 : spec_float := S754_finite false 15099494 (-24).


(* ===================================================================== *)
(** ** Package errx: stack.go                                             *)
(* ===================================================================== *)

(** [StackOf]: the loop of [Fields], returning at the first node that has a
    stack.  The outer [None] is fuel running out. *)
Fixpoint StackOf_loop (fuel : nat) (err : option error) : option (option Stack) :=
  match err with
  | None => Some None
  | Some er =>
      match fuel with
      | O => None
      | S fuel' =>
          match errors_As_Error er with
          | Some ex =>
              match stack ex with
              | Some s => Some (Some s)
              | None => StackOf_loop fuel' (cause ex)
              end
          | None => Some None
          end
      end
  end.

Definition StackOf (err : option error) : option Stack :=
  default None (StackOf_loop (depth_opt err) err).

(** [Frames] of a stack pointer: nil for a nil stack, otherwise a copy of
    the frames. *)
Definition Frames (s : option Stack) : list Frame :=
  match s with
  | None => []
  | Some st => frames st
  end.

Definition zero_Frame : Frame := {| Function := ""; File := ""; Line := 0 |}.

(** The loop of [captureStack] over the frame iterator: [Next] returns a
    frame and whether more follow (on an exhausted iterator, the zero frame
    and false); frames of functions named runtime.* are skipped. *)
Fixpoint captureStack_loop (rframes : list Frame) (acc : list Frame) : list Frame :=
  match rframes with
  | [] =>
      if String.prefix "runtime." (Function zero_Frame) then acc
      else acc ++ [zero_Frame]
  | f :: rest =>
      match rest with
      | [] =>
          if String.prefix "runtime." (Function f) then acc else acc ++ [f]
      | _ :: _ =>
          if String.prefix "runtime." (Function f) then captureStack_loop rest acc
          else captureStack_loop rest (acc ++ [f])
      end
  end.

(** [captureStack]; [rframes] is what [runtime.CallersFrames] yields for
    the program counters that [runtime.Callers] returned (none when it
    returned 0). *)
Definition captureStack (rframes : list Frame) : Stack :=
  match rframes with
  | [] => {| frames := [] |}
  | _ :: _ => {| frames := captureStack_loop rframes [] |}
  end.

(* ===================================================================== *)
(** ** Package errx: slog.go                                              *)
(* ===================================================================== *)

(** [slog.Value] as these functions build it: the zero value, a plain
    value, or a group of attributes. *)
Inductive slog_Value : Type :=
| sv_zero
| sv_any (v : any)
| sv_group (attrs : list (string * slog_Value)).

Definition slog_Attr : Type := (string * slog_Value)%type.

Definition isEmptyGroup (v : slog_Value) : bool :=
  match v with
  | sv_group [] => true
  | _ => false
  end.

(** [slog.GroupValue] removes the attributes whose value is an empty
    group. *)
Definition slog_GroupValue (attrs : list slog_Attr) : slog_Value :=
  sv_group (filter (fun a => negb (isEmptyGroup a.2)) attrs).

Definition slog_Group (key : string) (attrs : list slog_Attr) : slog_Attr :=
  (key, slog_GroupValue attrs).

Section Logging.
(** Which of the values that this development does not look into are
    held by [slog] as a group, with the attributes of the group: a
    [[]slog.Attr] given to [slog.Any], or the value of an attribute made
    by [slog.Group]. *)
Variable group_of : nat -> option (list slog_Attr).

(** [slog.AnyValue]: the [slog.Value] that holds a Go value. *)
Definition slog_AnyValue (v : any) : slog_Value :=
  match v with
  | any_other tag =>
      match group_of tag with
      | Some attrs => slog_GroupValue attrs
      | None => sv_any v
      end
  | _ => sv_any v
  end.

(** An attribute of the error chain as an attribute of the log record. *)
Definition log_attr (a : Attr) : slog_Attr := (Key a, slog_AnyValue (Value a)).

Definition caller_attrs (s : option Stack) : list slog_Attr :=
  match s with
  | Some _ =>
      match Frames s with
      | f :: _ =>
          [ slog_Group "caller"
              [ ("function"%string, sv_any (any_string (Function f)));
                ("file"%string, sv_any (any_string (File f)));
                ("line"%string, sv_any (any_int (Line f))) ] ]
      | [] => []
      end
  | None => []
  end.

Definition LogValue (e : Error) : slog_Value :=
  let attrs := [ ("msg"%string, sv_any (any_string (Error_Error e))) ] in
  let attrs :=
    if decide (Error_Code e = "") then attrs
    else attrs ++ [ ("code"%string, sv_any (any_string (Error_Code e))) ] in
  let attrs := attrs ++ map log_attr (Fields (Some (err_Error e))) in
  let attrs := attrs ++ caller_attrs (StackOf (Some (err_Error e))) in
  slog_GroupValue attrs.

Definition SlogAttr (err : option error) : slog_Attr :=
  match err with
  | None => (""%string, sv_zero)
  | Some er =>
      let attrs := [ ("msg"%string, sv_any (any_string (error_Error er))) ] in
      let attrs :=
        if decide (CodeOf err = "") then attrs
        else attrs ++ [ ("code"%string, sv_any (any_string (CodeOf err))) ] in
      let attrs := attrs ++ map log_attr (Fields err) in
      let attrs := attrs ++ caller_attrs (StackOf err) in
      ("error"%string, slog_GroupValue attrs)
  end.
End Logging.

(* ===================================================================== *)
(** ** Localizable errors                                                 *)
(* ===================================================================== *)

(** [errx.Localizable] is implemented by errors of other packages.
    [foreign_Localize] gives, for a foreign error, its [Localize] method
    when it has one. *)
Class Localizables : Type :=
  { foreign_Localize : error -> option (string -> string) }.

(** [errors.As(err, &l)] with [l] of interface type [Localizable]; neither
    [*Error] nor [*SentinelError] implements it. *)
Fixpoint errors_As_Localizable `{Localizables} (err : error)
  : option (string -> string) :=
  match err with
  | err_Error e =>
      match cause e with
      | Some c => errors_As_Localizable c
      | None => None
      end
  | err_Sentinel _ => None
  | err_foreign _ _ u =>
      match foreign_Localize err with
      | Some l => Some l
      | None =>
          match u with
          | Some c => errors_As_Localizable c
          | None => None
          end
      end
  end.

(* ===================================================================== *)
(** ** Package gerr: interceptor.go, details.go                           *)
(* ===================================================================== *)

Module gerr_interceptor.

Definition LocalizedMessage (locale message : string) : ProtoMessage :=
  pb_LocalizedMessage locale message.

(** [Err] of a status: nil for OK, otherwise an error holding the
    status. *)
Definition Status_Err (s : gerr.Status) : option gerr.Status :=
  if decide (gerr.st_code s = gerr.OK) then None else Some s.

Section Interceptor.
Context `{AnyCodec} `{Localizables}.
(** [language.Tag] with its undetermined tag [language.Und], and the
    request context. *)
Context {Tag : Type} `{EqDecision Tag}.
Variable Und : Tag.
Variable Tag_String : Tag -> string.
Variable Ctx : Type.

Record interceptorConfig : Type :=
  mkConfig { localeFunc : Ctx -> string; defaultLocale : Tag }.

Definition InterceptorOption : Type := interceptorConfig -> interceptorConfig.

(** [WithLocaleFunc]; a nil function is ignored. *)
Definition WithLocaleFunc (f : option (Ctx -> string)) : InterceptorOption :=
  fun cfg =>
    match f with
    | None => cfg
    | Some g => {| localeFunc := g; defaultLocale := defaultLocale cfg |}
    end.

Definition WithDefaultLocale (tag : Tag) : InterceptorOption :=
  fun cfg => {| localeFunc := localeFunc cfg; defaultLocale := tag |}.

(** [newInterceptorConfig]; the first argument is the package's
    [defaultLocaleFunc]. *)
Definition newInterceptorConfig (defaultLocaleFunc : Ctx -> string)
    (opts : list InterceptorOption) : interceptorConfig :=
  fold_left (fun cfg (o : InterceptorOption) => o cfg) opts
    {| localeFunc := defaultLocaleFunc; defaultLocale := Und |}.

Definition appendLocalizedDetail (ctx : Ctx) (err : option error)
    (localeFunc : Ctx -> string) (defaultLocale : Tag) : option error :=
  match err with
  | None => None
  | Some er =>
      match errors_As_Localizable er with
      | None => err
      | Some l =>
          let locale := localeFunc ctx in
          let locale :=
            if decide (locale = "" /\ defaultLocale <> Und)
            then Tag_String defaultLocale else locale in
          if decide (locale = "") then err
          else
            let msg := l locale in
            if decide (msg = "") then err
            else
              match errors_As_Error er with
              | Some ex =>
                  Some (err_Error
                          (WithDetails ex [any_proto (LocalizedMessage locale msg)]))
              | None =>
                  (fun w => err_Error
                              (WithDetails w [any_proto (LocalizedMessage locale msg)]))
                    <$> Wrap err []
              end
      end
  end.

(** [toStatusError]: the status carried by the returned error, nil when
    none. *)
Definition toStatusError (cfg : interceptorConfig) (ctx : Ctx) (err : option error)
  : option gerr.Status :=
  let err := appendLocalizedDetail ctx err (localeFunc cfg) (defaultLocale cfg) in
  Status_Err (gerr.ToStatus err).

(** [UnaryServerInterceptor]: the response and the error it returns for
    what the handler returns. *)
Definition UnaryServerInterceptor {Req Resp : Type} (cfg : interceptorConfig)
    (ctx : Ctx) (req : Req) (handler : Ctx -> Req -> option Resp * option error)
  : option Resp * option gerr.Status :=
  let '(resp, err) := handler ctx req in
  match err with
  | Some _ => (None, toStatusError cfg ctx err)
  | None => (resp, None)
  end.

(** [StreamServerInterceptor]; [ss_ctx] is the context of the stream. *)
Definition StreamServerInterceptor {Srv Stream : Type} (cfg : interceptorConfig)
    (ss_ctx : Stream -> Ctx) (srv : Srv) (ss : Stream)
    (handler : Srv -> Stream -> option error) : option gerr.Status :=
  let err := handler srv ss in
  match err with
  | Some _ => toStatusError cfg (ss_ctx ss) err
  | None => None
  end.
End Interceptor.

End gerr_interceptor.

(* ===================================================================== *)
(** ** Package cerr: interceptor.go                                       *)
(* ===================================================================== *)

Module cerr_interceptor.
Section Interceptor.
Context `{AnyCodec} `{Localizables}.
Context {Tag : Type} `{EqDecision Tag}.
Variable Und : Tag.
Variable Tag_String : Tag -> string.
(** [http.Header] *)
Variable Header : Type.

Definition appendLocalizedDetail (header : Header) (err : option error)
    (localeFunc : Header -> string) (defaultLocale : Tag) : option error :=
  match err with
  | None => None
  | Some er =>
      match errors_As_Localizable er with
      | None => err
      | Some l =>
          let locale := localeFunc header in
          let locale :=
            if decide (locale = "" /\ defaultLocale <> Und)
            then Tag_String defaultLocale else locale in
          if decide (locale = "") then err
          else
            let msg := l locale in
            if decide (msg = "") then err
            else
              match errors_As_Error er with
              | Some ex =>
                  Some (err_Error
                          (WithDetails ex [any_proto (pb_LocalizedMessage locale msg)]))
              | None =>
                  (fun w => err_Error
                              (WithDetails w [any_proto (pb_LocalizedMessage locale msg)]))
                    <$> Wrap err []
              end
      end
  end.

(** [toConnectError] of the interceptor configuration. *)
Definition toConnectError (localeFunc : Header -> string) (defaultLocale : Tag)
    (header : Header) (err : option error) : option cerr.ConnectError :=
  let err := appendLocalizedDetail header err localeFunc defaultLocale in
  cerr.ToConnectError err.

(** [WrapUnary]: the response and error returned for what [next]
    returns. *)
Definition WrapUnary {Req Resp : Type} (localeFunc : Header -> string)
    (defaultLocale : Tag) (req_Header : Req -> Header)
    (next : Req -> option Resp * option error) (req : Req)
  : option Resp * option cerr.ConnectError :=
  let '(resp, err) := next req in
  match err with
  | Some _ => (None, toConnectError localeFunc defaultLocale (req_Header req) err)
  | None => (resp, None)
  end.

(** [WrapStreamingClient] returns [next]. *)
Definition WrapStreamingClient {F : Type} (next : F) : F := next.

(** [WrapStreamingHandler]: the error returned for what [next] returns. *)
Definition WrapStreamingHandler {Conn : Type} (localeFunc : Header -> string)
    (defaultLocale : Tag) (conn_RequestHeader : Conn -> Header)
    (next : Conn -> option error) (conn : Conn) : option cerr.ConnectError :=
  let err := next conn in
  match err with
  | Some _ => toConnectError localeFunc defaultLocale (conn_RequestHeader conn) err
  | None => None
  end.
End Interceptor.
End cerr_interceptor.

(* ===================================================================== *)
(** ** Package herr: middleware.go                                        *)
(* ===================================================================== *)

Module herr_middleware.
Section Middleware.
Context `{Localizables}.
Variable json_Marshal : option herr.ProblemDetail -> option string.
(** [http.Header] of the request. *)
Variable Header : Type.

Record middlewareConfig : Type := mkConfig { localeFunc : Header -> string }.

Definition MiddlewareOption : Type := middlewareConfig -> middlewareConfig.

Definition WithLocaleFunc (f : option (Header -> string)) : MiddlewareOption :=
  fun cfg =>
    match f with
    | None => cfg
    | Some g => {| localeFunc := g |}
    end.

Definition newMiddlewareConfig (defaultLocaleFunc : Header -> string)
    (opts : list MiddlewareOption) : middlewareConfig :=
  fold_left (fun cfg (o : MiddlewareOption) => o cfg) opts
    {| localeFunc := defaultLocaleFunc |}.



End Middleware.
End herr_middleware.

(* ===================================================================== *)
(** ** Vocabulary of the further statements                               *)
(* ===================================================================== *)

(** A well-formed logging argument: an attribute, or a key followed by its
    value. *)
Inductive log_arg : Type :=
| arg_attr (a : Attr)
| arg_pair (k : string) (v : any).

Definition encode_arg (x : log_arg) : list any :=
  match x with
  | arg_attr a => [any_Attr a]
  | arg_pair k v => [any_string k; v]
  end.

Definition encode_args (xs : list log_arg) : list any :=
  concat (map encode_arg xs).

Definition attr_of_arg (x : log_arg) : Attr :=
  match x with
  | arg_attr a => a
  | arg_pair k v => slog_Any k v
  end.

(** [Wrap] applied [length argss] times, the head of [argss] last. *)
Fixpoint wrap_all (argss : list (list any)) (err : option error) : option error :=
  match argss with
  | [] => err
  | args :: rest => err_Error <$> Wrap (wrap_all rest err) args
  end.

(** The first stack on the walk of the chain. *)
Fixpoint first_stack (err : error) : option Stack :=
  match err with
  | err_Error e =>
      match stack e with
      | Some s => Some s
      | None => match cause e with Some c => first_stack c | None => None end
      end
  | err_Sentinel _ => None
  | err_foreign _ _ (Some u) => first_stack u
  | err_foreign _ _ None => None
  end.

Definition is_runtime (f : Frame) : bool := String.prefix "runtime." (Function f).

(** The options of the package, as data. *)
Inductive std_option : Type :=
| opt_instance (instance : string)
| opt_type (typeURI : string).

Definition to_option (o : std_option) : herr.ProblemDetailOption :=
  match o with
  | opt_instance i => herr.WithInstance i
  | opt_type t => herr.WithType t
  end.

(** The instance and the type that a list of options leaves, starting from
    the given ones: the last option of each kind decides. *)
Definition last_instance (os : list std_option) (start : string) : string :=
  fold_left (fun acc o => match o with opt_instance i => i | opt_type _ => acc end)
    os start.

Definition last_type (os : list std_option) (start : string) : string :=
  fold_left (fun acc o => match o with opt_type t => t | opt_instance _ => acc end)
    os start.

(** The detail kinds of details.go. *)
Definition is_canonical (d : any) : bool :=
  match d with
  | any_BadRequestDetail _ | any_PreconditionFailureDetail _
  | any_ResourceInfoDetail _ | any_ErrorInfoDetail _ => true
  | _ => false
  end.

Definition is_proto (d : any) : bool :=
  match d with
  | any_proto _ => true
  | _ => false
  end.

Definition detail_types : list string :=
  [ "BadRequest"; "PreconditionFailure"; "ResourceInfo"; "ErrorInfo" ]%string.

(** The codec unpacks what it packed. *)
Definition codec_round_trips `{AnyCodec} : Prop :=
  forall (m : ProtoMessage) (a : Any), anypb_New m = Some a -> Any_UnmarshalNew a = inl m.

(** A codec that packs the opaque messages with a non-empty name and
    unpacks them again. *)
Definition opaque_codec : AnyCodec :=
  {| anypb_New := fun m =>
       match m with
       | pb_other n payload =>
           if decide (n = "") then None else Some (mkAny n payload)
       | _ => None
       end;
     Any_UnmarshalNew := fun a =>
       if decide (type_url a = "") then inr "empty type URL"%string
       else inl (pb_other (type_url a) (any_value a)) |}.

Definition quota_error : Error :=
  WithDetails (WithCode (New "quota exceeded" []) ResourceExhausted)
    [any_proto (pb_other "example.Quota" "limit=100")].

(** A sample of localizable errors: the foreign error with the message
    email is invalid has a Japanese and an English message. *)
Definition sample_localizables : Localizables :=
  {| foreign_Localize := fun err =>
       match err with
       | err_foreign m _ _ =>
           if decide (m = "email is invalid") then
             Some (fun locale : string =>
                     if decide (locale = "ja") then "meeru ga mukou desu"%string
                     else "email is invalid"%string)
           else None
       | _ => None
       end |}.

Definition validation_error : error := err_foreign "email is invalid" None None.

(** [fmt.Errorf] with a wrapping verb around
    [errx.Wrap(validationErr).WithCode(InvalidArgument)]. *)
Definition wrapped_validation : error :=
  err_foreign "handler: email is invalid" None
    (Some (err_Error
             {| msg := ""; cause := Some validation_error; code := InvalidArgument;
                fields := []; stack := None; details := [] |})).

(** The locale an interceptor uses: that of the locale function, or the
    default locale when that is empty and a default is set. *)
Definition resolved_locale {Tag : Type} `{EqDecision Tag} (Und : Tag)
    (Tag_String : Tag -> string) (found : string) (defaultLocale : Tag) : string :=
  if decide (found = "") then
    if decide (defaultLocale = Und) then ""%string else Tag_String defaultLocale
  else found.

(** The interceptor options of the package, as data. *)
Inductive interceptor_option (Ctx Tag : Type) : Type :=
| io_locale (f : option (Ctx -> string))
| io_default (tag : Tag).
Arguments io_locale {Ctx Tag} f.
Arguments io_default {Ctx Tag} tag.

Definition to_interceptor_option {Ctx Tag : Type} (o : interceptor_option Ctx Tag)
  : gerr_interceptor.InterceptorOption Ctx :=
  match o with
  | io_locale f => gerr_interceptor.WithLocaleFunc Ctx f
  | io_default tag => gerr_interceptor.WithDefaultLocale Ctx tag
  end.

Definition sets_locale {Ctx Tag : Type} (o : interceptor_option Ctx Tag) : bool :=
  match o with io_locale (Some _) => true | _ => false end.

Definition sets_default {Ctx Tag : Type} (o : interceptor_option Ctx Tag) : bool :=
  match o with io_default _ => true | _ => false end.

(** An error in front of whose first [*Error] no other error stands: a
    [*Error] itself, or an error with no [*Error] in its chain. *)
Definition no_wrapper_in_front (err : error) : Prop :=
  (exists e : Error, err = err_Error e) \/ errors_As_Error err = None.

(** A chain of mutator calls, [e.M1(...).M2(...)...], in memory. *)
Fixpoint apply_all (growcap : nat -> nat -> nat) (ms : list Mem.mutator)
    (e : Mem.loc) (σ : Mem.store) : option (Mem.loc * Mem.store) :=
  match ms with
  | [] => Some (e, σ)
  | m :: rest =>
      match Mem.apply growcap m e σ with
      | Some (e1, σ1) => apply_all growcap rest e1 σ1
      | None => None
      end
  end.

(** The value-level mutator of the same name. *)
Definition value_effect (m : Mem.mutator) (e : Error) : Error :=
  match m with
  | Mem.m_With args => With e args
  | Mem.m_WithCode c => WithCode e c
  | Mem.m_WithDetails ds => WithDetails e ds
  | Mem.m_WithStack captured => WithStack captured e
  end.

(** A parser result whose first weight is not a number. *)
Definition nan_parser (s : string) : list string * list spec_float * option string :=
  (["de"; "fr"; "en"]%string, [S754_nan; f32_1_0; f32_0_9], None).

(** A sample of group values: the value numbered 0 is an empty group, as
    the value of [slog.Group("g")] is. *)
Definition sample_groups (tag : nat) : option (list slog_Attr) :=
  if decide (tag = 0) then Some [] else None.

(* ===================================================================== *)
(** * Properties                                                          *)
(* ===================================================================== *)

(** ** The error chain *)

(** Induction over a chain, with the hypothesis for the cause. *)
Lemma error_chain_ind (P : error -> Prop) :
  (forall e : Error, (forall c, cause e = Some c -> P c) -> P (err_Error e)) ->
  (forall s, P (err_Sentinel s)) ->
  (forall m oc u, (forall c, u = Some c -> P c) -> P (err_foreign m oc u)) ->
  forall err, P err.
Proof.
  intros HE HS HF.
  fix IH 1.
  intros [e | s | m oc u].
  - apply HE. destruct e as [m [c|] k fs st ds]; simpl.
    + intros c' Hc. injection Hc as <-. apply IH.
    + intros c' Hc. discriminate Hc.
  - apply HS.
  - apply HF. destruct u as [c|].
    + intros c' Hc. injection Hc as <-. apply IH.
    + intros c' Hc. discriminate Hc.
Qed.

Lemma CodeOf_error_Error (e : Error) : CodeOf_error (err_Error e) = Error_Code e.
Proof.
  unfold Error_Code, CodeOf. simpl.
  destruct (decide (code e = "")); [destruct (cause e)|]; reflexivity.
Qed.

(** [CodeOf] is [errors.As] on [Coder] followed by the method call. *)
Lemma CodeOf_errors_As (err : error) :
  CodeOf (Some err)
  = match errors_As_Coder err with Some c => Coder_Code c | None => "" end.
Proof.
  induction err as [e IH | s | m oc u IH] using error_chain_ind.
  - simpl errors_As_Coder. simpl Coder_Code. apply CodeOf_error_Error.
  - reflexivity.
  - destruct oc as [k|]; [reflexivity|].
    destruct u as [c|]; [|reflexivity].
    simpl. apply (IH c eq_refl).
Qed.





(** What [errors.As] finds, in terms of the walk. *)
Lemma errors_As_Error_walk {A : Type} (proj : Error -> list A) (err : error) :
  match errors_As_Error err with
  | Some ex =>
      walk proj err = proj ex ++ walk_opt proj (cause ex)
      /\ depth_opt (cause ex) < depth err
  | None => walk proj err = []
  end.
Proof.
  induction err as [e IH | s | m oc u IH] using error_chain_ind; simpl.
  - split; [|destruct (cause e); simpl; lia].
    destruct (cause e); reflexivity.
  - reflexivity.
  - destruct u as [c|]; [|reflexivity].
    specialize (IH c eq_refl).
    destruct (errors_As_Error c) as [ex|]; [|exact IH].
    destruct IH as [Hw Hd]. split; [exact Hw | lia].
Qed.

(** The loop ends within [depth] iterations and returns the walk. *)
Lemma collect_loop_walk {A : Type} (proj : Error -> list A) (fuel : nat) :
  forall (err : option error) (acc : list A),
    depth_opt err <= fuel ->
    collect_loop proj fuel err acc = Some (acc ++ walk_opt proj err).
Proof.
  induction fuel as [|fuel IH]; intros [er|] acc Hfuel; simpl.
  - destruct er; simpl in Hfuel; lia.
  - rewrite app_nil_r. reflexivity.
  - pose proof (errors_As_Error_walk proj er) as Has.
    destruct (errors_As_Error er) as [ex|].
    + destruct Has as [Hw Hd]. rewrite IH by (simpl in Hfuel; lia).
      rewrite Hw, app_assoc. reflexivity.
    + rewrite Has, app_nil_r. reflexivity.
  - rewrite app_nil_r. reflexivity.
Qed.

Lemma walk_foreign_last {A : Type} (proj : Error -> list A) (err : error) :
  foreign_last err -> walk proj err = walk_until_foreign proj err.
Proof.
  induction err as [e IH | s | m oc u IH] using error_chain_ind; simpl.
  - intros Hl. destruct (cause e) as [c|]; [|reflexivity].
    rewrite (IH c eq_refl Hl). reflexivity.
  - reflexivity.
  - destruct u as [c|]; [|reflexivity].
    intros Hnone. pose proof (errors_As_Error_walk proj c) as Has.
    rewrite Hnone in Has. exact Has.
Qed.

(** C6 as stated fails: the fields and details of a node that sits behind
    a foreign error which unwraps to it are collected. *)
Lemma Fields_behind_foreign :
  ~ (Fields (Some (err_Error behind_foreign))
       = walk_until_foreign fields (err_Error behind_foreign)
     /\ DetailsOf (Some (err_Error behind_foreign))
       = walk_until_foreign details (err_Error behind_foreign)).
Proof.
  intros [Hf _]. vm_compute in Hf. discriminate Hf.
Qed.

Lemma Fields_DetailsOf_walk_opt (err : option error) :
  Fields err = walk_opt fields err /\ DetailsOf err = walk_opt details err.
Proof.
  unfold Fields, DetailsOf.
  rewrite !collect_loop_walk by lia. simpl. split; reflexivity.
Qed.

(** C6, amended.  [Fields] and [DetailsOf] return the concatenation, from
    the outermost node inwards, of the own fields and details of every
    [*Error] node reached; a foreign error that exposes a cause through
    [Unwrap] is looked through and contributes nothing, and the walk ends at
    the first error from which no [*Error] can be reached (a sentinel, or
    a foreign error with no [*Error] behind it).  Where no foreign error
    stands in front of a [*Error], that is the walk that stops at the first
    foreign error. *)
Theorem Fields_DetailsOf_walk :
  (forall err : option error,
      Fields err = walk_opt fields err /\ DetailsOf err = walk_opt details err) /\
  (forall err : error,
      foreign_last err ->
      Fields (Some err) = walk_until_foreign fields err
      /\ DetailsOf (Some err) = walk_until_foreign details err).
Proof.
  split; [exact Fields_DetailsOf_walk_opt|].
  intros err Hl. destruct (Fields_DetailsOf_walk_opt (Some err)) as [Hf Hd].
  rewrite Hf, Hd. simpl. rewrite !walk_foreign_last by exact Hl.
  split; reflexivity.
Qed.

Lemma Fields_DetailsOf_walk_witness :
  Fields (Some (err_Error behind_foreign)) = [k1; k2]
  /\ DetailsOf (Some (err_Error inner_node)) = [any_string "inner_detail"].
Proof.
  destruct Fields_DetailsOf_walk as [Hwalk Hlast]. split.
  - rewrite (proj1 (Hwalk (Some (err_Error behind_foreign)))). reflexivity.
  - rewrite (proj2 (Hlast (err_Error inner_node) I)). reflexivity.
Defined.

(** ** The code tables *)

(** C2 as stated fails: [out_of_range] maps to 400, and 400 maps back to
    [invalid_argument]. *)
Lemma http_round_trip_not_identity :
  ~ Forall (fun c => herr.ToErrxCode herr.init (herr.ToHTTPStatus herr.init c) = c)
      well_known_codes.
Proof.
  intros Hall. rewrite Forall_forall in Hall.
  specialize (Hall OutOfRange). vm_compute in Hall.
  assert (Hin : OutOfRange ∈ well_known_codes).
  { apply list_elem_of_In. simpl. do 10 right. left. reflexivity. }
  specialize (Hall Hin). discriminate Hall.
Qed.

Lemma lookup_list_to_map_absent {K V : Type} `{Countable K} (l : list (K * V)) (k : K) :
  Forall (fun kv => kv.1 <> k) l -> (list_to_map l : gmap K V) !! k = None.
Proof.
  intros Hall. apply not_elem_of_list_to_map_1.
  rewrite list_elem_of_fmap. intros [[k' v] [-> Hin]].
  rewrite Forall_forall in Hall. exact (Hall _ Hin eq_refl).
Qed.

(** C2, amended.  On the built-in tables the HTTP status round trip is the
    identity for the twelve codes that the reverse table names
    (invalid_argument, unauthenticated, permission_denied, not_found,
    already_exists, failed_precondition, resource_exhausted, canceled via
    499, internal, unimplemented, unavailable, deadline_exceeded); the four
    codes that share a status come back as the code the reverse table keeps
    for it (out_of_range as invalid_argument, aborted as already_exists,
    unknown and data_loss as internal).  Every reverse entry inverts a
    forward entry, and a status with no reverse entry maps to unknown. *)
Theorem http_round_trip :
  Forall (fun c => herr.ToErrxCode herr.init (herr.ToHTTPStatus herr.init c) = c)
    http_canonical_codes /\
  herr.ToErrxCode herr.init (herr.ToHTTPStatus herr.init OutOfRange) = InvalidArgument /\
  herr.ToErrxCode herr.init (herr.ToHTTPStatus herr.init Aborted) = AlreadyExists /\
  herr.ToErrxCode herr.init (herr.ToHTTPStatus herr.init Unknown) = Internal /\
  herr.ToErrxCode herr.init (herr.ToHTTPStatus herr.init DataLoss) = Internal /\
  map_Forall (fun s c => herr.errxToHTTP herr.init !! c = Some s)
    (herr.httpToErrx herr.init) /\
  (forall s : Z, herr.httpToErrx herr.init !! s = None ->
                 herr.ToErrxCode herr.init s = Unknown).
Proof.
  split; [|split; [|split; [|split; [|split; [|split]]]]];
    try (vm_compute; reflexivity).
  - unfold http_canonical_codes. repeat constructor.
  - apply map_Forall_to_list. vm_compute. repeat constructor.
  - intros s Hs. unfold herr.ToErrxCode. rewrite Hs. reflexivity.
Qed.

(** C10.  On the gRPC and Connect reverse mappings the OK / zero status
    code maps to the empty code, while every status code that has no entry
    in the reverse table (every code above 16) maps to unknown. *)
Theorem OK_maps_to_empty :
  gerr.ToErrxCode gerr.OK = "" /\
  cerr.ToErrxCode 0%N = "" /\
  (forall c : gerr.codes_Code,
      gerr.grpcToErrx !! c = None -> gerr.ToErrxCode c = Unknown) /\
  (forall c : cerr.connect_Code,
      cerr.connectToErrx !! c = None -> cerr.ToErrxCode c = Unknown) /\
  (forall c : N, (16 < c)%N ->
      gerr.grpcToErrx !! c = None /\ cerr.connectToErrx !! c = None) /\
  "" <> Unknown.
Proof.
  split; [reflexivity|]. split; [reflexivity|].
  split; [|split; [|split]].
  - intros c Hc. unfold gerr.ToErrxCode. rewrite Hc. reflexivity.
  - intros c Hc. unfold cerr.ToErrxCode. rewrite Hc. reflexivity.
  - intros c Hc. split; apply lookup_list_to_map_absent;
      repeat constructor; simpl; vm_compute; intros <-; vm_compute in Hc; discriminate Hc.
  - discriminate.
Qed.

Lemma OK_maps_to_empty_witness :
  gerr.ToErrxCode 17%N = Unknown /\ cerr.ToErrxCode 17%N = Unknown.
Proof.
  destruct OK_maps_to_empty as (_ & _ & Hg & Hc & Habsent & _).
  destruct (Habsent 17%N eq_refl) as [H1 H2].
  split; [apply (Hg 17%N H1) | apply (Hc 17%N H2)].
Defined.

(** ** Nil errors *)

(** C8.  A nil error is a no-op everywhere: [Wrap] and [Wrapf] of nil are
    nil; [ToProblemDetail] and [ToConnectError] of nil are nil; [ToStatus]
    of nil is the OK status with an empty message; [WriteError] with a nil
    error leaves the response writer as it was (no header, no status, no
    body written). *)
Theorem nil_error_is_noop :
  (forall args : list any, Wrap None args = None) /\
  (forall (sprintf : string -> list any -> string) (format : string)
          (fmtArgs : list any),
      Wrapf sprintf None format fmtArgs = None) /\
  (forall (tb : herr.tables) (opts : list herr.ProblemDetailOption),
      herr.ToProblemDetail tb None opts = None) /\
  (forall codec : AnyCodec, @cerr.ToConnectError codec None = None) /\
  (forall codec : AnyCodec,
      @gerr.ToStatus codec None
      = {| gerr.st_code := gerr.OK; gerr.st_message := ""; gerr.st_details := [] |}) /\
  (forall (marshal : option herr.ProblemDetail -> option string)
          (tb : herr.tables) (opts : list herr.ProblemDetailOption)
          (w : herr.ResponseWriter),
      herr.WriteError marshal tb None opts w = Some w).
Proof. repeat split. Qed.

(** ** Problem details *)

(** C5.  [ToProblemDetail] of [New("user not found").WithCode(NotFound)]
    with no options is exactly type about:blank, title Not Found, status
    404, detail user not found, code not_found.  For every non-nil error
    (and whatever codes have been registered) the title is the reason
    phrase of the mapped status, or the code string when the status has
    none (a canceled error, status 499, has title canceled); the detail is
    the rendered message; the code member is unknown when the resolved code
    is empty. *)
Theorem ToProblemDetail_members :
  herr.ToProblemDetail herr.init (Some (err_Error user_not_found)) []
  = Some {| herr.pd_Type := "about:blank"; herr.pd_Title := "Not Found";
            herr.pd_Status := 404; herr.pd_Detail := "user not found";
            herr.pd_Instance := ""; herr.pd_Code := "not_found";
            herr.pd_Errors := []; herr.pd_LocalizedMessage := None |} /\
  (forall (tb : herr.tables) (err : error),
      exists p : herr.ProblemDetail,
        herr.ToProblemDetail tb (Some err) [] = Some p
        /\ herr.pd_Type p = "about:blank"
        /\ herr.pd_Status p = herr.ToHTTPStatus tb (CodeOf (Some err))
        /\ herr.pd_Code p
           = (if decide (CodeOf (Some err) = "") then "unknown"%string
              else CodeOf (Some err))
        /\ herr.pd_Title p
           = (if decide (herr.http_StatusText (herr.pd_Status p) = "")
              then herr.pd_Code p
              else herr.http_StatusText (herr.pd_Status p))
        /\ herr.pd_Detail p = error_Error err) /\
  (forall (m : string) (args : list any),
      exists p : herr.ProblemDetail,
        herr.ToProblemDetail herr.init
          (Some (err_Error (WithCode (New m args) Canceled))) [] = Some p
        /\ herr.pd_Status p = 499%Z
        /\ herr.pd_Title p = "canceled").
Proof.
  split; [vm_compute; reflexivity|]. split.
  - intros tb err. eexists. split; [reflexivity|]. simpl. repeat split.
  - intros m args. eexists. split; [reflexivity|]. split; reflexivity.
Qed.

(** ** Round trips *)

Lemma fold_left_invariant {A B : Type} (P : A -> Prop) (f : A -> B -> A)
    (l : list B) (a : A) :
  P a -> (forall a b, P a -> P (f a b)) -> P (fold_left f l a).
Proof.
  intros Ha Hstep. revert a Ha.
  induction l as [|b l IH]; intros a Ha; simpl; [exact Ha|].
  apply IH, Hstep, Ha.
Qed.

Lemma well_known_code_facts :
  Forall (fun c : Code =>
            c <> ""
            /\ gerr.ToGRPCCode c <> gerr.OK
            /\ gerr.ToErrxCode (gerr.ToGRPCCode c) = c
            /\ cerr.ToErrxCode (cerr.ToConnectCode c) = c)
    well_known_codes.
Proof.
  unfold well_known_codes.
  repeat constructor; try discriminate; vm_compute; congruence.
Qed.

Lemma Error_Code_WithDetails (e : Error) (ds : list any) :
  Error_Code (WithDetails e ds) = Error_Code e.
Proof. reflexivity. Qed.

Lemma Error_Error_WithDetails (e : Error) (ds : list any) :
  Error_Error (WithDetails e ds) = Error_Error e.
Proof. reflexivity. Qed.

Lemma Error_Code_New_WithCode (m : string) (c : Code) :
  c <> "" -> Error_Code (WithCode (New m []) c) = c.
Proof. intros Hc. unfold Error_Code. simpl. rewrite decide_False by exact Hc. reflexivity. Qed.

Lemma Error_Error_New_WithCode (m : string) (c : Code) :
  Error_Error (WithCode (New m []) c) = m.
Proof. reflexivity. Qed.

Lemma Error_Code_own (e : Error) (c : Code) :
  c <> "" -> code e = c -> Error_Code e = c.
Proof.
  intros Hc He. unfold Error_Code. rewrite He.
  rewrite decide_False by exact Hc. reflexivity.
Qed.

Lemma Error_Error_no_cause (e : Error) : cause e = None -> Error_Error e = msg e.
Proof. intros Hc. unfold Error_Error. simpl. rewrite Hc. reflexivity. Qed.

Section RoundTrip.
Context `{AnyCodec}.

(** The status built by [ToStatus] carries the mapped code and the
    rendered message, with or without details. *)
Lemma ToStatus_code_message (err : error) :
  gerr.st_code (gerr.ToStatus (Some err)) = gerr.ToGRPCCode (CodeOf (Some err))
  /\ gerr.st_message (gerr.ToStatus (Some err)) = error_Error err.
Proof.
  unfold gerr.ToStatus.
  destruct (decide (0 < length _)); [|split; reflexivity].
  destruct (gerr.Status_WithDetails _ _) as [w|] eqn:Hw; [|split; reflexivity].
  unfold gerr.Status_WithDetails in Hw.
  destruct (decide _) in Hw; [discriminate Hw|].
  destruct (mapM _ _) in Hw; [|discriminate Hw].
  injection Hw as <-. split; reflexivity.
Qed.

Lemma FromStatus_not_OK (s : gerr.Status) :
  gerr.st_code s <> gerr.OK ->
  exists e : Error,
    gerr.FromStatus (Some s) = Some e
    /\ msg e = gerr.st_message s
    /\ code e = gerr.ToErrxCode (gerr.st_code s)
    /\ cause e = None
    /\ details e = gerr.Status_Details (Some s).
Proof.
  intros Hne. unfold gerr.FromStatus. simpl gerr.Status_Code.
  rewrite decide_False by exact Hne.
  remember (gerr.Status_Details (Some s)) as ds eqn:Hds.
  destruct (decide (0 < length ds)) as [Hlen | Hlen].
  - eexists. split; [reflexivity|]. repeat split.
  - eexists. split; [reflexivity|]. repeat split. simpl.
    destruct ds; [reflexivity | simpl in Hlen; lia].
Qed.

(** Adding details to a Connect error changes neither its code nor its
    underlying error. *)
Lemma ToConnectError_code_err (err : error) :
  exists ce : cerr.ConnectError,
    cerr.ToConnectError (Some err) = Some ce
    /\ cerr.ce_code ce = cerr.ToConnectCode (CodeOf (Some err))
    /\ cerr.ce_err ce = Some err.
Proof.
  unfold cerr.ToConnectError. eexists. split; [reflexivity|].
  apply (fold_left_invariant
           (fun ce : cerr.ConnectError =>
              cerr.ce_code ce = cerr.ToConnectCode (CodeOf (Some err))
              /\ cerr.ce_err ce = Some err)).
  - split; reflexivity.
  - intros ce d Hce. destruct (cerr.toProtoDetail d); [|exact Hce].
    destruct (cerr.connect_NewErrorDetail _); [|exact Hce]. exact Hce.
Qed.

Lemma FromConnectError_Some (ce : cerr.ConnectError) :
  exists e : Error,
    cerr.FromConnectError (Some ce) = Some e
    /\ msg e = cerr.Message ce
    /\ code e = cerr.ToErrxCode (cerr.ce_code ce)
    /\ cause e = None
    /\ details e = any_proto <$> omap cerr.ErrorDetail_Value (cerr.ce_details ce).
Proof.
  unfold cerr.FromConnectError.
  assert (Hfold : forall (l : list cerr.ErrorDetail) (acc : list any),
             fold_left
               (fun details d =>
                  match cerr.ErrorDetail_Value d with
                  | None => details
                  | Some v => details ++ [any_proto v]
                  end) l acc
             = acc ++ (any_proto <$> omap cerr.ErrorDetail_Value l)).
  { induction l as [|d l IH]; intros acc; simpl.
    - rewrite app_nil_r. reflexivity.
    - rewrite IH. destruct (cerr.ErrorDetail_Value d); simpl.
      + rewrite <- app_assoc. reflexivity.
      + reflexivity. }
  rewrite Hfold. simpl app.
  remember (any_proto <$> omap cerr.ErrorDetail_Value (cerr.ce_details ce)) as ds.
  destruct (decide (0 < length ds)) as [Hlen | Hlen].
  - eexists. split; [reflexivity|]. repeat split.
  - eexists. split; [reflexivity|]. repeat split. simpl.
    destruct ds; [reflexivity | simpl in Hlen; lia].
Qed.
End RoundTrip.

(** C1.  For every error whose code is one of the sixteen well-known
    codes, converting it to the wire representation and back preserves the
    code and the rendered message, on the gRPC adapter ([FromStatus] of
    [ToStatus]), on the Connect adapter ([FromConnectError] of
    [ToConnectError]) and on the HTTP adapter ([FromProblemDetail] of
    [ToProblemDetail], whatever has been registered in its tables). *)
Theorem round_trip_well_known `{AnyCodec} (tb : herr.tables) (err : error) :
  CodeOf (Some err) ∈ well_known_codes ->
  (exists e : Error,
      gerr.FromStatus (Some (gerr.ToStatus (Some err))) = Some e
      /\ Error_Code e = CodeOf (Some err)
      /\ Error_Error e = error_Error err) /\
  (exists (ce : cerr.ConnectError) (e : Error),
      cerr.ToConnectError (Some err) = Some ce
      /\ cerr.FromConnectError (Some ce) = Some e
      /\ Error_Code e = CodeOf (Some err)
      /\ Error_Error e = error_Error err) /\
  (exists (p : herr.ProblemDetail) (e : Error),
      herr.ToProblemDetail tb (Some err) [] = Some p
      /\ herr.FromProblemDetail tb (Some p) = Some e
      /\ Error_Code e = CodeOf (Some err)
      /\ Error_Error e = error_Error err).
Proof.
  intros Hwk.
  pose proof well_known_code_facts as Hfacts. rewrite Forall_forall in Hfacts.
  destruct (Hfacts _ Hwk) as (Hne & HnotOK & Hgrpc & Hconnect).
  split; [|split].
  - destruct (ToStatus_code_message err) as [Hc Hm].
    destruct (FromStatus_not_OK (gerr.ToStatus (Some err))) as (e & He & Hmsg & Hcode & Hcause & _).
    { rewrite Hc. exact HnotOK. }
    exists e. split; [exact He|]. split.
    + apply Error_Code_own; [exact Hne|]. rewrite Hcode, Hc, Hgrpc. reflexivity.
    + rewrite Error_Error_no_cause by exact Hcause. rewrite Hmsg, Hm. reflexivity.
  - destruct (ToConnectError_code_err err) as (ce & Hce & Hc & Herr).
    destruct (FromConnectError_Some ce) as (e & He & Hmsg & Hcode & Hcause & _).
    exists ce, e. split; [exact Hce|]. split; [exact He|]. split.
    + apply Error_Code_own; [exact Hne|]. rewrite Hcode, Hc, Hconnect. reflexivity.
    + rewrite Error_Error_no_cause by exact Hcause. rewrite Hmsg.
      unfold cerr.Message. rewrite Herr. reflexivity.
  - eexists. eexists. split; [reflexivity|]. split; [reflexivity|]. simpl.
    rewrite (decide_False (P := CodeOf_error err = "")) by exact Hne.
    rewrite (decide_False (P := CodeOf_error err = "")) by exact Hne.
    split.
    + apply Error_Code_own; [exact Hne | reflexivity].
    + reflexivity.
Qed.

Lemma round_trip_well_known_witness :
  exists e : Error,
    @gerr.FromStatus sample_codec
      (Some (@gerr.ToStatus sample_codec (Some (err_Error user_not_found)))) = Some e
    /\ Error_Code e = NotFound
    /\ Error_Error e = "user not found".
Proof.
  refine (proj1 (@round_trip_well_known sample_codec herr.init
                   (err_Error user_not_found) _)).
  apply list_elem_of_In. vm_compute. do 4 right. left. reflexivity.
Defined.

(** ** Reverse conversions *)

(** C7 as stated fails on the HTTP adapter: a problem detail that carries
    a BadRequest entry comes back as an error without details. *)
Lemma FromProblemDetail_restores_no_details :
  ~ (exists e : Error,
        herr.FromProblemDetail herr.init (Some bad_email_problem) = Some e
        /\ length (DetailsOf (Some (err_Error e)))
           = length (herr.pd_Errors bad_email_problem)).
Proof.
  intros (e & He & Hlen). injection He as <-. vm_compute in Hlen. discriminate Hlen.
Qed.

(** C7, amended.  [FromStatus] returns nil for an OK status (a nil status
    included) and [FromConnectError] and [FromProblemDetail] return nil for a
    nil input.  Otherwise each builds a new node, without cause, from the
    protocol message and code.  [FromStatus] restores every detail of the
    status, as the unpacked message or, for a detail that does not unpack,
    as the unpacking error; [FromConnectError] restores the details that
    unpack and skips the others; [FromProblemDetail] restores no details:
    it reads only the detail, code and status members. *)
Theorem reverse_conversions `{AnyCodec} :
  (forall st : option gerr.Status,
      gerr.Status_Code st = gerr.OK -> gerr.FromStatus st = None) /\
  (forall s : gerr.Status,
      gerr.st_code s <> gerr.OK ->
      exists e : Error,
        gerr.FromStatus (Some s) = Some e
        /\ msg e = gerr.st_message s
        /\ code e = gerr.ToErrxCode (gerr.st_code s)
        /\ cause e = None
        /\ DetailsOf (Some (err_Error e))
           = map (fun a => match Any_UnmarshalNew a with
                           | inl m => any_proto m
                           | inr failure => any_error failure
                           end) (gerr.st_details s)) /\
  cerr.FromConnectError None = None /\
  (forall ce : cerr.ConnectError,
      exists e : Error,
        cerr.FromConnectError (Some ce) = Some e
        /\ msg e = cerr.Message ce
        /\ code e = cerr.ToErrxCode (cerr.ce_code ce)
        /\ cause e = None
        /\ DetailsOf (Some (err_Error e))
           = any_proto <$> omap cerr.ErrorDetail_Value (cerr.ce_details ce)) /\
  (forall tb : herr.tables, herr.FromProblemDetail tb None = None) /\
  (forall (tb : herr.tables) (p : herr.ProblemDetail),
      exists e : Error,
        herr.FromProblemDetail tb (Some p) = Some e
        /\ msg e = herr.pd_Detail p
        /\ code e = (if decide (herr.pd_Code p = "")
                     then herr.ToErrxCode tb (herr.pd_Status p)
                     else herr.pd_Code p)
        /\ cause e = None
        /\ DetailsOf (Some (err_Error e)) = []).
Proof.
  assert (Hleaf : forall e : Error,
             cause e = None -> DetailsOf (Some (err_Error e)) = details e).
  { intros e Hc. destruct Fields_DetailsOf_walk_opt with (err := Some (err_Error e)) as [_ Hd].
    rewrite Hd. simpl. rewrite Hc, app_nil_r. reflexivity. }
  split; [|split; [|split; [|split; [|split]]]].
  - intros st Hst. unfold gerr.FromStatus. rewrite decide_True by exact Hst. reflexivity.
  - intros s Hs. destruct (FromStatus_not_OK s Hs) as (e & He & Hm & Hc & Hcause & Hd).
    exists e. rewrite (Hleaf e Hcause), Hd. repeat split; assumption.
  - reflexivity.
  - intros ce. destruct (FromConnectError_Some ce) as (e & He & Hm & Hc & Hcause & Hd).
    exists e. rewrite (Hleaf e Hcause), Hd. repeat split; assumption.
  - reflexivity.
  - intros tb p. eexists. split; [reflexivity|]. repeat split.
Qed.

Lemma reverse_conversions_witness :
  exists e : Error,
    @gerr.FromStatus sample_codec
      (Some {| gerr.st_code := gerr.codes_NotFound; gerr.st_message := "user not found";
               gerr.st_details := [mkAny "example.Detail" "payload"; mkAny "" ""] |})
    = Some e
    /\ msg e = "user not found"
    /\ code e = NotFound
    /\ cause e = None
    /\ DetailsOf (Some (err_Error e))
       = [any_proto (pb_other "example.Detail" "payload"); any_error "empty type URL"].
Proof.
  destruct (@reverse_conversions sample_codec) as (_ & Hgrpc & _).
  refine (Hgrpc {| gerr.st_code := gerr.codes_NotFound;
                   gerr.st_message := "user not found";
                   gerr.st_details := [mkAny "example.Detail" "payload"; mkAny "" ""] |} _).
  discriminate.
Defined.

(** ** The mutators in memory *)

(** On snapshots the mutators in memory do what the value-level mutators
    do to a node. *)
Lemma effect_value_level (c : Mem.iface) (e : Error) :
  (forall args, Mem.effect (Mem.m_With args) (Mem.snapshot_of c e)
                = Mem.snapshot_of c (With e args))
  /\ (forall k, Mem.effect (Mem.m_WithCode k) (Mem.snapshot_of c e)
                = Mem.snapshot_of c (WithCode e k))
  /\ (forall ds, Mem.effect (Mem.m_WithDetails ds) (Mem.snapshot_of c e)
                 = Mem.snapshot_of c (WithDetails e ds))
  /\ (forall fr, Mem.effect (Mem.m_WithStack fr) (Mem.snapshot_of c e)
                 = Mem.snapshot_of c (WithStack fr e)).
Proof. repeat split. Qed.

Module MemFacts.
Import Mem.

Lemma view_weaken {A : Type} (arrs arrs' : gmap loc (list A)) (s : slice) (l : list A) :
  arrs ⊆ arrs' -> view arrs s = Some l -> view arrs' s = Some l.
Proof.
  intros Hsub. unfold view. destruct (s_ptr s) as [p|]; [|auto].
  destruct (arrs !! p) as [arr|] eqn:Hp; [|discriminate].
  rewrite (lookup_weaken _ _ _ _ Hp Hsub). auto.
Qed.

Lemma view_length {A : Type} (arrs : gmap loc (list A)) (s : slice) (l : list A) :
  view arrs s = Some l -> length l = s_len s.
Proof.
  unfold view. destruct (s_ptr s) as [p|].
  - destruct (arrs !! p) as [arr|]; [|discriminate].
    destruct (decide _); [|discriminate]. intros [= <-].
    rewrite length_take. apply Nat.min_l. assumption.
  - destruct (decide _) as [->|]; [|discriminate]. intros [= <-]. reflexivity.
Qed.

Section AppendFacts.
Variable growcap : nat -> nat -> nat.

(** [append] returns the old elements followed by the new ones. *)
Lemma append_view {A : Type} (arrs arrs' : gmap loc (list A)) (s s' : slice)
    (old xs : list A) :
  view arrs s = Some old ->
  append growcap arrs s xs = Some (s', arrs') ->
  view arrs' s' = Some (old ++ xs).
Proof.
  intros Hview Happ. pose proof (view_length _ _ _ Hview) as Hlen.
  unfold append in Happ. destruct xs as [|x xs].
  { injection Happ as <- <-. rewrite app_nil_r. exact Hview. }
  destruct (decide (s_len s + length (x :: xs) <= s_cap s)) as [Hfit|Hgrow].
  - destruct (s_ptr s) as [p|] eqn:Hp; [|discriminate].
    destruct (arrs !! p) as [arr|] eqn:Harr; [|discriminate].
    injection Happ as <- <-. unfold view in *. simpl. rewrite Hp, Harr in Hview.
    rewrite lookup_insert_eq.
    destruct (decide (s_len s <= length arr)) as [Hle|]; [|discriminate].
    injection Hview as <-. unfold write_at.
    pose proof Hlen as Ht.
    rewrite decide_True.
    + rewrite app_assoc. rewrite take_app_length'; [reflexivity|].
      rewrite length_app, Ht. reflexivity.
    + rewrite !length_app, Ht. simpl. lia.
  - rewrite Hview in Happ. injection Happ as <- <-. unfold view. simpl.
    rewrite lookup_insert_eq. rewrite decide_True by (rewrite length_app; simpl in *; lia).
    rewrite take_ge by (rewrite length_app; simpl in *; lia). reflexivity.
Qed.

(** [append] changes no array other than the one its argument points to;
    what it allocates is new. *)
Lemma append_frame {A : Type} (arrs0 arrs arrs' : gmap loc (list A))
    (s s' : slice) (xs : list A) :
  arrs0 ⊆ arrs ->
  (forall p, s_ptr s = Some p -> arrs0 !! p = None) ->
  append growcap arrs s xs = Some (s', arrs') ->
  arrs0 ⊆ arrs' /\ (forall p, s_ptr s' = Some p -> arrs0 !! p = None).
Proof.
  intros Hsub Hptr Happ. unfold append in Happ. destruct xs as [|x xs].
  { injection Happ as <- <-. auto. }
  destruct (decide _) as [Hfit|Hgrow].
  - destruct (s_ptr s) as [p|] eqn:Hp; [|discriminate].
    destruct (arrs !! p) as [arr|] eqn:Harr; [|discriminate].
    injection Happ as <- <-. simpl. split.
    + apply map_subseteq_spec. intros l v Hl.
      destruct (decide (p = l)) as [<-|Hne].
      * rewrite (Hptr p eq_refl) in Hl. discriminate.
      * rewrite lookup_insert_ne by exact Hne. exact (lookup_weaken _ _ _ _ Hl Hsub).
    + intros q [= <-]. apply Hptr. reflexivity.
  - destruct (view arrs s) as [old|]; [|discriminate].
    injection Happ as <- <-. simpl.
    assert (Hfresh : arrs !! fresh (dom arrs) = None).
    { apply not_elem_of_dom. apply is_fresh. }
    split.
    + etrans; [exact Hsub|]. apply insert_subseteq. exact Hfresh.
    + intros q [= <-]. 
      destruct (arrs0 !! fresh (dom arrs)) as [v|] eqn:Hv; [|reflexivity].
      rewrite (lookup_weaken _ _ _ _ Hv Hsub) in Hfresh. discriminate.
Qed.


Lemma append_total {A : Type} (arrs : gmap loc (list A)) (s : slice) (old xs : list A) :
  view arrs s = Some old ->
  (s_ptr s = None -> s_cap s = 0) ->
  is_Some (append growcap arrs s xs).
Proof.
  intros Hview Hnil. unfold append. destruct xs as [|x xs]; [eauto|].
  destruct (decide _) as [Hfit|Hgrow].
  - unfold view in Hview. destruct (s_ptr s) as [p|].
    + destruct (arrs !! p); [eauto | discriminate].
    + rewrite (Hnil eq_refl) in Hfit. simpl in Hfit. lia.
  - rewrite Hview. eauto.
Qed.

Lemma append_nil_cap {A : Type} (arrs arrs1 : gmap loc (list A)) (s1 : slice)
    (xs : list A) :
  append growcap arrs nil_slice xs = Some (s1, arrs1) ->
  s_ptr s1 = None -> s_cap s1 = 0.
Proof.
  unfold append. destruct xs as [|x xs].
  - intros [= <- <-]. reflexivity.
  - destruct (decide _) as [Hfit|Hgrow]; [discriminate|].
    simpl. intros [= <- <-]. discriminate.
Qed.

(** [append(append([]T(nil), own...), xs...)]: the result holds the own
    elements followed by [xs], in memory that did not exist before, and
    every array that existed is unchanged. *)
Lemma copy_then_append {A : Type} (arrs : gmap loc (list A)) (own xs : list A) :
  exists (s1 s2 : slice) (arrs1 arrs2 : gmap loc (list A)),
    append growcap arrs nil_slice own = Some (s1, arrs1)
    /\ append growcap arrs1 s1 xs = Some (s2, arrs2)
    /\ view arrs2 s2 = Some (own ++ xs)
    /\ arrs ⊆ arrs2.
Proof.
  assert (Hnil : view arrs nil_slice = Some (@nil A)) by reflexivity.
  destruct (append_total arrs nil_slice [] own Hnil (fun _ => eq_refl))
    as [[s1 arrs1] H1].
  pose proof (append_view _ _ _ _ _ _ Hnil H1) as Hv1. simpl in Hv1.
  destruct (append_frame arrs arrs arrs1 nil_slice s1 own) as [Hsub1 Hnew1];
    [reflexivity | discriminate | exact H1 |].
  destruct (append_total arrs1 s1 own xs Hv1 (append_nil_cap _ _ _ _ H1))
    as [[s2 arrs2] H2].
  pose proof (append_view _ _ _ _ _ _ Hv1 H2) as Hv2.
  destruct (append_frame arrs arrs1 arrs2 s1 s2 xs Hsub1 Hnew1 H2) as [Hsub2 _].
  exists s1, s2, arrs1, arrs2. auto.
Qed.
End AppendFacts.

Lemma observe_weaken (σ σ' : store) (l : loc) (s : snapshot) :
  nodes σ ⊆ nodes σ' ->
  attr_arrays σ ⊆ attr_arrays σ' ->
  any_arrays σ ⊆ any_arrays σ' ->
  stacks σ ⊆ stacks σ' ->
  observe σ l = Some s -> observe σ' l = Some s.
Proof.
  intros Hn Ha Hd Hs. unfold observe.
  destruct (nodes σ !! l) as [n|] eqn:Hl; [|discriminate]. simpl.
  rewrite (lookup_weaken _ _ _ _ Hl Hn). simpl.
  destruct (view (attr_arrays σ) (n_fields n)) as [fs|] eqn:Hfs; [|discriminate].
  rewrite (view_weaken _ _ _ _ Ha Hfs). simpl.
  destruct (view (any_arrays σ) (n_details n)) as [ds|] eqn:Hds; [|discriminate].
  rewrite (view_weaken _ _ _ _ Hd Hds). simpl.
  destruct (n_stack n) as [sp|]; [|auto].
  destruct (stacks σ !! sp) as [stk|] eqn:Hsp; [|discriminate].
  rewrite (lookup_weaken _ _ _ _ Hsp Hs). auto.
Qed.

(** Storing a copy at a new address, into arrays and stacks that extend
    the old ones, changes nothing that could be observed before. *)
Lemma publish_frame (cp : node) (σ : store) (attrs : gmap loc (list Attr))
    (anys : gmap loc (list any)) (stks : gmap loc Stack) :
  attr_arrays σ ⊆ attrs -> any_arrays σ ⊆ anys -> stacks σ ⊆ stks ->
  nodes σ !! (publish cp σ attrs anys stks).1 = None
  /\ nodes (publish cp σ attrs anys stks).2 !! (publish cp σ attrs anys stks).1 = Some cp
  /\ (forall l s, observe σ l = Some s ->
                  observe (publish cp σ attrs anys stks).2 l = Some s).
Proof.
  intros Ha Hd Hk. unfold publish. simpl.
  assert (Hfresh : nodes σ !! fresh (dom (nodes σ)) = None).
  { apply not_elem_of_dom. apply is_fresh. }
  split; [exact Hfresh|]. split; [apply lookup_insert_eq|].
  intros l s. apply observe_weaken; simpl; try assumption.
  apply insert_subseteq. exact Hfresh.
Qed.

Lemma observe_inv (σ : store) (e : loc) (snap : snapshot) :
  observe σ e = Some snap ->
  exists (n : node) (fs : list Attr) (ds : list any) (stk : option Stack),
    nodes σ !! e = Some n
    /\ view (attr_arrays σ) (n_fields n) = Some fs
    /\ view (any_arrays σ) (n_details n) = Some ds
    /\ match n_stack n with
       | None => stk = None
       | Some sp => exists k, stacks σ !! sp = Some k /\ stk = Some k
       end
    /\ snap = {| o_msg := n_msg n; o_cause := n_cause n; o_code := n_code n;
                 o_fields := fs; o_details := ds; o_stack := stk |}.
Proof.
  unfold observe.
  destruct (nodes σ !! e) as [n|] eqn:Hn; [|discriminate]. simpl.
  destruct (view (attr_arrays σ) (n_fields n)) as [fs|] eqn:Hfs; [|discriminate]. simpl.
  destruct (view (any_arrays σ) (n_details n)) as [ds|] eqn:Hds; [|discriminate]. simpl.
  destruct (n_stack n) as [sp|] eqn:Hsp.
  - destruct (stacks σ !! sp) as [k|] eqn:Hk; [|discriminate]. simpl.
    intros [= <-]. exists n, fs, ds, (Some k). rewrite Hsp. eauto 10.
  - simpl. intros [= <-]. exists n, fs, ds, None. rewrite Hsp. eauto 10.
Qed.

Lemma observe_intro (σ : store) (e : loc) (n : node) (fs : list Attr)
    (ds : list any) (stk : option Stack) :
  nodes σ !! e = Some n ->
  view (attr_arrays σ) (n_fields n) = Some fs ->
  view (any_arrays σ) (n_details n) = Some ds ->
  match n_stack n with
  | None => stk = None
  | Some sp => exists k, stacks σ !! sp = Some k /\ stk = Some k
  end ->
  observe σ e
  = Some {| o_msg := n_msg n; o_cause := n_cause n; o_code := n_code n;
            o_fields := fs; o_details := ds; o_stack := stk |}.
Proof.
  intros Hn Hfs Hds Hstk. unfold observe. rewrite Hn. simpl.
  rewrite Hfs. simpl. rewrite Hds. simpl.
  destruct (n_stack n) as [sp|].
  - destruct Hstk as (k & Hk & ->). rewrite Hk. reflexivity.
  - rewrite Hstk. reflexivity.
Qed.

Lemma stack_weaken (stks stks' : gmap loc Stack) (osp : option loc) (stk : option Stack) :
  stks ⊆ stks' ->
  match osp with
  | None => stk = None
  | Some sp => exists k, stks !! sp = Some k /\ stk = Some k
  end ->
  match osp with
  | None => stk = None
  | Some sp => exists k, stks' !! sp = Some k /\ stk = Some k
  end.
Proof.
  intros Hsub. destruct osp as [sp|]; [|auto].
  intros (k & Hk & ->). exists k. split; [|reflexivity].
  exact (lookup_weaken _ _ _ _ Hk Hsub).
Qed.

(** Why the mutators copy first: appending to a slice with spare capacity
    writes into the backing array it shares with the receiver. *)
Example append_in_place :
  append double_capacity (any_arrays sample_store)
    {| s_ptr := Some 0; s_len := 1; s_cap := 4 |} [any_string "b"]
  = Some ({| s_ptr := Some 0; s_len := 2; s_cap := 4 |},
          {[ 0 := [any_string "a"; any_string "b"] ]}).
Proof. vm_compute. reflexivity. Qed.

(** The end of each case: the copy is published, and what is left to show
    is what the new node looks like. *)
Ltac published Hobs :=
  match goal with
  | |- exists e2 σ', Some (publish ?cp ?σ ?a ?d ?k) = Some (e2, σ') /\ _ =>
      let Hnew := fresh "Hnew" in
      let Hframe := fresh "Hframe" in
      destruct (publish_frame cp σ a d k) as (Hnew & Hcp & Hframe);
      [ | |
      | exists (publish cp σ a d k).1, (publish cp σ a d k).2;
        split; [rewrite <- surjective_pairing; reflexivity|];
        split; [exact Hnew|];
        split; [|split; [reflexivity|split; [apply Hframe, Hobs | exact Hframe]]] ]
  end.

(** C4.  Every mutator ([With], [WithCode], [WithDetails], [WithStack])
    applied to a node returns the address of a new node whose cause is the
    same reference as the receiver's, and leaves the receiver as it was: its
    message, cause, code, fields, details and stack read the same after the
    call as before.  The same holds for every other node that existed
    before the call.  The new node differs from the receiver only in what
    the mutator sets. *)
Theorem mutators_copy (growcap : nat -> nat -> nat) (m : mutator) (σ : store)
    (e : loc) (snap : snapshot) :
  observe σ e = Some snap ->
  exists (e2 : loc) (σ' : store),
    apply growcap m e σ = Some (e2, σ')
    /\ nodes σ !! e2 = None
    /\ observe σ' e2 = Some (effect m snap)
    /\ o_cause (effect m snap) = o_cause snap
    /\ observe σ' e = Some snap
    /\ (forall l s, observe σ l = Some s -> observe σ' l = Some s).
Proof.
  intros Hobs.
  destruct (observe_inv σ e snap Hobs)
    as (n & fs & ds & stk & Hn & Hfs & Hds & Hstk & ->).
  destruct m as [args | c | new | captured]; simpl apply.
  - destruct (copy_then_append growcap (attr_arrays σ) fs (argsToAttrs args))
      as (s1 & s2 & arrs1 & arrs2 & H1 & H2 & Hv2 & Hsub).
    unfold With. rewrite Hn. simpl. rewrite Hfs. simpl. rewrite H1. simpl.
    rewrite H2. simpl.
    published Hobs; [exact Hsub | reflexivity | reflexivity |].
    apply (observe_intro _ _ _ _ _ _ Hcp); simpl; auto.
  - unfold WithCode. rewrite Hn. simpl.
    published Hobs; [reflexivity | reflexivity | reflexivity |].
    apply (observe_intro _ _ _ _ _ _ Hcp); simpl; auto.
  - destruct (copy_then_append growcap (any_arrays σ) ds new)
      as (s1 & s2 & arrs1 & arrs2 & H1 & H2 & Hv2 & Hsub).
    unfold WithDetails. rewrite Hn. simpl. rewrite Hds. simpl. rewrite H1. simpl.
    rewrite H2. simpl.
    published Hobs; [reflexivity | exact Hsub | reflexivity |].
    apply (observe_intro _ _ _ _ _ _ Hcp); simpl; auto.
  - assert (Hsp : stacks σ !! fresh (dom (stacks σ)) = None).
    { apply not_elem_of_dom. apply is_fresh. }
    unfold WithStack. rewrite Hn. simpl.
    published Hobs; [reflexivity | reflexivity | apply insert_subseteq, Hsp |].
    apply (observe_intro _ _ _ _ _ _ Hcp); simpl; auto.
    eexists. split; [apply lookup_insert_eq | reflexivity].
Qed.

Lemma mutators_copy_witness :
  exists (e2 : loc) (σ' : store),
    WithDetails double_capacity [any_string "b"] 0 sample_store = Some (e2, σ')
    /\ nodes sample_store !! e2 = None
    /\ observe σ' e2 = Some (effect (m_WithDetails [any_string "b"]) sample_snapshot)
    /\ o_cause (effect (m_WithDetails [any_string "b"]) sample_snapshot) = i_nil
    /\ observe σ' 0 = Some sample_snapshot
    /\ (forall l s, observe sample_store l = Some s -> observe σ' l = Some s).
Proof.
  apply (mutators_copy double_capacity (m_WithDetails [any_string "b"])
           sample_store 0 sample_snapshot).
  vm_compute. reflexivity.
Defined.


End MemFacts.

(** ** Locale *)

Import locale.

Ltac float_cases :=
  unfold locale.is_NaN;
  unfold locale.float_gt, SFltb, SFcompare;
  repeat match goal with
         | f : spec_float |- _ => destruct f
         end;
  repeat match goal with
         | s : bool |- _ => destruct s
         end;
  simpl; try easy;
  repeat match goal with
         | |- context [Z.compare ?a ?b] => destruct (Z.compare_spec a b)
         end;
  repeat match goal with
         | |- context [Pos.compare_cont Eq ?a ?b] =>
             change (Pos.compare_cont Eq a b) with (Pos.compare a b);
             destruct (Pos.compare_spec a b)
         end;
  simpl; try easy; try lia.

Lemma float_gt_irrefl (a : spec_float) : float_gt a a = false.
Proof. float_cases. Qed.






(* ===================================================================== *)
(** * Further properties                                                  *)
(* ===================================================================== *)


(** ** Logging arguments *)

(** X1.  Well-formed logging arguments, that is attributes and keys each
    followed by a value, are converted one by one and in order: an
    attribute is kept as it is and a key with its value becomes the
    attribute of that key; nothing is marked as a bad key. *)
Theorem argsToAttrs_well_formed (xs : list log_arg) :
  argsToAttrs (encode_args xs) = map attr_of_arg xs.
Proof.
  induction xs as [|x xs IH]; [reflexivity|].
  unfold encode_args in *. destruct x as [a | k v]; simpl.
  - rewrite IH. reflexivity.
  - rewrite IH. reflexivity.
Qed.

Lemma argsToAttrs_bounds_strong (n : nat) :
  forall args : list any,
    length args <= n ->
    length (argsToAttrs args) <= length args
    /\ length args <= 2 * length (argsToAttrs args).
Proof.
  induction n as [|n IH]; intros args Hn.
  - destruct args; [simpl; lia | simpl in Hn; lia].
  - destruct args as [|v rest]; [simpl; lia|].
    assert (Hrest : forall l, length l <= n ->
              length (argsToAttrs l) <= length l
              /\ length l <= 2 * length (argsToAttrs l)) by exact IH.
    destruct v; simpl;
      try (destruct (Hrest rest) as [H1 H2]; [simpl in Hn; lia | simpl; lia]).
    destruct rest as [|x rest']; [simpl; lia|].
    destruct (Hrest rest') as [H1 H2]; [simpl in Hn; lia | simpl; lia].
Qed.

(** X2.  [argsToAttrs] yields at most one attribute per argument and at
    least one for every two arguments.  A key left without a value at the end
    of well-formed arguments becomes one more attribute, with the key
    !BADKEY and the lone key as its value, and the arguments before it are
    converted as without it. *)
Theorem argsToAttrs_bounds :
  (forall args : list any,
      length (argsToAttrs args) <= length args
      /\ length args <= 2 * length (argsToAttrs args)) /\
  (forall (xs : list log_arg) (k : string),
      argsToAttrs (encode_args xs ++ [any_string k])
      = map attr_of_arg xs ++ [slog_String "!BADKEY" k]).
Proof.
  split.
  - intros args. apply (argsToAttrs_bounds_strong (length args)). lia.
  - intros xs k. induction xs as [|x xs IH]; [reflexivity|].
    unfold encode_args in *. destruct x as [a | k' v]; simpl; rewrite IH; reflexivity.
Qed.


(** ** Building and wrapping errors *)

Lemma Fields_node (e : Error) :
  Fields (Some (err_Error e)) = fields e ++ Fields (cause e).
Proof.
  rewrite (proj1 (Fields_DetailsOf_walk_opt (Some (err_Error e)))).
  rewrite (proj1 (Fields_DetailsOf_walk_opt (cause e))).
  simpl. destruct (cause e); reflexivity.
Qed.

Lemma DetailsOf_node (e : Error) :
  DetailsOf (Some (err_Error e)) = details e ++ DetailsOf (cause e).
Proof.
  rewrite (proj2 (Fields_DetailsOf_walk_opt (Some (err_Error e)))).
  rewrite (proj2 (Fields_DetailsOf_walk_opt (cause e))).
  simpl. destruct (cause e); reflexivity.
Qed.

(** X3.  The rendered message: [Wrap] adds nothing to it, [Wrapf] puts
    its formatted message and a colon in front of it (or adds nothing when
    the formatted message is empty), and no mutator changes it. *)
Theorem Error_rendering (err : error) :
  (forall (args : list any) (w : Error),
      Wrap (Some err) args = Some w -> Error_Error w = error_Error err) /\
  (forall (sprintf : string -> list any -> string) (format : string)
          (fmtArgs : list any) (w : Error),
      Wrapf sprintf (Some err) format fmtArgs = Some w ->
      Error_Error w
      = (if decide (sprintf format fmtArgs = "") then error_Error err
         else sprintf format fmtArgs +:+ ": " +:+ error_Error err)) /\
  (forall (e : Error) (args ds : list any) (c : Code) (captured : list Frame),
      Error_Error (With e args) = Error_Error e
      /\ Error_Error (WithCode e c) = Error_Error e
      /\ Error_Error (WithDetails e ds) = Error_Error e
      /\ Error_Error (WithStack captured e) = Error_Error e).
Proof.
  split; [|split].
  - intros args w Hw. injection Hw as <-. reflexivity.
  - intros sprintf format fmtArgs w Hw. injection Hw as <-. reflexivity.
  - intros e args ds c captured. repeat split.
Qed.

Lemma Error_rendering_witness :
  exists w : Error,
    Wrap (Some (err_foreign "db timeout" None None)) [any_string "query"; any_string "SELECT 1"]
    = Some w
    /\ Error_Error w = "db timeout"%string.
Proof.
  eexists. split; [reflexivity|].
  apply (proj1 (Error_rendering (err_foreign "db timeout" None None))
           [any_string "query"; any_string "SELECT 1"] _ eq_refl).
Defined.

(** X4.  Fields and details accumulate outermost first: a node's own
    items come before those of its cause, [With] and [WithDetails] append
    after the node's own items, [Wrap] puts its fields in front of those of
    the wrapped error and adds no details, and the other mutators change
    neither list. *)
Theorem Fields_DetailsOf_accumulate :
  (forall (e : Error) (args : list any),
      Fields (Some (err_Error (With e args)))
      = fields e ++ argsToAttrs args ++ Fields (cause e)) /\
  (forall (e : Error) (ds : list any),
      DetailsOf (Some (err_Error (WithDetails e ds)))
      = details e ++ ds ++ DetailsOf (cause e)) /\
  (forall (e : Error) (ds1 ds2 : list any),
      WithDetails (WithDetails e ds1) ds2 = WithDetails e (ds1 ++ ds2)) /\
  (forall (e : Error) (a1 a2 : list any),
      fields (With (With e a1) a2) = fields e ++ argsToAttrs a1 ++ argsToAttrs a2) /\
  (forall (err : error) (args : list any) (w : Error),
      Wrap (Some err) args = Some w ->
      Fields (Some (err_Error w)) = argsToAttrs args ++ Fields (Some err)
      /\ DetailsOf (Some (err_Error w)) = DetailsOf (Some err)) /\
  (forall (e : Error) (args ds : list any) (c : Code) (captured : list Frame),
      Fields (Some (err_Error (WithCode e c))) = Fields (Some (err_Error e))
      /\ Fields (Some (err_Error (WithDetails e ds))) = Fields (Some (err_Error e))
      /\ Fields (Some (err_Error (WithStack captured e))) = Fields (Some (err_Error e))
      /\ DetailsOf (Some (err_Error (With e args))) = DetailsOf (Some (err_Error e))
      /\ DetailsOf (Some (err_Error (WithCode e c))) = DetailsOf (Some (err_Error e))
      /\ DetailsOf (Some (err_Error (WithStack captured e)))
         = DetailsOf (Some (err_Error e))).
Proof.
  split; [|split; [|split; [|split; [|split]]]].
  - intros e args. rewrite Fields_node. simpl. rewrite <- app_assoc. reflexivity.
  - intros e ds. rewrite DetailsOf_node. simpl. rewrite <- app_assoc. reflexivity.
  - intros e ds1 ds2. unfold WithDetails. simpl. rewrite app_assoc. reflexivity.
  - intros e a1 a2. simpl. rewrite <- app_assoc. reflexivity.
  - intros err args w Hw. injection Hw as <-.
    rewrite Fields_node, DetailsOf_node. split; reflexivity.
  - intros e args ds c captured. rewrite !Fields_node, !DetailsOf_node.
    repeat split.
Qed.

Lemma Fields_DetailsOf_accumulate_witness :
  exists w : Error,
    Wrap (Some (err_Error (New "inner" [any_Attr k1]))) [any_Attr k2] = Some w
    /\ Fields (Some (err_Error w)) = [k2; k1].
Proof.
  eexists. split; [reflexivity|].
  destruct Fields_DetailsOf_accumulate as (_ & _ & _ & _ & Hwrap & _).
  destruct (Hwrap (err_Error (New "inner" [any_Attr k1])) [any_Attr k2] _ eq_refl)
    as [Hf _].
  rewrite Hf. reflexivity.
Defined.

(** X5.  Codes under the mutators: [With], [WithDetails] and [WithStack]
    keep the resolved code; [WithCode] with the empty code removes the
    node's own code, so that the node resolves to the code of its cause
    again; a node made by [Wrap] or [Wrapf] resolves to the code of the
    wrapped error; [CodeOf] of a node is its [Code()], and [IsCode] tests
    equality with it. *)
Theorem Code_under_mutators :
  (forall (e : Error) (args ds : list any) (captured : list Frame),
      Error_Code (With e args) = Error_Code e
      /\ Error_Code (WithDetails e ds) = Error_Code e
      /\ Error_Code (WithStack captured e) = Error_Code e) /\
  (forall e : Error, Error_Code (WithCode e "") = CodeOf (cause e)) /\
  (forall (e : Error) (c1 c2 : Code), WithCode (WithCode e c1) c2 = WithCode e c2) /\
  (forall (err : error) (args : list any) (w : Error),
      Wrap (Some err) args = Some w -> Error_Code w = CodeOf (Some err)) /\
  (forall (sprintf : string -> list any -> string) (err : error) (format : string)
          (fmtArgs : list any) (w : Error),
      Wrapf sprintf (Some err) format fmtArgs = Some w ->
      Error_Code w = CodeOf (Some err)) /\
  (forall e : Error, CodeOf (Some (err_Error e)) = Error_Code e) /\
  (forall (err : option error) (c : Code), IsCode err c = true <-> CodeOf err = c).
Proof.
  split; [|split; [|split; [|split; [|split; [|split]]]]].
  - intros e args ds captured. repeat split.
  - intros e. reflexivity.
  - intros e c1 c2. reflexivity.
  - intros err args w Hw. injection Hw as <-. reflexivity.
  - intros sprintf err format fmtArgs w Hw. injection Hw as <-. reflexivity.
  - intros e. apply CodeOf_error_Error.
  - intros err c. unfold IsCode. apply bool_decide_eq_true.
Qed.

Lemma Code_under_mutators_witness :
  exists w : Error,
    Wrap (Some (err_Sentinel (NewSentinel "payment required" "payment_required")))
      [any_string "plan"; any_string "premium"] = Some w
    /\ Error_Code w = "payment_required"%string.
Proof.
  eexists. split; [reflexivity|].
  destruct Code_under_mutators as (_ & _ & _ & Hwrap & _).
  apply (Hwrap (err_Sentinel (NewSentinel "payment required" "payment_required"))
           [any_string "plan"; any_string "premium"] _ eq_refl).
Defined.

Lemma wrap_all_Some (argss : list (list any)) (err : error) :
  exists w : error, wrap_all argss (Some err) = Some w.
Proof.
  induction argss as [|args rest IH]; simpl; [eauto|].
  destruct IH as [w ->]. simpl. eauto.
Qed.

(** X6.  Wrapping any number of times keeps the code and the rendered
    message of the wrapped error, adds no details, and puts the wrappers'
    fields, outermost first, in front of its fields.  In particular a
    sentinel wrapped any number of times still resolves to its code and
    message. *)
Theorem wrap_all_transparent (argss : list (list any)) (err : error) :
  exists w : error,
    wrap_all argss (Some err) = Some w
    /\ CodeOf (Some w) = CodeOf (Some err)
    /\ error_Error w = error_Error err
    /\ DetailsOf (Some w) = DetailsOf (Some err)
    /\ Fields (Some w) = concat (map argsToAttrs argss) ++ Fields (Some err)
    /\ (forall s : SentinelError,
          err = err_Sentinel s ->
          CodeOf (Some w) = s_code s /\ error_Error w = s_msg s).
Proof.
  induction argss as [|args rest IH]; simpl.
  - exists err. split; [reflexivity|]. split; [reflexivity|].
    split; [reflexivity|]. split; [reflexivity|]. split; [reflexivity|].
    intros s ->. split; reflexivity.
  - destruct IH as (w & Hw & Hc & He & Hd & Hf & Hs). rewrite Hw. simpl.
    eexists. split; [reflexivity|].
    split; [exact Hc|]. split; [exact He|].
    split; [rewrite DetailsOf_node; exact Hd|].
    split.
    + rewrite Fields_node. simpl. rewrite Hf, app_assoc. reflexivity.
    + intros s Hs'. destruct (Hs s Hs') as [H1 H2]. split; assumption.
Qed.

Lemma StackOf_loop_first (fuel : nat) :
  forall err : option error,
    depth_opt err <= fuel ->
    StackOf_loop fuel err = Some (err ≫= first_stack).
Proof.
  induction fuel as [|fuel IH]; intros [er|] Hfuel; simpl; try reflexivity.
  - destruct er; simpl in Hfuel; lia.
  - assert (Has : match errors_As_Error er with
                  | Some ex =>
                      first_stack er
                      = match stack ex with
                        | Some s => Some s
                        | None => cause ex ≫= first_stack
                        end
                      /\ depth_opt (cause ex) < depth er
                  | None => first_stack er = None
                  end).
    { clear. induction er as [e IHe | s | m oc u IHe] using error_chain_ind; simpl.
      - split; [|destruct (cause e); simpl; lia].
        destruct (stack e); [reflexivity|]. destruct (cause e); reflexivity.
      - reflexivity.
      - destruct u as [c|]; [|reflexivity]. specialize (IHe c eq_refl).
        destruct (errors_As_Error c); [|exact IHe].
        destruct IHe as [H1 H2]. split; [exact H1 | lia]. }
    destruct (errors_As_Error er) as [ex|].
    + destruct Has as [Hfirst Hd]. rewrite Hfirst.
      destruct (stack ex); [reflexivity|].
      apply IH. simpl in Hfuel. lia.
    + rewrite Has. reflexivity.
Qed.

Lemma StackOf_first (err : option error) : StackOf err = err ≫= first_stack.
Proof. unfold StackOf. rewrite StackOf_loop_first by lia. reflexivity. Qed.

(** X7.  [StackOf] returns the stack of the outermost node that has one,
    looking through foreign errors as [Fields] does: [WithStack] makes the
    captured stack the one found, whatever the cause holds; a node without
    a stack of its own yields the stack found behind it; [With], [WithCode]
    and [WithDetails] do not change the stack found; [Frames] of the nil
    result is empty. *)
Theorem StackOf_outermost :
  (forall err : option error, StackOf err = err ≫= first_stack) /\
  (forall (captured : list Frame) (e : Error),
      StackOf (Some (err_Error (WithStack captured e))) = Some (mkStack captured)) /\
  (forall e : Error,
      stack e = None -> StackOf (Some (err_Error e)) = StackOf (cause e)) /\
  (forall (err : error) (args : list any) (w : Error),
      Wrap (Some err) args = Some w ->
      StackOf (Some (err_Error w)) = StackOf (Some err)) /\
  (forall (e : Error) (args ds : list any) (c : Code),
      StackOf (Some (err_Error (With e args))) = StackOf (Some (err_Error e))
      /\ StackOf (Some (err_Error (WithCode e c))) = StackOf (Some (err_Error e))
      /\ StackOf (Some (err_Error (WithDetails e ds))) = StackOf (Some (err_Error e))) /\
  (forall (m : string) (oc : option Code) (u : error),
      StackOf (Some (err_foreign m oc (Some u))) = StackOf (Some u)) /\
  Frames (StackOf None) = [].
Proof.
  split; [exact StackOf_first|].
  split; [|split; [|split; [|split; [|split]]]].
  - intros captured e. rewrite StackOf_first. reflexivity.
  - intros e He. rewrite !StackOf_first. simpl. rewrite He.
    destruct (cause e); reflexivity.
  - intros err args w Hw. injection Hw as <-. rewrite !StackOf_first. reflexivity.
  - intros e args ds c. rewrite !StackOf_first. repeat split.
  - intros m oc u. rewrite !StackOf_first. reflexivity.
  - reflexivity.
Qed.

Lemma StackOf_outermost_witness :
  StackOf
    (Some (err_Error
             {| msg := "outer";
                cause := Some (err_foreign "handler: inner" None
                                 (Some (err_Error
                                          (WithStack [mkFrame "main.run" "main.go" 42]
                                             (New "inner" [])))));
                code := ""; fields := []; stack := None; details := [] |}))
  = Some (mkStack [mkFrame "main.run" "main.go" 42]).
Proof.
  destruct StackOf_outermost as (_ & Hstack & Hnone & _ & _ & Hforeign & _).
  rewrite Hnone by reflexivity. simpl cause.
  rewrite Hforeign. apply Hstack.
Defined.

Lemma captureStack_loop_filter (rframes acc : list Frame) :
  rframes <> [] ->
  captureStack_loop rframes acc = acc ++ filter (fun f => negb (is_runtime f)) rframes.
Proof.
  revert acc. induction rframes as [|f rest IH]; intros acc Hne; [congruence|].
  destruct rest as [|g rest'].
  - rewrite filter_cons, filter_nil. unfold is_runtime. simpl captureStack_loop.
    destruct (String.prefix "runtime." (Function f)); simpl negb.
    + rewrite decide_False by (intros Hc; exact Hc). rewrite app_nil_r. reflexivity.
    + rewrite decide_True by exact I. reflexivity.
  - change (captureStack_loop (f :: g :: rest') acc)
      with (if String.prefix "runtime." (Function f)
            then captureStack_loop (g :: rest') acc
            else captureStack_loop (g :: rest') (acc ++ [f])).
    rewrite filter_cons.
    destruct (String.prefix "runtime." (Function f)) eqn:Hp.
    + rewrite decide_False by (unfold is_runtime; rewrite Hp; intros Hc; exact Hc).
      apply IH. discriminate.
    + rewrite decide_True by (unfold is_runtime; rewrite Hp; exact I).
      rewrite IH by discriminate. rewrite <- app_assoc. reflexivity.
Qed.

(** X8.  [captureStack] keeps, in order, exactly the frames whose function
    name does not start with runtime. : no runtime frame is ever recorded,
    no other frame is dropped, and nothing is invented. *)
Theorem captureStack_filters (rframes : list Frame) :
  frames (captureStack rframes) = filter (fun f => negb (is_runtime f)) rframes
  /\ Forall (fun f => is_runtime f = false) (frames (captureStack rframes))
  /\ length (frames (captureStack rframes)) <= length rframes.
Proof.
  assert (Heq : frames (captureStack rframes)
                = filter (fun f => negb (is_runtime f)) rframes).
  { destruct rframes as [|f rest]; [reflexivity|].
    change (frames (captureStack (f :: rest))) with (captureStack_loop (f :: rest) []).
    rewrite (captureStack_loop_filter (f :: rest) []) by (intros Hc; discriminate Hc).
    reflexivity. }
  split; [exact Heq|]. rewrite Heq. split.
  - apply Forall_forall. intros f Hf. apply list_elem_of_filter in Hf as [Hf _].
    destruct (is_runtime f); simpl in Hf; [destruct Hf | reflexivity].
  - apply length_filter.
Qed.


(** ** Logging *)

Lemma filter_no_empty_group (attrs : list slog_Attr) :
  Forall (fun a => isEmptyGroup a.2 = false) attrs ->
  filter (fun a : slog_Attr => negb (isEmptyGroup a.2)) attrs = attrs.
Proof.
  intros Hall. unfold slog_Attr in *.
  induction Hall as [|a l Ha Hl IH]; [reflexivity|].
  rewrite filter_cons, IH. rewrite decide_True; [reflexivity|].
  rewrite Ha. exact I.
Qed.

Lemma filter_all_empty_groups (attrs : list slog_Attr) :
  filter (fun a : slog_Attr => negb (isEmptyGroup a.2)) attrs = []
  <-> Forall (fun a => isEmptyGroup a.2 = true) attrs.
Proof.
  unfold slog_Attr in *. induction attrs as [|a l IH].
  - split; [constructor | reflexivity].
  - rewrite filter_cons. destruct (isEmptyGroup a.2) eqn:Ha.
    + rewrite decide_False by (simpl; tauto). rewrite IH. split.
      * intros Hl. constructor; [exact Ha | exact Hl].
      * intros Hl. inversion Hl; assumption.
    + rewrite decide_True by exact I. split; [discriminate|].
      intros Hl. inversion Hl as [|? ? Hx _]. rewrite Ha in Hx. discriminate Hx.
Qed.

Lemma GroupValue_fields (pre fs post : list slog_Attr) :
  Forall (fun a => isEmptyGroup a.2 = false) pre ->
  Forall (fun a => isEmptyGroup a.2 = false) post ->
  slog_GroupValue (pre ++ fs ++ post)
  = sv_group (pre ++ filter (fun a : slog_Attr => negb (isEmptyGroup a.2)) fs ++ post).
Proof.
  intros Hpre Hpost. unfold slog_GroupValue. f_equal.
  pose proof (filter_no_empty_group pre Hpre) as Epre.
  pose proof (filter_no_empty_group post Hpost) as Epost.
  unfold slog_Attr in *. rewrite !filter_app, Epre, Epost. reflexivity.
Qed.

Lemma caller_attrs_no_empty_group (s : option Stack) :
  Forall (fun a : slog_Attr => isEmptyGroup a.2 = false) (caller_attrs s).
Proof.
  unfold caller_attrs. destruct s as [st|]; [|constructor].
  destruct (Frames (Some st)); repeat constructor.
Qed.

Lemma caller_attrs_first_frame (s : option Stack) :
  caller_attrs s
  = match Frames s with
    | f :: _ =>
        [ ("caller"%string,
           sv_group
             [ ("function"%string, sv_any (any_string (Function f)));
               ("file"%string, sv_any (any_string (File f)));
               ("line"%string, sv_any (any_int (Line f))) ]) ]
    | [] => []
    end.
Proof.
  unfold caller_attrs. destruct s as [st|]; [|reflexivity].
  destruct (Frames (Some st)); reflexivity.
Qed.

Section LoggingFacts.
Variable group_of : nat -> option (list slog_Attr).

Lemma empty_group_field (a : Attr) :
  isEmptyGroup (log_attr group_of a).2 = true
  <-> exists (tag : nat) (attrs : list slog_Attr),
        Value a = any_other tag
        /\ group_of tag = Some attrs
        /\ Forall (fun x => isEmptyGroup x.2 = true) attrs.
Proof.
  unfold log_attr, slog_AnyValue. simpl.
  destruct (Value a) as [| | | | | | | | |tag];
    try (split; [discriminate | intros (? & ? & Hv & _); discriminate Hv]).
  destruct (group_of tag) as [attrs|] eqn:Htag.
  - unfold slog_GroupValue. simpl. split.
    + intros Hempty. exists tag, attrs. split; [reflexivity|]. split; [exact Htag|].
      apply filter_all_empty_groups.
      destruct (filter _ attrs); [reflexivity | discriminate Hempty].
    + intros (tag' & attrs' & Hv & Hg & Hall). injection Hv as <-.
      rewrite Htag in Hg. injection Hg as <-.
      apply filter_all_empty_groups in Hall. unfold slog_Attr in *.
      rewrite Hall. reflexivity.
  - split; [discriminate|].
    intros (tag' & attrs' & Hv & Hg & _). injection Hv as <-.
    rewrite Htag in Hg. discriminate Hg.
Qed.

(** X9.  [SlogAttr] of nil is the zero attribute.  Of a non-nil error it
    is the attribute error whose value is a group that holds, in this
    order: msg with the rendered message; code with the resolved code, only
    when that is non-empty; the fields of the chain, outermost first,
    without those whose value is an empty group, which [slog.GroupValue]
    removes; caller with function, file and line of the first frame of the
    first stack found, only when there is one.  A field is left out
    exactly when its value is a group that has no attribute or only
    attributes that are empty groups, so when no field of the chain is
    such a group all the fields are in the group; msg, code and caller are
    never left out.  For a [*Error] the group is its [LogValue]. *)
Theorem SlogAttr_group :
  SlogAttr group_of None = (""%string, sv_zero) /\
  (forall err : error,
      SlogAttr group_of (Some err)
      = ("error"%string,
         sv_group
           ([ ("msg"%string, sv_any (any_string (error_Error err))) ]
            ++ (if decide (CodeOf (Some err) = "") then []
                else [ ("code"%string, sv_any (any_string (CodeOf (Some err)))) ])
            ++ filter (fun a : slog_Attr => negb (isEmptyGroup a.2))
                 (map (log_attr group_of) (Fields (Some err)))
            ++ match Frames (StackOf (Some err)) with
               | f :: _ =>
                   [ ("caller"%string,
                      sv_group
                        [ ("function"%string, sv_any (any_string (Function f)));
                          ("file"%string, sv_any (any_string (File f)));
                          ("line"%string, sv_any (any_int (Line f))) ]) ]
               | [] => []
               end))) /\
  (forall a : Attr,
      isEmptyGroup (log_attr group_of a).2 = true
      <-> exists (tag : nat) (attrs : list slog_Attr),
            Value a = any_other tag
            /\ group_of tag = Some attrs
            /\ Forall (fun x => isEmptyGroup x.2 = true) attrs) /\
  (forall err : error,
      Forall (fun a : Attr => isEmptyGroup (log_attr group_of a).2 = false)
        (Fields (Some err)) ->
      filter (fun a : slog_Attr => negb (isEmptyGroup a.2))
        (map (log_attr group_of) (Fields (Some err)))
      = map (log_attr group_of) (Fields (Some err))) /\
  (forall e : Error,
      SlogAttr group_of (Some (err_Error e)) = ("error"%string, LogValue group_of e)).
Proof.
  split; [reflexivity|]. split; [|split; [exact empty_group_field|split]].
  - intros err. unfold SlogAttr. f_equal.
    rewrite <- app_assoc.
    rewrite GroupValue_fields.
    + rewrite caller_attrs_first_frame.
      destruct (decide (CodeOf (Some err) = "")); rewrite <- ?app_assoc; reflexivity.
    + destruct (decide (CodeOf (Some err) = "")); repeat constructor.
    + apply caller_attrs_no_empty_group.
  - intros err Hall. apply filter_no_empty_group.
    apply Forall_fmap. exact Hall.
  - intros e. unfold SlogAttr, LogValue, Error_Error.
    change (CodeOf (Some (err_Error e))) with (CodeOf_error (err_Error e)).
    rewrite CodeOf_error_Error. reflexivity.
Qed.
End LoggingFacts.

Lemma SlogAttr_group_witness :
  SlogAttr sample_groups
    (Some (err_Error
             (New "m" [any_Attr (mkAttr "g" (any_other 0));
                       any_string "k"; any_string "v"])))
  = ("error"%string,
     sv_group [ ("msg"%string, sv_any (any_string "m"));
                ("k"%string, sv_any (any_string "v")) ]).
Proof.
  destruct (SlogAttr_group sample_groups) as (_ & Hgroup & _).
  rewrite Hgroup. reflexivity.
Defined.


(** ** The HTTP adapter *)

(** X10.  After [RegisterCode(c, status)] the code maps to the status and
    the status maps back to the code; every other code and every other
    status map as before.  So an earlier reverse entry of the code, under
    its former status, stays in place, and a status that belonged to
    another code now maps back to the registered one. *)
Theorem RegisterCode_lookup (tb : herr.tables) (c : Code) (status : Z) :
  herr.ToHTTPStatus (herr.RegisterCode c status tb) c = status /\
  herr.ToErrxCode (herr.RegisterCode c status tb) status = c /\
  herr.ToErrxCode (herr.RegisterCode c status tb)
    (herr.ToHTTPStatus (herr.RegisterCode c status tb) c) = c /\
  (forall c' : Code,
      c' <> c ->
      herr.ToHTTPStatus (herr.RegisterCode c status tb) c' = herr.ToHTTPStatus tb c') /\
  (forall status' : Z,
      status' <> status ->
      herr.ToErrxCode (herr.RegisterCode c status tb) status'
      = herr.ToErrxCode tb status').
Proof.
  unfold herr.ToHTTPStatus, herr.ToErrxCode, herr.RegisterCode. simpl.
  rewrite !lookup_insert_eq. repeat split.
  - intros c' Hne. rewrite lookup_insert_ne by congruence. reflexivity.
  - intros s' Hne. rewrite lookup_insert_ne by congruence. reflexivity.
Qed.

Lemma RegisterCode_lookup_witness :
  herr.ToErrxCode (herr.RegisterCode NotFound 410 herr.init) 404 = NotFound
  /\ herr.ToHTTPStatus (herr.RegisterCode "payment_required" 402 herr.init) NotFound = 404%Z.
Proof.
  split.
  - destruct (RegisterCode_lookup herr.init NotFound 410) as (_ & _ & _ & _ & Hrev).
    rewrite (Hrev 404%Z) by discriminate. reflexivity.
  - destruct (RegisterCode_lookup herr.init "payment_required" 402) as (_ & _ & _ & Hfwd & _).
    rewrite (Hfwd NotFound) by discriminate. reflexivity.
Defined.

Lemma fold_options (os : list std_option) :
  forall p : herr.ProblemDetail,
    fold_left (fun p (o : herr.ProblemDetailOption) => o p) (map to_option os) p
    = {| herr.pd_Type := last_type os (herr.pd_Type p);
         herr.pd_Title := herr.pd_Title p;
         herr.pd_Status := herr.pd_Status p;
         herr.pd_Detail := herr.pd_Detail p;
         herr.pd_Instance := last_instance os (herr.pd_Instance p);
         herr.pd_Code := herr.pd_Code p;
         herr.pd_Errors := herr.pd_Errors p;
         herr.pd_LocalizedMessage := herr.pd_LocalizedMessage p |}.
Proof.
  induction os as [|o os IH]; intros p.
  - destruct p. reflexivity.
  - simpl. rewrite IH. destruct o; reflexivity.
Qed.

(** X11.  The options [WithInstance] and [WithType] change nothing but the
    instance and the type: with any list of them the status, title,
    detail, code and errors are those of the conversion without options;
    the instance is that of the last [WithInstance] (empty when there is
    none) and the type that of the last [WithType] (about:blank when there
    is none). *)
Theorem ToProblemDetail_options (tb : herr.tables) (err : error)
    (os : list std_option) :
  exists p0 p : herr.ProblemDetail,
    herr.ToProblemDetail tb (Some err) [] = Some p0
    /\ herr.ToProblemDetail tb (Some err) (map to_option os) = Some p
    /\ herr.pd_Status p = herr.pd_Status p0
    /\ herr.pd_Title p = herr.pd_Title p0
    /\ herr.pd_Detail p = herr.pd_Detail p0
    /\ herr.pd_Code p = herr.pd_Code p0
    /\ herr.pd_Errors p = herr.pd_Errors p0
    /\ herr.pd_LocalizedMessage p = None
    /\ herr.pd_Instance p = last_instance os ""
    /\ herr.pd_Type p = last_type os "about:blank".
Proof.
  unfold herr.ToProblemDetail. eexists _, _.
  split; [reflexivity|]. split; [reflexivity|].
  rewrite fold_options. simpl. repeat split.
Qed.

Lemma toDetailJSON_canonical (d : any) :
  match herr.toDetailJSON d with
  | Some m =>
      is_canonical d = true
      /\ exists t : string, m !! "type"%string = Some (herr.j_string t) /\ t ∈ detail_types
  | None => is_canonical d = false
  end.
Proof.
  destruct d; simpl; try reflexivity; (split; [reflexivity|]);
    eexists; (split; [vm_compute; reflexivity|]);
    apply list_elem_of_In; simpl; tauto.
Qed.

Lemma omap_length_filter {A B : Type} (f : A -> option B) (p : A -> bool) (l : list A) :
  (forall x, is_Some (f x) <-> p x = true) ->
  length (omap f l) = length (filter (fun x => p x = true) l).
Proof.
  intros Hfp. induction l as [|x l IH]; [reflexivity|].
  rewrite filter_cons. simpl. pose proof (Hfp x) as Hx.
  destruct (f x) as [y|].
  - rewrite decide_True by (apply Hx; eauto). simpl. f_equal. exact IH.
  - rewrite decide_False; [exact IH|].
    intros Hp. apply Hx in Hp. destruct Hp as [? Hp]. discriminate Hp.
Qed.

(** X12.  The errors member of a problem detail holds one object for each
    detail of the chain that is of one of the four kinds of details.go, in
    the order of [DetailsOf], each tagged with its kind under the key type;
    every other detail (a protobuf message included) is left out.  The gRPC
    adapter converts the same four kinds and in addition passes a protobuf
    message through unchanged; it converts nothing else. *)
Theorem details_carried (tb : herr.tables) (err : error) :
  (exists p : herr.ProblemDetail,
      herr.ToProblemDetail tb (Some err) [] = Some p
      /\ herr.pd_Errors p = omap herr.toDetailJSON (DetailsOf (Some err))
      /\ length (herr.pd_Errors p)
         = length (filter (fun d => is_canonical d = true) (DetailsOf (Some err)))
      /\ Forall (fun m : gmap string herr.jsonval =>
                   exists t : string,
                     m !! "type"%string = Some (herr.j_string t) /\ t ∈ detail_types)
           (herr.pd_Errors p)) /\
  (forall d : any, is_Some (herr.toDetailJSON d) <-> is_canonical d = true) /\
  (forall d : any,
      is_Some (gerr.toProtoDetail d) <-> is_canonical d = true \/ is_proto d = true) /\
  (forall m : ProtoMessage, gerr.toProtoDetail (any_proto m) = Some m).
Proof.
  assert (Hjson : forall d : any, is_Some (herr.toDetailJSON d) <-> is_canonical d = true).
  { intros d. pose proof (toDetailJSON_canonical d) as Hd.
    destruct (herr.toDetailJSON d) as [m|].
    - destruct Hd as [Hc _]. split; [intros _; exact Hc | eauto].
    - split; [intros [? Hx]; discriminate Hx | intros Hc; congruence]. }
  split; [|split; [exact Hjson|split]].
  - eexists. split; [reflexivity|]. simpl. split; [reflexivity|]. split.
    + apply omap_length_filter. exact Hjson.
    + apply Forall_forall. intros m Hm.
      apply list_elem_of_omap in Hm as (d & _ & Hd).
      pose proof (toDetailJSON_canonical d) as Hcan. rewrite Hd in Hcan.
      exact (proj2 Hcan).
  - intros d. destruct d; simpl; split; intros Hx;
      try (destruct Hx as [? Hx]; discriminate Hx);
      try (destruct Hx as [Hx | Hx]; discriminate Hx); eauto.
  - reflexivity.
Qed.


(** Reading a key of a map literal. *)
Ltac read_key k H :=
  let H' := fresh "Hkey" in
  pose proof (f_equal (fun m : gmap string herr.jsonval => m !! k) H) as H';
  cbv beta in H';
  rewrite ?list_to_map_cons in H';
  repeat match type of H' with
         | context [ <[?i:=?x]> ?m !! ?j ] =>
             tryif unify i j
             then rewrite (lookup_insert_eq m i x) in H'
             else rewrite (lookup_insert_ne m i j x) in H' by discriminate
         end;
  apply (inj Some) in H'.

Lemma map_injective {A B : Type} (f : A -> B) (l1 l2 : list A) :
  (forall x y, f x = f y -> x = y) -> map f l1 = map f l2 -> l1 = l2.
Proof.
  intros Hf. revert l2. induction l1 as [|x l1 IH]; intros [|y l2] Heq;
    try discriminate; [reflexivity|].
  injection Heq as Hxy Hrest. f_equal; [apply Hf, Hxy | apply IH, Hrest].
Qed.

(** X13.  The JSON object of a detail determines the detail: two details
    with the same object are the same detail, so the errors member loses
    nothing of the details it carries. *)
Theorem toDetailJSON_injective (d1 d2 : any) (m : gmap string herr.jsonval) :
  herr.toDetailJSON d1 = Some m -> herr.toDetailJSON d2 = Some m -> d1 = d2.
Proof.
  intros H1 H2.
  destruct d1; try discriminate H1; destruct d2; try discriminate H2;
    rewrite <- H2 in H1; clear H2 m; unfold herr.toDetailJSON in H1;
    apply (inj Some) in H1; try (read_key "type"%string H1; discriminate).
  - read_key "violations"%string H1. f_equal.
    eapply map_injective; [|injection Hkey as Hkey; exact Hkey].
    intros [f1 e1] [f2 e2] Hfv. simpl in Hfv.
    read_key "field"%string Hfv. read_key "description"%string Hfv. congruence.
  - read_key "violations"%string H1. f_equal.
    eapply map_injective; [|injection Hkey as Hkey; exact Hkey].
    intros [t1 s1 e1] [t2 s2 e2] Hpv. simpl in Hpv.
    read_key "type"%string Hpv. read_key "subject"%string Hpv.
    read_key "description"%string Hpv. congruence.
  - destruct d, d0. simpl in H1.
    read_key "resource_type"%string H1. read_key "resource_name"%string H1.
    read_key "owner"%string H1. read_key "description"%string H1. congruence.
  - destruct d, d0. simpl in H1.
    read_key "reason"%string H1. read_key "domain"%string H1.
    read_key "metadata"%string H1. congruence.
Qed.

Lemma toDetailJSON_injective_witness :
  BadRequest [mkFieldViolation "email" "invalid"] = FieldViolation "email" "invalid".
Proof.
  apply (toDetailJSON_injective
           (BadRequest [mkFieldViolation "email" "invalid"])
           (FieldViolation "email" "invalid")
           (default ∅ (herr.toDetailJSON (FieldViolation "email" "invalid"))));
    reflexivity.
Defined.



(** ** The gRPC and the Connect adapter *)

Lemma connect_tables_are_grpc_tables :
  cerr.errxToConnect = gerr.errxToGRPC /\ cerr.connectToErrx = gerr.grpcToErrx.
Proof. split; vm_compute; reflexivity. Qed.

Lemma errxToGRPC_entries :
  map_Forall (fun (c : Code) (g : N) =>
                (1 <= g <= 16)%N
                /\ gerr.ToErrxCode g = c
                /\ c ∈ well_known_codes)
    gerr.errxToGRPC.
Proof.
  apply map_Forall_to_list. vm_compute.
  repeat constructor; try discriminate;
    apply list_elem_of_In; simpl; tauto.
Qed.

Lemma errxToGRPC_well_known (c : Code) :
  c ∈ well_known_codes -> is_Some (gerr.errxToGRPC !! c).
Proof.
  revert c. apply Forall_forall. unfold well_known_codes.
  repeat constructor; vm_compute; eauto.
Qed.

Lemma code_range_cases (g : N) :
  (1 <= g <= 16)%N ->
  g ∈ [1; 2; 3; 4; 5; 6; 7; 8; 9; 10; 11; 12; 13; 14; 15; 16]%N.
Proof.
  intros Hg. apply list_elem_of_In.
  destruct g as [|p]; [lia|].
  do 5 (destruct p as [p|p|]; try lia; try (simpl; tauto)).
Qed.

Lemma grpc_code_facts :
  (forall c : Code,
      gerr.ToGRPCCode c <> gerr.OK /\ (1 <= gerr.ToGRPCCode c <= 16)%N) /\
  (forall c : Code, c ∉ well_known_codes -> gerr.ToGRPCCode c = gerr.codes_Unknown) /\
  (forall g : N, (1 <= g <= 16)%N -> gerr.ToGRPCCode (gerr.ToErrxCode g) = g) /\
  (forall c : Code,
      gerr.ToErrxCode (gerr.ToGRPCCode c)
      = (if decide (c ∈ well_known_codes) then c else Unknown)) /\
  (forall c : Code, gerr.ToGRPCCode (gerr.ToErrxCode (gerr.ToGRPCCode c)) = gerr.ToGRPCCode c) /\
  (forall c : Code, cerr.ToConnectCode c = gerr.ToGRPCCode c) /\
  (forall g : N, cerr.ToErrxCode g = gerr.ToErrxCode g).
Proof.
  assert (Hrange : forall c : Code, (1 <= gerr.ToGRPCCode c <= 16)%N).
  { intros c. unfold gerr.ToGRPCCode.
    destruct (gerr.errxToGRPC !! c) as [g|] eqn:Hc.
    - exact (proj1 (errxToGRPC_entries c g Hc)).
    - vm_compute. split; discriminate. }
  assert (Hinv : forall g : N, (1 <= g <= 16)%N ->
                               gerr.ToGRPCCode (gerr.ToErrxCode g) = g).
  { intros g Hg. apply code_range_cases in Hg.
    revert g Hg. apply Forall_forall. repeat constructor. }
  assert (Hback : forall c : Code,
             gerr.ToErrxCode (gerr.ToGRPCCode c)
             = (if decide (c ∈ well_known_codes) then c else Unknown)).
  { intros c. unfold gerr.ToGRPCCode.
    destruct (gerr.errxToGRPC !! c) as [g|] eqn:Hc.
    - destruct (errxToGRPC_entries c g Hc) as (_ & Hg & Hwk).
      rewrite decide_True by exact Hwk. exact Hg.
    - rewrite decide_False; [reflexivity|].
      intros Hwk. apply errxToGRPC_well_known in Hwk. rewrite Hc in Hwk.
      destruct Hwk as [? Hwk]. discriminate Hwk. }
  split; [|split; [|split; [exact Hinv|split; [exact Hback|split; [|split]]]]].
  - intros c. split; [|exact (Hrange c)].
    pose proof (Hrange c) as Hr. unfold gerr.OK. lia.
  - intros c Hc. unfold gerr.ToGRPCCode.
    destruct (gerr.errxToGRPC !! c) as [g|] eqn:Hg; [|reflexivity].
    destruct Hc. exact (proj2 (proj2 (errxToGRPC_entries c g Hg))).
  - intros c. apply Hinv, Hrange.
  - intros c. unfold cerr.ToConnectCode, gerr.ToGRPCCode.
    rewrite (proj1 connect_tables_are_grpc_tables). reflexivity.
  - intros g. unfold cerr.ToErrxCode, gerr.ToErrxCode.
    rewrite (proj2 connect_tables_are_grpc_tables). reflexivity.
Qed.

(** X15.  The gRPC code of an error code is never OK: it lies between 1
    and 16, and it is Unknown for every code that is not one of the sixteen
    built-in ones.  On the codes 1 to 16 and the built-in codes the two
    tables are inverse to each other, so mapping a code forth and back
    keeps a built-in code and turns any other into unknown.  The Connect
    tables are the same tables. *)
Theorem grpc_code_tables :
  (forall c : Code,
      gerr.ToGRPCCode c <> gerr.OK /\ (1 <= gerr.ToGRPCCode c <= 16)%N) /\
  (forall c : Code, c ∉ well_known_codes -> gerr.ToGRPCCode c = gerr.codes_Unknown) /\
  (forall g : N, (1 <= g <= 16)%N -> gerr.ToGRPCCode (gerr.ToErrxCode g) = g) /\
  (forall c : Code,
      gerr.ToErrxCode (gerr.ToGRPCCode c)
      = (if decide (c ∈ well_known_codes) then c else Unknown)) /\
  (forall c : Code, gerr.ToGRPCCode (gerr.ToErrxCode (gerr.ToGRPCCode c)) = gerr.ToGRPCCode c) /\
  (forall c : Code, cerr.ToConnectCode c = gerr.ToGRPCCode c) /\
  (forall g : N, cerr.ToErrxCode g = gerr.ToErrxCode g).
Proof. exact grpc_code_facts. Qed.

Lemma grpc_code_tables_witness :
  gerr.ToGRPCCode "payment_required" = gerr.codes_Unknown
  /\ gerr.ToGRPCCode (gerr.ToErrxCode 5%N) = 5%N.
Proof.
  destruct grpc_code_tables as (_ & Hcustom & Hinv & _). split.
  - apply Hcustom. rewrite list_elem_of_In. vm_compute.
    intros Hin. repeat (destruct Hin as [Hin | Hin]; [discriminate Hin|]). exact Hin.
  - apply Hinv. lia.
Defined.


Section Statuses.
Context `{AnyCodec}.

Lemma ToStatus_details (err : error) :
  gerr.st_details (gerr.ToStatus (Some err))
  = match mapM anypb_New (omap gerr.toProtoDetail (DetailsOf (Some err))) with
    | Some packed => packed
    | None => []
    end.
Proof.
  pose proof (proj1 (proj1 grpc_code_facts (CodeOf (Some err)))) as HnotOK.
  unfold gerr.ToStatus.
  destruct (decide (0 < length _)) as [Hlen | Hlen].
  - unfold gerr.Status_WithDetails. simpl gerr.st_code.
    rewrite decide_False by exact HnotOK.
    destruct (mapM _ _); reflexivity.
  - destruct (omap gerr.toProtoDetail (DetailsOf (Some err))); [reflexivity|].
    simpl in Hlen. lia.
Qed.

Lemma ToConnectError_details (err : error) :
  exists ce : cerr.ConnectError,
    cerr.ToConnectError (Some err) = Some ce
    /\ cerr.ce_details ce
       = cerr.mkErrorDetail
         <$> omap anypb_New (omap cerr.toProtoDetail (DetailsOf (Some err))).
Proof.
  unfold cerr.ToConnectError. eexists. split; [reflexivity|].
  assert (Hfold : forall (ds : list any) (ce0 : cerr.ConnectError),
             cerr.ce_details
               (fold_left
                  (fun ce d =>
                     match cerr.toProtoDetail d with
                     | None => ce
                     | Some pm =>
                         match cerr.connect_NewErrorDetail pm with
                         | None => ce
                         | Some detail => cerr.AddDetail detail ce
                         end
                     end) ds ce0)
             = cerr.ce_details ce0
               ++ (cerr.mkErrorDetail <$> omap anypb_New (omap cerr.toProtoDetail ds))).
  { induction ds as [|d ds IH]; intros ce0; simpl.
    - rewrite app_nil_r. reflexivity.
    - rewrite IH. destruct (cerr.toProtoDetail d) as [pm|]; [|reflexivity].
      unfold cerr.connect_NewErrorDetail. simpl.
      destruct (anypb_New pm); simpl; [|reflexivity].
      rewrite <- app_assoc. reflexivity. }
  rewrite Hfold. reflexivity.
Qed.

(** X16.  Details on the way out.  [ToStatus] attaches the details all
    or none: when every convertible detail packs, the status carries them
    in order; when one of them fails to pack, the status carries no detail
    at all.  [ToConnectError] decides detail by detail: it carries those
    that pack and leaves out only the others.  Neither ever fails. *)
Theorem details_on_the_way_out (err : error) :
  gerr.st_details (gerr.ToStatus (Some err))
  = match mapM anypb_New (omap gerr.toProtoDetail (DetailsOf (Some err))) with
    | Some packed => packed
    | None => []
    end /\
  exists ce : cerr.ConnectError,
    cerr.ToConnectError (Some err) = Some ce
    /\ cerr.ce_details ce
       = cerr.mkErrorDetail
         <$> omap anypb_New (omap cerr.toProtoDetail (DetailsOf (Some err))).
Proof. split; [apply ToStatus_details | apply ToConnectError_details]. Qed.

(** X17.  No error is lost or turned into success: for every non-nil
    error [ToStatus] gives a status that is not OK, and the three reverse
    conversions give back a node with the same rendered message.  The code
    that comes back is the error's own when it is one of the sixteen
    built-in codes; any other code (the empty one included) comes back as
    unknown from gRPC and Connect, while HTTP gives back every non-empty
    code unchanged, whatever the tables hold, and unknown for the empty
    one. *)
Theorem every_error_round_trip (tb : herr.tables) (err : error) :
  gerr.st_code (gerr.ToStatus (Some err)) <> gerr.OK /\
  (exists e : Error,
      gerr.FromStatus (Some (gerr.ToStatus (Some err))) = Some e
      /\ Error_Error e = error_Error err
      /\ Error_Code e
         = (if decide (CodeOf (Some err) ∈ well_known_codes) then CodeOf (Some err)
            else Unknown)) /\
  (exists (ce : cerr.ConnectError) (e : Error),
      cerr.ToConnectError (Some err) = Some ce
      /\ cerr.FromConnectError (Some ce) = Some e
      /\ Error_Error e = error_Error err
      /\ Error_Code e
         = (if decide (CodeOf (Some err) ∈ well_known_codes) then CodeOf (Some err)
            else Unknown)) /\
  (exists (p : herr.ProblemDetail) (e : Error),
      herr.ToProblemDetail tb (Some err) [] = Some p
      /\ herr.FromProblemDetail tb (Some p) = Some e
      /\ Error_Error e = error_Error err
      /\ Error_Code e
         = (if decide (CodeOf (Some err) = "") then Unknown else CodeOf (Some err))).
Proof.
  destruct grpc_code_facts as (HnotOK & _ & _ & Hback & _ & Hcc & Hce).
  assert (Hne : (if decide (CodeOf (Some err) ∈ well_known_codes)
                 then CodeOf (Some err) else Unknown) <> "").
  { destruct (decide _) as [Hwk|]; [|discriminate].
    pose proof well_known_code_facts as Hf. rewrite Forall_forall in Hf.
    exact (proj1 (Hf _ Hwk)). }
  destruct (ToStatus_code_message err) as [Hc Hm].
  split; [rewrite Hc; exact (proj1 (HnotOK _))|]. split; [|split].
  - destruct (FromStatus_not_OK (gerr.ToStatus (Some err)))
      as (e & He & Hmsg & Hcode & Hcause & _).
    { rewrite Hc. exact (proj1 (HnotOK _)). }
    exists e. split; [exact He|]. split.
    + rewrite Error_Error_no_cause by exact Hcause. rewrite Hmsg, Hm. reflexivity.
    + apply Error_Code_own; [exact Hne|]. rewrite Hcode, Hc. apply Hback.
  - destruct (ToConnectError_code_err err) as (ce & Hce' & Hcode' & Herr).
    destruct (FromConnectError_Some ce) as (e & He & Hmsg & Hcode & Hcause & _).
    exists ce, e. split; [exact Hce'|]. split; [exact He|]. split.
    + rewrite Error_Error_no_cause by exact Hcause. rewrite Hmsg.
      unfold cerr.Message. rewrite Herr. reflexivity.
    + apply Error_Code_own; [exact Hne|].
      rewrite Hcode, Hcode', Hce, Hcc. apply Hback.
  - eexists _, _. split; [reflexivity|]. split; [reflexivity|]. split; [reflexivity|].
    simpl. destruct (decide (CodeOf_error err = "")) as [He|He].
    + reflexivity.
    + rewrite (decide_False (P := CodeOf_error err = "")) by exact He.
      apply Error_Code_own; [exact He | reflexivity].
Qed.

Lemma mapM_unpack (ms : list ProtoMessage) (packed : list Any) :
  codec_round_trips ->
  mapM anypb_New ms = Some packed ->
  map (fun a => match Any_UnmarshalNew a with
                | inl m => any_proto m
                | inr e => any_error e
                end) packed
  = any_proto <$> ms.
Proof.
  intros Hcodec Hpack. apply mapM_Some in Hpack.
  induction Hpack as [|m a ms packed Hm _ IH]; [reflexivity|].
  simpl. rewrite (Hcodec m a Hm), IH. reflexivity.
Qed.

Lemma omap_toProtoDetail_proto (ms : list ProtoMessage) :
  omap gerr.toProtoDetail (any_proto <$> ms) = ms.
Proof. induction ms as [|m ms IH]; [reflexivity|]. simpl. f_equal. exact IH. Qed.

(** X18.  With a codec that unpacks what it packs, the gRPC round trip
    gives the details back as protobuf messages: the error recovered from
    [ToStatus] has, as its details, the messages of the convertible details
    of the original chain, in order (none when one of them failed to pack).
    Converting the recovered error again gives the very same status. *)
Theorem gRPC_round_trip_details (err : error) :
  codec_round_trips ->
  exists e : Error,
    gerr.FromStatus (Some (gerr.ToStatus (Some err))) = Some e
    /\ DetailsOf (Some (err_Error e))
       = match mapM anypb_New (omap gerr.toProtoDetail (DetailsOf (Some err))) with
         | Some _ => any_proto <$> omap gerr.toProtoDetail (DetailsOf (Some err))
         | None => []
         end
    /\ gerr.ToStatus (Some (err_Error e)) = gerr.ToStatus (Some err).
Proof.
  intros Hcodec.
  destruct grpc_code_facts as (HnotOK & _ & _ & _ & Hidem & _).
  destruct (ToStatus_code_message err) as [Hc Hm].
  pose proof (ToStatus_details err) as Hd.
  destruct (FromStatus_not_OK (gerr.ToStatus (Some err)))
    as (e & He & Hmsg & Hcode & Hcause & Hdet).
  { rewrite Hc. exact (proj1 (HnotOK _)). }
  assert (Hdetails : DetailsOf (Some (err_Error e))
            = match mapM anypb_New (omap gerr.toProtoDetail (DetailsOf (Some err))) with
              | Some _ => any_proto <$> omap gerr.toProtoDetail (DetailsOf (Some err))
              | None => []
              end).
  { rewrite (proj2 (Fields_DetailsOf_walk_opt (Some (err_Error e)))). simpl.
    rewrite Hcause, app_nil_r, Hdet. unfold gerr.Status_Details. rewrite Hd.
    destruct (mapM _ _) as [packed|] eqn:Hpack; [|reflexivity].
    apply (mapM_unpack _ _ Hcodec Hpack). }
  exists e. split; [exact He|]. split; [exact Hdetails|].
  destruct (ToStatus_code_message (err_Error e)) as [Hc' Hm'].
  pose proof (ToStatus_details (err_Error e)) as Hd'.
  assert (Hcode' : CodeOf (Some (err_Error e)) = gerr.ToErrxCode (gerr.ToGRPCCode (CodeOf (Some err)))).
  { change (CodeOf (Some (err_Error e))) with (CodeOf_error (err_Error e)).
    rewrite CodeOf_error_Error. unfold Error_Code. rewrite Hcause, Hcode, Hc.
    destruct (decide _) as [Hz|]; [|reflexivity]. simpl. symmetry. exact Hz. }
  assert (Herr' : error_Error (err_Error e) = error_Error err).
  { change (error_Error (err_Error e)) with (Error_Error e).
    rewrite Error_Error_no_cause by exact Hcause. rewrite Hmsg, Hm. reflexivity. }
  destruct (gerr.ToStatus (Some (err_Error e))) as [c2 m2 d2].
  destruct (gerr.ToStatus (Some err)) as [c1 m1 d1].
  simpl in *. subst c2 m2 c1 m1. f_equal.
  - rewrite Hcode'. apply Hidem.
  - exact Herr'.
  - rewrite Hd', Hd, Hdetails.
    destruct (mapM anypb_New (omap gerr.toProtoDetail (DetailsOf (Some err))))
      as [packed|] eqn:Hpack; [|reflexivity].
    rewrite omap_toProtoDetail_proto, Hpack. reflexivity.
Qed.
End Statuses.

Lemma opaque_codec_round_trips : @codec_round_trips opaque_codec.
Proof.
  intros m a Hm. destruct m; simpl in Hm; try discriminate Hm.
  destruct (decide (full_name = "")) as [|Hn]; [discriminate Hm|].
  injection Hm as <-. simpl. rewrite decide_False by exact Hn. reflexivity.
Qed.

Lemma gRPC_round_trip_details_witness :
  exists e : Error,
    @gerr.FromStatus opaque_codec
      (Some (@gerr.ToStatus opaque_codec (Some (err_Error quota_error)))) = Some e
    /\ DetailsOf (Some (err_Error e)) = [any_proto (pb_other "example.Quota" "limit=100")]
    /\ @gerr.ToStatus opaque_codec (Some (err_Error e))
       = @gerr.ToStatus opaque_codec (Some (err_Error quota_error)).
Proof.
  exact (@gRPC_round_trip_details opaque_codec (err_Error quota_error)
           opaque_codec_round_trips).
Defined.


(** ** Localized messages *)

Section Localized.
Context `{AnyCodec} `{Localizables}.
Context {Tag : Type} `{EqDecision Tag}.
Variable Und : Tag.
Variable Tag_String : Tag -> string.
Variable Ctx : Type.

Local Abbreviation append := (gerr_interceptor.appendLocalizedDetail Und Tag_String Ctx).

(** X19.  [appendLocalizedDetail] never returns nil for a non-nil error.
    It returns the error itself when no error of the chain is localizable,
    when no locale is found (neither by the locale function nor as default
    locale), or when the localized message is empty.  Otherwise it returns
    a [*Error] with one more detail, the localized message for the locale
    found: a copy of the first [*Error] of the chain, or a new wrapper when
    the chain has none.  The code and the rendered message are then those of
    that first [*Error], so an error standing in front of it no longer
    shows in them; they are those of the given error when it is a [*Error]
    itself or has none in its chain.  The Connect interceptor does the
    same. *)
Theorem appendLocalizedDetail_result (ctx : Ctx) (err : error)
    (localeFunc : Ctx -> string) (defaultLocale : Tag) :
  let locale := resolved_locale Und Tag_String (localeFunc ctx) defaultLocale in
  (exists r : error, append ctx (Some err) localeFunc defaultLocale = Some r) /\
  (errors_As_Localizable err = None ->
   append ctx (Some err) localeFunc defaultLocale = Some err) /\
  (locale = "" -> append ctx (Some err) localeFunc defaultLocale = Some err) /\
  (forall l : string -> string,
      errors_As_Localizable err = Some l -> l locale = "" ->
      append ctx (Some err) localeFunc defaultLocale = Some err) /\
  (forall l : string -> string,
      errors_As_Localizable err = Some l -> locale <> "" -> l locale <> "" ->
      exists base : Error,
        append ctx (Some err) localeFunc defaultLocale
        = Some (err_Error
                  (WithDetails base [any_proto (pb_LocalizedMessage locale (l locale))]))
        /\ match errors_As_Error err with
           | Some ex => base = ex
           | None => Wrap (Some err) [] = Some base
           end
        /\ DetailsOf (Some (err_Error
                  (WithDetails base [any_proto (pb_LocalizedMessage locale (l locale))])))
           = details base ++ [any_proto (pb_LocalizedMessage locale (l locale))]
             ++ DetailsOf (cause base)
        /\ CodeOf (Some (err_Error
                  (WithDetails base [any_proto (pb_LocalizedMessage locale (l locale))])))
           = CodeOf (Some (err_Error base))
        /\ Error_Error
             (WithDetails base [any_proto (pb_LocalizedMessage locale (l locale))])
           = Error_Error base
        /\ (no_wrapper_in_front err ->
            CodeOf (Some (err_Error base)) = CodeOf (Some err)
            /\ Error_Error base = error_Error err)) /\
  (forall (Header : Type) (header : Header) (lf : Header -> string),
      lf header = localeFunc ctx ->
      cerr_interceptor.appendLocalizedDetail Und Tag_String Header header (Some err) lf
        defaultLocale
      = append ctx (Some err) localeFunc defaultLocale).
Proof.
  intros locale.
  assert (Hloc : (if decide (localeFunc ctx = "" /\ defaultLocale <> Und)
                  then Tag_String defaultLocale else localeFunc ctx) = locale).
  { unfold locale, resolved_locale.
    destruct (decide (localeFunc ctx = "")) as [He|He].
    - destruct (decide (defaultLocale = Und)) as [Hd|Hd].
      + rewrite decide_False by tauto. exact He.
      + rewrite decide_True by tauto. reflexivity.
    - rewrite decide_False by tauto. reflexivity. }
  unfold gerr_interceptor.appendLocalizedDetail, cerr_interceptor.appendLocalizedDetail,
    gerr_interceptor.LocalizedMessage.
  rewrite Hloc.
  split; [|split; [|split; [|split; [|split]]]].
  - destruct (errors_As_Localizable err) as [l|]; [|eauto].
    destruct (decide (locale = "")); [eauto|].
    destruct (decide (l locale = "")); [eauto|].
    destruct (errors_As_Error err); simpl; eauto.
  - intros ->. reflexivity.
  - intros Hl. destruct (errors_As_Localizable err); [|reflexivity].
    rewrite decide_True by exact Hl. reflexivity.
  - intros l -> Hl. destruct (decide (locale = "")); [reflexivity|].
    rewrite decide_True by exact Hl. reflexivity.
  - intros l -> Hlocale Hl.
    rewrite decide_False by exact Hlocale. rewrite decide_False by exact Hl.
    destruct (errors_As_Error err) as [ex|] eqn:Hex.
    + exists ex. split; [reflexivity|]. split; [reflexivity|]. split.
      * rewrite (proj2 (Fields_DetailsOf_walk_opt (Some (err_Error _)))).
        rewrite (proj2 (Fields_DetailsOf_walk_opt (cause ex))). simpl.
        rewrite <- app_assoc. destruct (cause ex); reflexivity.
      * split; [reflexivity|]. split; [reflexivity|].
        intros [[e ->] | Hnone]; [|rewrite Hex in Hnone; discriminate Hnone].
        simpl in Hex. injection Hex as <-. split; reflexivity.
    + simpl. eexists. split; [reflexivity|]. split; [reflexivity|]. split.
      * rewrite (proj2 (Fields_DetailsOf_walk_opt (Some (err_Error _)))).
        rewrite (proj2 (Fields_DetailsOf_walk_opt (cause _))). reflexivity.
      * split; [reflexivity|]. split; [reflexivity|].
        intros _. split; reflexivity.
  - intros Header header lf ->. rewrite Hloc. reflexivity.
Qed.
End Localized.

Lemma appendLocalizedDetail_result_witness :
  exists base : Error,
    gerr_interceptor.appendLocalizedDetail (H0 := sample_localizables)
      "und"%string id string "ja"%string (Some wrapped_validation) id "und"%string
    = Some (err_Error
              (WithDetails base
                 [any_proto (pb_LocalizedMessage "ja" "meeru ga mukou desu")]))
    /\ errors_As_Error wrapped_validation = Some base
    /\ Error_Error base = "email is invalid"%string.
Proof.
  destruct (appendLocalizedDetail_result (H0 := sample_localizables)
              "und"%string id string "ja"%string wrapped_validation id "und"%string)
    as (_ & _ & _ & _ & Hloc & _).
  edestruct (Hloc _ eq_refl) as (base & Hr & Hbase & _).
  - vm_compute. discriminate.
  - vm_compute. discriminate.
  - exists base. split; [exact Hr|]. simpl in Hbase. subst base.
    split; reflexivity.
Defined.


(** ** Interceptors and middleware *)

Section Interceptors.
Context `{AnyCodec} `{Localizables}.
Context {Tag : Type} `{EqDecision Tag}.
Variable Und : Tag.
Variable Tag_String : Tag -> string.
Variable Ctx : Type.

(** What [appendLocalizedDetail] returns for a non-nil error: the error
    itself, or a copy with one more detail of the first [*Error] of the
    chain (of a new wrapper, when there is none). *)
Lemma appendLocalizedDetail_cases (ctx : Ctx) (err : error)
    (localeFunc : Ctx -> string) (defaultLocale : Tag) :
  exists r : error,
    gerr_interceptor.appendLocalizedDetail Und Tag_String Ctx ctx (Some err)
      localeFunc defaultLocale = Some r
    /\ (r = err
        \/ exists (base : Error) (d : any),
             r = err_Error (WithDetails base [d])
             /\ match errors_As_Error err with
                | Some ex => base = ex
                | None => Wrap (Some err) [] = Some base
                end).
Proof.
  unfold gerr_interceptor.appendLocalizedDetail.
  destruct (errors_As_Localizable err) as [l|]; [|eauto].
  destruct (decide (_ = "")); [eauto|].
  destruct (decide (l _ = "")); [eauto|].
  destruct (errors_As_Error err) as [ex|] eqn:Hex; simpl.
  - eexists. split; [reflexivity|]. right. eexists _, _. split; reflexivity.
  - eexists. split; [reflexivity|]. right. eexists _, _. split; reflexivity.
Qed.

Lemma appendLocalizedDetail_code_message (ctx : Ctx) (err : error)
    (localeFunc : Ctx -> string) (defaultLocale : Tag) :
  no_wrapper_in_front err ->
  exists r : error,
    gerr_interceptor.appendLocalizedDetail Und Tag_String Ctx ctx (Some err)
      localeFunc defaultLocale = Some r
    /\ CodeOf (Some r) = CodeOf (Some err)
    /\ error_Error r = error_Error err.
Proof.
  intros Hfront.
  destruct (appendLocalizedDetail_cases ctx err localeFunc defaultLocale)
    as (r & Hr & [-> | (base & d & -> & Hbase)]); exists r || eexists;
    (split; [exact Hr|]); [split; reflexivity|].
  destruct Hfront as [[e ->] | Hnone].
  - simpl in Hbase. subst base. split; reflexivity.
  - rewrite Hnone in Hbase. simpl in Hbase. injection Hbase as <-.
    split; reflexivity.
Qed.

Lemma cerr_appendLocalizedDetail_eq (Header : Type) (header : Header)
    (err : option error) (lf : Header -> string) (defaultLocale : Tag) :
  cerr_interceptor.appendLocalizedDetail Und Tag_String Header header err lf defaultLocale
  = gerr_interceptor.appendLocalizedDetail Und Tag_String Header header err lf
      defaultLocale.
Proof. reflexivity. Qed.

Lemma ToGRPCCode_not_OK (c : Code) : gerr.ToGRPCCode c <> gerr.OK.
Proof. exact (proj1 (proj1 grpc_code_facts c)). Qed.

(** X20.  The gRPC server interceptors keep the outcome of the handler.
    When the handler returns no error, the unary interceptor returns the
    response and no error and the stream interceptor returns no error.
    When the handler returns an error, both return a status error and the
    unary interceptor drops the response; the code of the status is never
    OK.  It is the gRPC code of the error and the message is the message of
    the error when no other error stands in front of the first [*Error]
    of its chain. *)
Theorem gRPC_interceptors_outcome (cfg : gerr_interceptor.interceptorConfig Ctx)
    (Req Resp Srv Stream : Type) (ctx : Ctx) (req : Req)
    (handler : Ctx -> Req -> option Resp * option error)
    (ss_ctx : Stream -> Ctx) (srv : Srv) (ss : Stream)
    (stream_handler : Srv -> Stream -> option error) :
  (forall resp : option Resp,
      handler ctx req = (resp, None) ->
      gerr_interceptor.UnaryServerInterceptor Und Tag_String Ctx cfg ctx req handler
      = (resp, None)) /\
  (stream_handler srv ss = None ->
   gerr_interceptor.StreamServerInterceptor Und Tag_String Ctx cfg ss_ctx srv ss
     stream_handler = None) /\
  (forall (resp : option Resp) (err : error),
      handler ctx req = (resp, Some err) ->
      exists s : gerr.Status,
        gerr_interceptor.UnaryServerInterceptor Und Tag_String Ctx cfg ctx req handler
        = (None, Some s)
        /\ gerr.st_code s <> gerr.OK
        /\ (no_wrapper_in_front err ->
            gerr.st_code s = gerr.ToGRPCCode (CodeOf (Some err))
            /\ gerr.st_message s = error_Error err)) /\
  (forall err : error,
      stream_handler srv ss = Some err ->
      exists s : gerr.Status,
        gerr_interceptor.StreamServerInterceptor Und Tag_String Ctx cfg ss_ctx srv ss
          stream_handler = Some s
        /\ gerr.st_code s <> gerr.OK
        /\ (no_wrapper_in_front err ->
            gerr.st_code s = gerr.ToGRPCCode (CodeOf (Some err))
            /\ gerr.st_message s = error_Error err)).
Proof.
  assert (Hto : forall (c : Ctx) (err : error),
             exists s : gerr.Status,
               gerr_interceptor.toStatusError Und Tag_String Ctx cfg c (Some err) = Some s
               /\ gerr.st_code s <> gerr.OK
               /\ (no_wrapper_in_front err ->
                   gerr.st_code s = gerr.ToGRPCCode (CodeOf (Some err))
                   /\ gerr.st_message s = error_Error err)).
  { intros c err. unfold gerr_interceptor.toStatusError.
    destruct (appendLocalizedDetail_cases c err (gerr_interceptor.localeFunc Ctx cfg)
                (gerr_interceptor.defaultLocale Ctx cfg)) as (r & Hr & _).
    rewrite Hr. destruct (ToStatus_code_message r) as [Hc Hm].
    assert (Hne : gerr.st_code (gerr.ToStatus (Some r)) <> gerr.OK).
    { rewrite Hc. apply ToGRPCCode_not_OK. }
    unfold gerr_interceptor.Status_Err. rewrite decide_False by exact Hne.
    eexists. split; [reflexivity|]. split; [exact Hne|].
    intros Hfront.
    destruct (appendLocalizedDetail_code_message c err
                (gerr_interceptor.localeFunc Ctx cfg)
                (gerr_interceptor.defaultLocale Ctx cfg) Hfront)
      as (r' & Hr' & Hcode & Hmsg).
    rewrite Hr in Hr'. injection Hr' as <-.
    rewrite Hc, Hm, Hcode, Hmsg. split; reflexivity. }
  split; [|split; [|split]].
  - intros resp Hh. unfold gerr_interceptor.UnaryServerInterceptor.
    rewrite Hh. reflexivity.
  - intros Hh. unfold gerr_interceptor.StreamServerInterceptor.
    rewrite Hh. reflexivity.
  - intros resp err Hh. unfold gerr_interceptor.UnaryServerInterceptor.
    rewrite Hh. destruct (Hto ctx err) as (s & Hs & Hrest).
    exists s. rewrite Hs. split; [reflexivity|exact Hrest].
  - intros err Hh. unfold gerr_interceptor.StreamServerInterceptor.
    rewrite Hh. destruct (Hto (ss_ctx ss) err) as (s & Hs & Hrest).
    exists s. rewrite Hs. split; [reflexivity|exact Hrest].
Qed.

End Interceptors.

Section ConnectInterceptor.
Context `{AnyCodec} `{Localizables}.
Context {Tag : Type} `{EqDecision Tag}.
Variable Und : Tag.
Variable Tag_String : Tag -> string.

(** X21.  The Connect interceptor keeps the outcome of the handler.  When
    [next] returns no error, [WrapUnary] returns the response and no error
    and [WrapStreamingHandler] returns no error.  When [next] returns an
    error, both return a Connect error and [WrapUnary] drops the response.
    The Connect error wraps the error that [next] returned, or the copy
    carrying the localized message; its code is the Connect code of the
    error when no other error stands in front of the first [*Error] of
    its chain. *)
Theorem Connect_interceptor_outcome (Header Req Resp Conn : Type)
    (localeFunc : Header -> string) (defaultLocale : Tag)
    (req_Header : Req -> Header) (next : Req -> option Resp * option error) (req : Req)
    (conn_RequestHeader : Conn -> Header) (stream_next : Conn -> option error)
    (conn : Conn) :
  (forall resp : option Resp,
      next req = (resp, None) ->
      cerr_interceptor.WrapUnary Und Tag_String Header localeFunc defaultLocale
        req_Header next req = (resp, None)) /\
  (stream_next conn = None ->
   cerr_interceptor.WrapStreamingHandler Und Tag_String Header localeFunc defaultLocale
     conn_RequestHeader stream_next conn = None) /\
  (forall (resp : option Resp) (err : error),
      next req = (resp, Some err) ->
      exists (ce : cerr.ConnectError) (sent : error),
        cerr_interceptor.WrapUnary Und Tag_String Header localeFunc defaultLocale
          req_Header next req = (None, Some ce)
        /\ cerr_interceptor.appendLocalizedDetail Und Tag_String Header (req_Header req)
             (Some err) localeFunc defaultLocale = Some sent
        /\ cerr.ce_err ce = Some sent
        /\ cerr.ce_code ce = cerr.ToConnectCode (CodeOf (Some sent))
        /\ (errors_As_Localizable err = None -> sent = err)
        /\ (no_wrapper_in_front err ->
            cerr.ce_code ce = cerr.ToConnectCode (CodeOf (Some err))
            /\ error_Error sent = error_Error err)) /\
  (forall err : error,
      stream_next conn = Some err ->
      exists (ce : cerr.ConnectError) (sent : error),
        cerr_interceptor.WrapStreamingHandler Und Tag_String Header localeFunc
          defaultLocale conn_RequestHeader stream_next conn = Some ce
        /\ cerr_interceptor.appendLocalizedDetail Und Tag_String Header
             (conn_RequestHeader conn) (Some err) localeFunc defaultLocale = Some sent
        /\ cerr.ce_err ce = Some sent
        /\ cerr.ce_code ce = cerr.ToConnectCode (CodeOf (Some sent))
        /\ (errors_As_Localizable err = None -> sent = err)
        /\ (no_wrapper_in_front err ->
            cerr.ce_code ce = cerr.ToConnectCode (CodeOf (Some err))
            /\ error_Error sent = error_Error err)).
Proof.
  assert (Hto : forall (h : Header) (err : error),
             exists (ce : cerr.ConnectError) (sent : error),
               cerr_interceptor.toConnectError Und Tag_String Header localeFunc
                 defaultLocale h (Some err) = Some ce
               /\ cerr_interceptor.appendLocalizedDetail Und Tag_String Header h
                    (Some err) localeFunc defaultLocale = Some sent
               /\ cerr.ce_err ce = Some sent
               /\ cerr.ce_code ce = cerr.ToConnectCode (CodeOf (Some sent))
               /\ (errors_As_Localizable err = None -> sent = err)
               /\ (no_wrapper_in_front err ->
                   cerr.ce_code ce = cerr.ToConnectCode (CodeOf (Some err))
                   /\ error_Error sent = error_Error err)).
  { intros h err. unfold cerr_interceptor.toConnectError.
    rewrite cerr_appendLocalizedDetail_eq.
    destruct (appendLocalizedDetail_cases Und Tag_String Header h err localeFunc
                defaultLocale)
      as (r & Hr & _).
    rewrite Hr. destruct (ToConnectError_code_err r) as (ce & Hce & Hcode & Herr).
    exists ce, r. split; [exact Hce|]. split; [reflexivity|].
    split; [exact Herr|]. split; [exact Hcode|]. split.
    - intros Hnone. revert Hr. unfold gerr_interceptor.appendLocalizedDetail.
      rewrite Hnone. congruence.
    - intros Hfront.
      destruct (appendLocalizedDetail_code_message Und Tag_String Header h err
                  localeFunc defaultLocale Hfront) as (r' & Hr' & Hc & Hm).
      rewrite Hr in Hr'. injection Hr' as <-.
      rewrite Hcode, Hc. split; [reflexivity|exact Hm]. }
  split; [|split; [|split]].
  - intros resp Hn. unfold cerr_interceptor.WrapUnary. rewrite Hn. reflexivity.
  - intros Hn. unfold cerr_interceptor.WrapStreamingHandler. rewrite Hn. reflexivity.
  - intros resp err Hn. unfold cerr_interceptor.WrapUnary. rewrite Hn.
    destruct (Hto (req_Header req) err) as (ce & sent & Hce & Hrest).
    exists ce, sent. rewrite Hce. split; [reflexivity|exact Hrest].
  - intros err Hn. unfold cerr_interceptor.WrapStreamingHandler. rewrite Hn.
    destruct (Hto (conn_RequestHeader conn) err) as (ce & sent & Hce & Hrest).
    exists ce, sent. rewrite Hce. split; [reflexivity|exact Hrest].
Qed.
End ConnectInterceptor.

Lemma gRPC_interceptors_outcome_witness :
  exists s : gerr.Status,
    gerr_interceptor.UnaryServerInterceptor (H := opaque_codec)
      (H0 := sample_localizables) "und"%string id string
      (gerr_interceptor.newInterceptorConfig "und"%string string id []) "ja"%string tt
      (fun _ _ => (Some tt, Some (err_Error quota_error)))
    = (None, Some s)
    /\ gerr.st_code s = gerr.codes_ResourceExhausted
    /\ gerr.st_message s = "quota exceeded"%string.
Proof.
  destruct (gRPC_interceptors_outcome (H := opaque_codec) (H0 := sample_localizables)
              "und"%string id string
              (gerr_interceptor.newInterceptorConfig "und"%string string id [])
              unit unit unit unit "ja"%string tt
              (fun _ _ => (Some tt, Some (err_Error quota_error)))
              (fun _ => "ja"%string) tt tt (fun _ _ => None))
    as (_ & _ & Herr & _).
  destruct (Herr (Some tt) (err_Error quota_error) eq_refl) as (s & Hs & _ & Hcm).
  exists s. split; [exact Hs|].
  destruct Hcm as [Hc Hm]; [left; eexists; reflexivity|].
  split; [rewrite Hc; reflexivity | rewrite Hm; reflexivity].
Defined.

Lemma Connect_interceptor_outcome_witness :
  exists ce : cerr.ConnectError,
    cerr_interceptor.WrapUnary (H := opaque_codec) (H0 := sample_localizables)
      "und"%string id string (fun h : string => h) "und"%string (fun _ : unit => "ja"%string)
      (fun _ => (Some tt, Some validation_error)) tt
    = (None, Some ce)
    /\ cerr.ce_code ce = cerr.ToConnectCode ""
    /\ (exists sent : error,
           cerr.ce_err ce = Some sent
           /\ error_Error sent = "email is invalid"%string).
Proof.
  destruct (Connect_interceptor_outcome (H := opaque_codec) (H0 := sample_localizables)
              "und"%string id string unit unit unit (fun h : string => h) "und"%string
              (fun _ : unit => "ja"%string)
              (fun _ => (Some tt, Some validation_error)) tt
              (fun _ : unit => "ja"%string) (fun _ => None) tt)
    as (_ & _ & Herr & _).
  destruct (Herr (Some tt) validation_error eq_refl)
    as (ce & sent & Hce & _ & Hsent & _ & _ & Hcm).
  exists ce. split; [exact Hce|].
  destruct Hcm as [Hc Hm]; [right; reflexivity|].
  split; [rewrite Hc; reflexivity|].
  exists sent. split; [exact Hsent | rewrite Hm; reflexivity].
Defined.


Section InterceptorOptions.
Context {Tag : Type}.
Variable Und : Tag.
Variable Ctx : Type.

Local Abbreviation run_options os cfg :=
  (fold_left (fun c (o : gerr_interceptor.InterceptorOption Ctx) => o c)
     (map to_interceptor_option os) cfg).

Lemma options_keep (os : list (interceptor_option Ctx Tag))
    (cfg : gerr_interceptor.interceptorConfig Ctx) :
  (Forall (fun o => sets_locale o = false) os ->
   gerr_interceptor.localeFunc Ctx (run_options os cfg)
   = gerr_interceptor.localeFunc Ctx cfg) /\
  (Forall (fun o => sets_default o = false) os ->
   gerr_interceptor.defaultLocale Ctx (run_options os cfg)
   = gerr_interceptor.defaultLocale Ctx cfg).
Proof.
  revert cfg. induction os as [|o os IH]; intros cfg; [split; reflexivity|].
  simpl. split; intros Hall; inversion Hall as [|? ? Ho Hos]; subst.
  - rewrite (proj1 (IH _) Hos). destruct o as [[f|]|t]; [discriminate Ho| |]; reflexivity.
  - rewrite (proj2 (IH _) Hos). destruct o as [f|t]; [|discriminate Ho].
    destruct f; reflexivity.
Qed.

(** X22.  The options of the gRPC interceptors.  Without options the
    configuration holds the package's locale function and no default
    locale.  The locale function is that of the last [WithLocaleFunc]
    option with a function that is not nil, and the default locale is
    that of the last [WithDefaultLocale] option; an option of one kind
    leaves the other setting alone, and [WithLocaleFunc(nil)] changes
    nothing. *)
Theorem interceptor_options (defaultLocaleFunc : Ctx -> string)
    (os : list (interceptor_option Ctx Tag)) :
  let cfg := gerr_interceptor.newInterceptorConfig Und Ctx defaultLocaleFunc
               (map to_interceptor_option os) in
  (Forall (fun o => sets_locale o = false) os ->
   gerr_interceptor.localeFunc Ctx cfg = defaultLocaleFunc) /\
  (Forall (fun o => sets_default o = false) os ->
   gerr_interceptor.defaultLocale Ctx cfg = Und) /\
  (forall (before after : list (interceptor_option Ctx Tag)) (f : Ctx -> string),
      os = before ++ io_locale (Some f) :: after ->
      Forall (fun o => sets_locale o = false) after ->
      gerr_interceptor.localeFunc Ctx cfg = f) /\
  (forall (before after : list (interceptor_option Ctx Tag)) (tag : Tag),
      os = before ++ io_default tag :: after ->
      Forall (fun o => sets_default o = false) after ->
      gerr_interceptor.defaultLocale Ctx cfg = tag).
Proof.
  intros cfg. unfold cfg, gerr_interceptor.newInterceptorConfig.
  split; [|split; [|split]].
  - intros Hall. rewrite (proj1 (options_keep os _) Hall). reflexivity.
  - intros Hall. rewrite (proj2 (options_keep os _) Hall). reflexivity.
  - intros before after f -> Hall.
    rewrite map_app, fold_left_app. simpl.
    rewrite (proj1 (options_keep after _) Hall). reflexivity.
  - intros before after tag -> Hall.
    rewrite map_app, fold_left_app. simpl.
    rewrite (proj2 (options_keep after _) Hall). reflexivity.
Qed.
End InterceptorOptions.

Lemma interceptor_options_witness :
  let cfg := gerr_interceptor.newInterceptorConfig "und"%string string
               (fun _ => ""%string)
               (map to_interceptor_option
                  [io_default "en"%string; io_locale (Some (fun c : string => c));
                   io_default "ja"%string; io_locale None]) in
  gerr_interceptor.localeFunc string cfg = (fun c : string => c)
  /\ gerr_interceptor.defaultLocale string cfg = "ja"%string.
Proof.
  intros cfg.
  destruct (interceptor_options "und"%string string (fun _ => ""%string)
              [io_default "en"%string; io_locale (Some (fun c : string => c));
               io_default "ja"%string; io_locale None])
    as (_ & _ & Hl & Hd).
  split.
  - apply (Hl [io_default "en"%string] [io_default "ja"%string; io_locale None]);
      [reflexivity|]. repeat constructor.
  - apply (Hd [io_default "en"%string; io_locale (Some (fun c : string => c))]
             [io_locale None]); [reflexivity|]. repeat constructor.
Defined.

(** ** The HTTP middleware *)

Section Middleware.
Context `{Localizables}.
Variable json_Marshal : option herr.ProblemDetail -> option string.
Variable Header : Type.

End Middleware.


(** ** The mutators in memory, composed *)

Module MemChains.
Import Mem.

(** One call of a mutator on a node that can be observed. *)
Lemma apply_step (growcap : nat -> nat -> nat) (m : mutator) (σ : store)
    (e : loc) (snap : snapshot) :
  observe σ e = Some snap ->
  exists (e2 : loc) (σ' : store),
    apply growcap m e σ = Some (e2, σ')
    /\ nodes σ !! e2 = None
    /\ observe σ' e2 = Some (effect m snap)
    /\ (forall l s, observe σ l = Some s -> observe σ' l = Some s)
    /\ nodes σ ⊆ nodes σ'.
Proof.
  intros Hobs.
  destruct (MemFacts.observe_inv σ e snap Hobs)
    as (n & fs & ds & stk & Hn & Hfs & Hds & Hstk & ->).
  assert (Hpub : forall (cp : node) (attrs : gmap loc (list Attr))
                        (anys : gmap loc (list any)) (stks : gmap loc Stack)
                        (want : snapshot),
             attr_arrays σ ⊆ attrs -> any_arrays σ ⊆ anys -> stacks σ ⊆ stks ->
             (forall σ' e2, nodes σ' !! e2 = Some cp -> attr_arrays σ' = attrs ->
                            any_arrays σ' = anys -> stacks σ' = stks ->
                            observe σ' e2 = Some want) ->
             exists (e2 : loc) (σ' : store),
               Some (publish cp σ attrs anys stks) = Some (e2, σ')
               /\ nodes σ !! e2 = None
               /\ observe σ' e2 = Some want
               /\ (forall l s, observe σ l = Some s -> observe σ' l = Some s)
               /\ nodes σ ⊆ nodes σ').
  { intros cp attrs anys stks want Ha Hd Hk Hwant.
    destruct (MemFacts.publish_frame cp σ attrs anys stks Ha Hd Hk)
      as (Hnew & Hcp & Hframe).
    exists (publish cp σ attrs anys stks).1, (publish cp σ attrs anys stks).2.
    split; [rewrite <- surjective_pairing; reflexivity|].
    split; [exact Hnew|]. split; [|split; [exact Hframe|]].
    - apply Hwant; [exact Hcp | reflexivity | reflexivity | reflexivity].
    - unfold publish. simpl. apply insert_subseteq. exact Hnew. }
  destruct m as [args | c | new | captured]; simpl apply.
  - destruct (MemFacts.copy_then_append growcap (attr_arrays σ) fs (argsToAttrs args))
      as (s1 & s2 & arrs1 & arrs2 & H1 & H2 & Hv2 & Hsub).
    unfold With. rewrite Hn. simpl. rewrite Hfs. simpl. rewrite H1. simpl.
    rewrite H2. simpl.
    apply Hpub; [exact Hsub | reflexivity | reflexivity |].
    intros σ' e2 Hcp Ha Hd Hk.
    apply (MemFacts.observe_intro _ _ _ _ _ _ Hcp); simpl;
      rewrite ?Ha, ?Hd, ?Hk; auto.
  - unfold WithCode. rewrite Hn. simpl.
    apply Hpub; [reflexivity | reflexivity | reflexivity |].
    intros σ' e2 Hcp Ha Hd Hk.
    apply (MemFacts.observe_intro _ _ _ _ _ _ Hcp); simpl;
      rewrite ?Ha, ?Hd, ?Hk; auto.
  - destruct (MemFacts.copy_then_append growcap (any_arrays σ) ds new)
      as (s1 & s2 & arrs1 & arrs2 & H1 & H2 & Hv2 & Hsub).
    unfold WithDetails. rewrite Hn. simpl. rewrite Hds. simpl. rewrite H1. simpl.
    rewrite H2. simpl.
    apply Hpub; [reflexivity | exact Hsub | reflexivity |].
    intros σ' e2 Hcp Ha Hd Hk.
    apply (MemFacts.observe_intro _ _ _ _ _ _ Hcp); simpl;
      rewrite ?Ha, ?Hd, ?Hk; auto.
  - assert (Hsp : stacks σ !! fresh (dom (stacks σ)) = None).
    { apply not_elem_of_dom. apply is_fresh. }
    unfold WithStack. rewrite Hn. simpl.
    apply Hpub; [reflexivity | reflexivity | apply insert_subseteq, Hsp |].
    intros σ' e2 Hcp Ha Hd Hk.
    apply (MemFacts.observe_intro _ _ _ _ _ _ Hcp); simpl;
      rewrite ?Ha, ?Hd, ?Hk; auto.
    eexists. split; [apply lookup_insert_eq | reflexivity].
Qed.

Lemma observe_is_node (σ : store) (e : loc) (snap : snapshot) :
  observe σ e = Some snap -> is_Some (nodes σ !! e).
Proof.
  intros Hobs. destruct (MemFacts.observe_inv σ e snap Hobs) as (n & _ & _ & _ & Hn & _).
  eauto.
Qed.

Lemma fold_value_effect (c : iface) (ms : list mutator) (ex : Error) :
  fold_left (fun s m => effect m s) ms (snapshot_of c ex)
  = snapshot_of c (fold_left (fun x m => value_effect m x) ms ex).
Proof.
  revert ex. induction ms as [|m ms IH]; intros ex; [reflexivity|].
  simpl. rewrite <- IH. f_equal. destruct m; reflexivity.
Qed.

(** X24.  The mutators compose in memory.  A chain of mutator calls on a
    node that can be observed never panics; the node it returns reads as
    the receiver with the effects of the calls applied in order, which for
    a receiver that reads as a value-level node is the value-level chain of
    the same mutators; the node is new when the chain is not empty, and
    every node that could be observed before reads the same afterwards.
    Two mutators called one after the other on the same receiver return
    two different nodes, each reading as the receiver with its own change
    only: the second call leaves the result of the first as it was. *)
Theorem mutators_compose (growcap : nat -> nat -> nat) (σ : store) (e : loc)
    (snap : snapshot) :
  observe σ e = Some snap ->
  (forall ms : list mutator,
      exists (e' : loc) (σ' : store),
        apply_all growcap ms e σ = Some (e', σ')
        /\ observe σ' e' = Some (fold_left (fun s m => effect m s) ms snap)
        /\ (ms <> [] -> nodes σ !! e' = None)
        /\ (forall l s, observe σ l = Some s -> observe σ' l = Some s)
        /\ (forall (c : iface) (ex : Error),
               snap = snapshot_of c ex ->
               observe σ' e'
               = Some (snapshot_of c (fold_left (fun x m => value_effect m x) ms ex)))) /\
  (forall m1 m2 : mutator,
      exists (e1 e2 : loc) (σ1 σ2 : store),
        apply growcap m1 e σ = Some (e1, σ1)
        /\ apply growcap m2 e σ1 = Some (e2, σ2)
        /\ e1 <> e2 /\ e1 <> e /\ e2 <> e
        /\ observe σ2 e1 = Some (effect m1 snap)
        /\ observe σ2 e2 = Some (effect m2 snap)
        /\ observe σ2 e = Some snap).
Proof.
  intros Hobs. split.
  - intros ms.
    assert (Hchain : exists (e' : loc) (σ' : store),
               apply_all growcap ms e σ = Some (e', σ')
               /\ observe σ' e' = Some (fold_left (fun s m => effect m s) ms snap)
               /\ (ms <> [] -> nodes σ !! e' = None)
               /\ (forall l s, observe σ l = Some s -> observe σ' l = Some s)).
    { revert σ e snap Hobs. induction ms as [|m ms IH]; intros σ e snap Hobs.
      - exists e, σ. split; [reflexivity|]. split; [exact Hobs|].
        split; [congruence|auto].
      - destruct (apply_step growcap m σ e snap Hobs)
          as (e1 & σ1 & Hap & Hnew & Hobs1 & Hframe & Hsub).
        destruct (IH σ1 e1 (effect m snap) Hobs1)
          as (e' & σ' & Hall & Hobs' & Hnew' & Hframe').
        exists e', σ'. simpl. rewrite Hap. split; [exact Hall|].
        split; [exact Hobs'|]. split; [|auto].
        intros _. destruct ms as [|m' ms'].
        + simpl in Hall. injection Hall as <- <-. exact Hnew.
        + destruct (nodes σ !! e') as [n|] eqn:Hn; [|reflexivity].
          exfalso.
          assert (Hsome : is_Some (nodes σ1 !! e')).
          { exists n. exact (lookup_weaken _ _ _ _ Hn Hsub). }
          rewrite Hnew' in Hsome by discriminate.
          destruct Hsome as [? Hsome]. discriminate Hsome. }
    destruct Hchain as (e' & σ' & Hall & Hobs' & Hnew & Hframe).
    exists e', σ'. split; [exact Hall|]. split; [exact Hobs'|].
    split; [exact Hnew|]. split; [exact Hframe|].
    intros c ex ->. rewrite Hobs'. rewrite fold_value_effect. reflexivity.
  - intros m1 m2.
    destruct (apply_step growcap m1 σ e snap Hobs)
      as (e1 & σ1 & Hap1 & Hnew1 & Hobs1 & Hframe1 & _).
    pose proof (Hframe1 e snap Hobs) as Hobs_e.
    destruct (apply_step growcap m2 σ1 e snap Hobs_e)
      as (e2 & σ2 & Hap2 & Hnew2 & Hobs2 & Hframe2 & _).
    exists e1, e2, σ1, σ2. split; [exact Hap1|]. split; [exact Hap2|].
    split; [|split; [|split; [|split; [|split]]]].
    + intros <-. destruct (observe_is_node σ1 e1 _ Hobs1) as [n Hn].
      rewrite Hn in Hnew2. discriminate Hnew2.
    + intros ->. destruct (observe_is_node σ e _ Hobs) as [n Hn].
      rewrite Hn in Hnew1. discriminate Hnew1.
    + intros ->. destruct (observe_is_node σ1 e _ Hobs_e) as [n Hn].
      rewrite Hn in Hnew2. discriminate Hnew2.
    + apply Hframe2, Hobs1.
    + exact Hobs2.
    + apply Hframe2, Hobs_e.
Qed.

Lemma mutators_compose_witness :
  exists (e' : loc) (σ' : store),
    apply_all double_capacity [m_WithDetails [any_string "b"]; m_WithCode NotFound]
      0 sample_store = Some (e', σ')
    /\ observe σ' e'
       = Some (fold_left (fun s m => effect m s)
                 [m_WithDetails [any_string "b"]; m_WithCode NotFound] sample_snapshot)
    /\ observe σ' 0 = Some sample_snapshot.
Proof.
  destruct (mutators_compose double_capacity sample_store 0 sample_snapshot)
    as [Hchain _]; [vm_compute; reflexivity|].
  destruct (Hchain [m_WithDetails [any_string "b"]; m_WithCode NotFound])
    as (e' & σ' & Hall & Hobs & _ & Hframe & _).
  exists e', σ'. split; [exact Hall|]. split; [exact Hobs|].
  apply Hframe. vm_compute. reflexivity.
Defined.
End MemChains.


(** ** The locale of a header, whatever the weights *)

Lemma float_gt_not_above (a b c : spec_float) :
  locale.float_gt c b = true -> locale.float_gt a b = false ->
  locale.float_gt a c = false.
Proof. float_cases. Qed.

Lemma best_loop_safe (qs : list spec_float) (n i b : nat) :
  b < i -> i + n <= length qs ->
  (forall j qj qb, j < i -> qs !! j = Some qj -> qs !! b = Some qb ->
                   locale.float_gt qj qb = false) ->
  exists b' : nat,
    locale.best_loop qs n i b = Some b'
    /\ b' < i + n
    /\ (forall j qj qb, j < i + n -> qs !! j = Some qj -> qs !! b' = Some qb ->
                        locale.float_gt qj qb = false).
Proof.
  revert i b. induction n as [|n IH]; intros i b Hb Hlen Hinv; simpl.
  - exists b. rewrite Nat.add_0_r. auto.
  - destruct (lookup_lt_is_Some_2 qs i) as [qi Hqi]; [lia|].
    destruct (lookup_lt_is_Some_2 qs b) as [qb Hqb]; [lia|].
    rewrite Hqi, Hqb.
    replace (i + S n) with (S i + n) by lia.
    destruct (locale.float_gt qi qb) eqn:Hgt.
    + apply IH; [lia | lia |].
      intros j qj qi' Hj Hqj Hqi'. rewrite Hqi in Hqi'. injection Hqi' as <-.
      destruct (decide (j = i)) as [->|Hne].
      * rewrite Hqi in Hqj. injection Hqj as <-. apply float_gt_irrefl.
      * apply (float_gt_not_above qj qb qi Hgt).
        apply (Hinv j qj qb); [lia | exact Hqj | exact Hqb].
    + apply IH; [lia | lia |].
      intros j qj qb' Hj Hqj Hqb'. rewrite Hqb in Hqb'. injection Hqb' as <-.
      destruct (decide (j = i)) as [->|Hne].
      * rewrite Hqi in Hqj. injection Hqj as <-. exact Hgt.
      * apply (Hinv j qj qb); [lia | exact Hqj | exact Hqb].
Qed.

Lemma best_loop_out_of_range (qs : list spec_float) (n i b : nat) :
  i <= length qs -> length qs < i + n -> locale.best_loop qs n i b = None.
Proof.
  revert i b. induction n as [|n IH]; intros i b Hi Hlen; [lia|]. simpl.
  destruct (qs !! i) as [qi|] eqn:Hqi; [|reflexivity].
  destruct (qs !! b) as [qb|]; [|reflexivity].
  apply lookup_lt_Some in Hqi.
  destruct (locale.float_gt qi qb); apply IH; lia.
Qed.

(** X25.  [ParseAcceptLanguage] with weights of any kind, not-a-number
    included.  When the parser reports no error and returns at least one
    tag and at least as many weights as tags, the function does not panic
    and returns one of the tags, and no weight of a tag exceeds the weight
    of the tag returned.  With one tag it returns that tag whatever the
    weights are, even when there is none.  With two or more tags and fewer
    weights than tags the function panics with an index out of range. *)
Theorem ParseAcceptLanguage_any_weights (Tag : Type) (Tag_String : Tag -> string)
    (parse : string -> list Tag * list spec_float * option string)
    (s : string) (tags : list Tag) (qs : list spec_float) :
  parse s = (tags, qs, None) ->
  tags <> [] ->
  (length tags <= length qs ->
   exists (b : nat) (t : Tag),
     locale.ParseAcceptLanguage Tag Tag_String parse s = Some (Tag_String t)
     /\ tags !! b = Some t
     /\ (forall j qj qb, j < length tags -> qs !! j = Some qj -> qs !! b = Some qb ->
                         locale.float_gt qj qb = false)) /\
  (forall t : Tag,
      tags = [t] ->
      locale.ParseAcceptLanguage Tag Tag_String parse s = Some (Tag_String t)) /\
  (2 <= length tags -> length qs < length tags ->
   locale.ParseAcceptLanguage Tag Tag_String parse s = None).
Proof.
  intros Hparse Hne.
  assert (Hpos : 0 < length tags) by (destruct tags; [congruence | simpl; lia]).
  assert (Hunfold : locale.ParseAcceptLanguage Tag Tag_String parse s
                    = match locale.best_loop qs (length tags - 1) 1 0 with
                      | Some best =>
                          match tags !! best with
                          | Some t => Some (Tag_String t)
                          | None => None
                          end
                      | None => None
                      end).
  { unfold locale.ParseAcceptLanguage. rewrite Hparse.
    rewrite bool_decide_false by (intros Hc; apply Hc; reflexivity).
    rewrite bool_decide_false by lia. reflexivity. }
  rewrite Hunfold. split; [|split].
  - intros Hlen.
    destruct (best_loop_safe qs (length tags - 1) 1 0) as (b & Hb & Hlt & Hmax);
      [lia | lia | |].
    { intros j qj qb Hj Hqj Hqb. replace j with 0 in Hqj by lia.
      rewrite Hqj in Hqb. injection Hqb as <-. apply float_gt_irrefl. }
    rewrite Hb.
    destruct (lookup_lt_is_Some_2 tags b) as [t Ht]; [lia|].
    rewrite Ht. exists b, t. split; [reflexivity|]. split; [exact Ht|].
    intros j qj qb Hj. apply Hmax. lia.
  - intros t ->. reflexivity.
  - intros Htwo Hlen.
    destruct qs as [|q qs'].
    + destruct (length tags - 1) as [|n] eqn:Hn; [lia|]. reflexivity.
    + rewrite best_loop_out_of_range; [reflexivity | simpl; lia | lia].
Qed.

Lemma ParseAcceptLanguage_any_weights_witness :
  exists (b : nat) (t : string),
    locale.ParseAcceptLanguage string id nan_parser "de,fr,en;q=0.9" = Some (id t)
    /\ ["de"; "fr"; "en"]%string !! b = Some t
    /\ (forall j qj qb, j < 3 -> [S754_nan; f32_1_0; f32_0_9] !! j = Some qj ->
                        [S754_nan; f32_1_0; f32_0_9] !! b = Some qb ->
                        locale.float_gt qj qb = false).
Proof.
  destruct (ParseAcceptLanguage_any_weights string id nan_parser "de,fr,en;q=0.9"%string
              ["de"; "fr"; "en"]%string [S754_nan; f32_1_0; f32_0_9])
    as (Hsafe & _); [reflexivity | discriminate |].
  apply Hsafe. simpl. lia.
Defined.


(** ** From one protocol to another *)

Lemma omap_none {A B : Type} (f : A -> option B) (l : list A) :
  Forall (fun x => f x = None) l -> omap f l = [].
Proof.
  induction 1 as [|x l Hx _ IH]; [reflexivity|]. simpl. rewrite Hx. exact IH.
Qed.

Lemma DetailsOf_no_cause (e : Error) :
  cause e = None -> DetailsOf (Some (err_Error e)) = details e.
Proof.
  intros Hc. rewrite (proj2 (Fields_DetailsOf_walk_opt (Some (err_Error e)))).
  simpl. rewrite Hc. apply app_nil_r.
Qed.

Section Received.
Context `{AnyCodec}.

(** X26.  Details received over gRPC or Connect do not reach a problem
    detail.  The error that [FromStatus] builds from a status (not OK)
    carries one detail for each detail of the status, and the error that
    [FromConnectError] builds carries one for each detail that unpacks, all
    of them protobuf messages or unpacking errors and none of the four
    kinds of details.go; so the problem detail of such an error has an
    empty errors member, whatever the status or Connect error held. *)
Theorem received_details_stay_protobuf (tb : herr.tables) :
  (forall s : gerr.Status,
      gerr.st_code s <> gerr.OK ->
      exists (e : Error) (p : herr.ProblemDetail),
        gerr.FromStatus (Some s) = Some e
        /\ length (DetailsOf (Some (err_Error e))) = length (gerr.st_details s)
        /\ Forall (fun d => is_canonical d = false) (DetailsOf (Some (err_Error e)))
        /\ herr.ToProblemDetail tb (Some (err_Error e)) [] = Some p
        /\ herr.pd_Errors p = []
        /\ herr.pd_Detail p = gerr.st_message s) /\
  (forall ce : cerr.ConnectError,
      exists (e : Error) (p : herr.ProblemDetail),
        cerr.FromConnectError (Some ce) = Some e
        /\ length (DetailsOf (Some (err_Error e)))
           = length (omap cerr.ErrorDetail_Value (cerr.ce_details ce))
        /\ Forall (fun d => is_canonical d = false) (DetailsOf (Some (err_Error e)))
        /\ herr.ToProblemDetail tb (Some (err_Error e)) [] = Some p
        /\ herr.pd_Errors p = []
        /\ herr.pd_Detail p = cerr.Message ce).
Proof.
  assert (Hjson : forall ds : list any,
             Forall (fun d => is_canonical d = false) ds ->
             omap herr.toDetailJSON ds = []).
  { intros ds Hds. apply omap_none. apply (Forall_impl _ _ _ Hds).
    intros d Hd. destruct d; try reflexivity; discriminate Hd. }
  split.
  - intros s Hs.
    destruct (FromStatus_not_OK s Hs) as (e & He & Hmsg & _ & Hcause & Hdet).
    assert (Hcan : Forall (fun d => is_canonical d = false)
                     (DetailsOf (Some (err_Error e)))).
    { rewrite (DetailsOf_no_cause e Hcause), Hdet. simpl.
      apply Forall_forall. intros d Hd. apply list_elem_of_fmap in Hd as (a & -> & _).
      destruct (Any_UnmarshalNew a); reflexivity. }
    exists e. eexists. split; [exact He|]. split.
    { rewrite (DetailsOf_no_cause e Hcause), Hdet. simpl. apply length_map. }
    split; [exact Hcan|]. split; [reflexivity|]. simpl.
    split; [exact (Hjson _ Hcan)|].
    rewrite Hcause. exact Hmsg.
  - intros ce.
    destruct (FromConnectError_Some ce) as (e & He & Hmsg & _ & Hcause & Hdet).
    assert (Hcan : Forall (fun d => is_canonical d = false)
                     (DetailsOf (Some (err_Error e)))).
    { rewrite (DetailsOf_no_cause e Hcause), Hdet.
      apply Forall_forall. intros d Hd. apply list_elem_of_fmap in Hd as (a & -> & _).
      reflexivity. }
    exists e. eexists. split; [exact He|]. split.
    { rewrite (DetailsOf_no_cause e Hcause), Hdet. apply length_fmap. }
    split; [exact Hcan|]. split; [reflexivity|]. simpl.
    split; [exact (Hjson _ Hcan)|].
    rewrite Hcause. exact Hmsg.
Qed.
End Received.

Lemma received_details_stay_protobuf_witness :
  exists (e : Error) (p : herr.ProblemDetail),
    gerr.FromStatus (H := opaque_codec)
      (Some (gerr.ToStatus (H := opaque_codec) (Some (err_Error quota_error))))
    = Some e
    /\ length (DetailsOf (Some (err_Error e))) = 1
    /\ herr.ToProblemDetail herr.init (Some (err_Error e)) [] = Some p
    /\ herr.pd_Errors p = []
    /\ herr.pd_Detail p = "quota exceeded"%string.
Proof.
  destruct (received_details_stay_protobuf (H := opaque_codec) herr.init) as [Hs _].
  destruct (Hs (gerr.ToStatus (H := opaque_codec) (Some (err_Error quota_error))))
    as (e & p & He & Hlen & _ & Hp & Herrs & Hdetail).
  - vm_compute. discriminate.
  - exists e, p. split; [exact He|]. split; [rewrite Hlen; reflexivity|].
    split; [exact Hp|]. split; [exact Herrs|]. rewrite Hdetail. reflexivity.
Defined.
